(** * CodePlanner: the job pipeline, the call scheduler and the vector store

    A shallow embedding of the TypeScript sources of codeplanner-cli:

    - [Gateway]      packages/gateway/src/server.ts, redis.ts
    - [RateLimiter]  packages/engine/src/utils/rate-limiter.ts
    - [Retry]        packages/engine/src/planner/plan-generator.ts
    - [Worker]       packages/engine/src/worker.ts
    - [VectorStore]  packages/engine/src/vector-store/redis-store.ts
    - [Indexing]     packages/engine/src/worker.ts (the index handler)
    - [Chunker]      packages/engine/src/parser/chunker.ts

    Each module first transcribes the source (same names, same order of
    tests and effects) and then states the properties of the specification
    that concern it. *)

From Stdlib Require Import ZArith Lia Reals Lra String List Sorted Permutation.
From Stdlib Require Import DecimalString DecimalNat.
From stdpp Require Import gmap strings list.

Open Scope Z_scope.

(* ===================================================================== *)
(** * Gateway: relaying results to the client connection *)
(* ===================================================================== *)

Module Gateway.

(** [ResultMessage] (gateway/src/types.ts). The handler receives the parsed
    JSON as [any], so [type] is whatever string the worker wrote. *)
Record ResultMessage := {
  jobId : string;
  type : string;
  data : string;          (* the payload, kept as JSON text *)
  timestamp : Z }.

(** [WSMessage], the frame sent to the client. *)
Record WSMessage := {
  ws_type : string;
  ws_jobId : string;
  ws_data : string }.

(** What [handleJobResult] can touch: the frames written to the socket
    (oldest first) and the channels of the subscriber client. *)
Record State := {
  sent : list WSMessage;
  subscriptions : gset string }.

Definition resultsChannel (jobId : string) : string := "results:" +:+ jobId.

Definition ws_send (m : WSMessage) (st : State) : State :=
  {| sent := sent st ++ [m]; subscriptions := subscriptions st |}.

(** redis.ts, [subscribeToResults]. *)
Definition subscribeToResults (jobId : string) (st : State) : State :=
  {| sent := sent st; subscriptions := {[ resultsChannel jobId ]} ∪ subscriptions st |}.

(** redis.ts, [unsubscribeFromResults]. *)
Definition unsubscribeFromResults (jobId : string) (st : State) : State :=
  {| sent := sent st; subscriptions := subscriptions st ∖ {[ resultsChannel jobId ]} |}.

(** The frame built at the top of [handleJobResult]. *)
Definition wsMessage (result : ResultMessage) : WSMessage :=
  {| ws_type := if String.eqb (type result) "complete" then "response" else "stream";
     ws_jobId := jobId result;
     ws_data := data result |}.

(** server.ts, [handleJobResult]. *)
Definition handleJobResult (result : ResultMessage) (st : State) : State :=
  let st1 := ws_send (wsMessage result) st in
  if String.eqb (type result) "complete"
  then unsubscribeFromResults (jobId result) st1
  else st1.

(** server.ts, [sendError]: the one place where the gateway writes an
    'error' frame. *)
Definition sendError (message : string) (st : State) : State :=
  ws_send {| ws_type := "error"; ws_jobId := "unknown"; ws_data := message |} st.

(** The translation table in the words of the specification. *)
Definition clientType_spec (resultType : string) : string :=
  if String.eqb resultType "complete" then "response"
  else if String.eqb resultType "error" then "error"
  else "stream".

(** A result is terminal, in the words of the specification, when its kind
    is 'complete' or 'error'. *)
Definition terminal_spec (resultType : string) : bool :=
  String.eqb resultType "complete" || String.eqb resultType "error".

(** ** Facts *)

Lemma wsMessage_stream j d t :
  ws_type (wsMessage {| jobId := j; type := "stream"; data := d; timestamp := t |})
  = clientType_spec "stream".
Proof. reflexivity. Qed.

Lemma wsMessage_complete j d t :
  ws_type (wsMessage {| jobId := j; type := "complete"; data := d; timestamp := t |})
  = clientType_spec "complete".
Proof. reflexivity. Qed.

Lemma handleJobResult_sends_one r st :
  sent (handleJobResult r st) = sent st ++ [wsMessage r].
Proof.
  unfold handleJobResult. destruct (String.eqb (type r) "complete"); reflexivity.
Qed.

Lemma handleJobResult_complete_unsubscribes j d t st :
  resultsChannel j ∉
    subscriptions (handleJobResult {| jobId := j; type := "complete"; data := d; timestamp := t |} st).
Proof.
  unfold handleJobResult; simpl.
  apply not_elem_of_difference. right. apply elem_of_singleton. reflexivity.
Qed.

(** C5. An 'error' result is relayed as a 'stream' frame, where the
    specification's table (and the CLI's 'error' handler) expects 'error':
    for every job id, payload and timestamp the frame written for an 'error'
    result has type "stream", which differs from the table's entry. *)
Theorem handleJobResult_error_relayed_as_stream :
  forall j d t st,
    let r := {| jobId := j; type := "error"; data := d; timestamp := t |} in
    sent (handleJobResult r st)
      = sent st ++ [{| ws_type := "stream"; ws_jobId := j; ws_data := d |}]
    /\ ws_type (wsMessage r) <> clientType_spec (type r).
Proof.
  intros j d t st r. split.
  - subst r. rewrite handleJobResult_sends_one. reflexivity.
  - subst r. cbn. discriminate.
Qed.

(** C6. An 'error' result, terminal in the specification, leaves the
    subscription to the job's result channel in place: the set of
    subscribed channels is unchanged, so a channel subscribed before is
    still subscribed afterwards. *)
Theorem handleJobResult_error_keeps_subscription :
  forall j d t st,
    let r := {| jobId := j; type := "error"; data := d; timestamp := t |} in
    terminal_spec (type r) = true
    /\ subscriptions (handleJobResult r (subscribeToResults j st))
       = {[ resultsChannel j ]} ∪ subscriptions st
    /\ resultsChannel j ∈ subscriptions (handleJobResult r (subscribeToResults j st)).
Proof.
  intros j d t st r. subst r. unfold handleJobResult; simpl.
  split; [reflexivity|]. split; [reflexivity|]. set_solver.
Qed.

(* --------------------------------------------------------------------- *)
(** ** The message handler and the relay of a job's results *)
(* --------------------------------------------------------------------- *)

(** [JobMessage] (gateway/src/types.ts). *)
Record JobMessage := {
  j_jobId : string;
  j_connectionId : string;
  j_userId : string;
  j_projectId : string;
  j_command : string;
  j_data : string }.

(** [WSData], attached to a socket when it opens. *)
Record WSData := {
  userId : string;
  connectionId : string;
  connectedAt : Z }.

(** The [data] property of a parsed client frame: its [command], if any,
    and the whole value as JSON text. *)
Record FrameData := {
  fd_command : option string;
  fd_json : string }.

(** What [JSON.parse(message)] yields: a syntax error, or a value whose
    [data] property is an object ([Some]) or is missing or null ([None]). *)
Inductive ClientFrame :=
| Unparsable
| Frame (data : option FrameData).

(** The gateway as the message handler of one socket sees it:
    [GatewayRedisClient.isConnected], the jobs published to 'jobs:pending'
    (oldest first), and the socket and subscriber state. *)
Record Server := {
  isConnected : bool;
  published : list JobMessage;
  io : State }.

(** [msg.data.command || 'unknown'] *)
Definition commandOf (d : FrameData) : string :=
  match fd_command d with
  | Some c => if String.eqb c "" then "unknown" else c
  | None => "unknown"
  end.

(** The [message] handler of the socket; [jobId] is the uuid drawn for the
    message. Every exception of the [try] block (the syntax error, the
    access to [command] of a missing [data], the 'not connected' error of
    [publishJob]) ends in [sendError(ws, 'Invalid message format')]. *)
Definition onClientMessage (ws : WSData) (jobId : string) (frame : ClientFrame)
  (g : Server) : Server :=
  let reject :=
    {| isConnected := isConnected g; published := published g;
       io := sendError "Invalid message format" (io g) |} in
  match frame with
  | Unparsable => reject
  | Frame None => reject
  | Frame (Some d) =>
      if isConnected g then
        {| isConnected := true;
           published := published g ++
             [{| j_jobId := jobId;
                 j_connectionId := connectionId ws;
                 j_userId := userId ws;
                 j_projectId := "project1";
                 j_command := commandOf d;
                 j_data := fd_json d |}];
           io := subscribeToResults jobId (io g) |}
      else reject
  end.

(** The results of the subscribed channels reaching the socket, one
    callback after the other. *)
Definition relay (results : list ResultMessage) (st : State) : State :=
  fold_left (fun s r => handleJobResult r s) results st.

Lemma resultsChannel_inj j j' : resultsChannel j = resultsChannel j' -> j = j'.
Proof. unfold resultsChannel. cbn. intros H. repeat (injection H as H). exact H. Qed.

Lemma relay_sent results : forall st,
  sent (relay results st) = sent st ++ (wsMessage <$> results).
Proof.
  induction results as [| r results IH]; intros st; cbn.
  - rewrite app_nil_r. reflexivity.
  - unfold relay in IH. rewrite IH, handleJobResult_sends_one, <- app_assoc. reflexivity.
Qed.

(** X1. The gateway relays every result it receives as exactly one frame,
    in the order received, with the result's job id and payload unchanged:
    nothing is dropped, duplicated or reordered. *)
Theorem relay_preserves_results :
  forall (results : list ResultMessage) (st : State),
    let st' := relay results st in
    exists frames,
      sent st' = sent st ++ frames
      /\ length frames = length results
      /\ (ws_jobId <$> frames) = (jobId <$> results)
      /\ (ws_data <$> frames) = (data <$> results).
Proof.
  intros results st st'. exists (wsMessage <$> results).
  split; [apply relay_sent|]. split; [apply length_fmap|].
  split; rewrite <- list_fmap_compose; reflexivity.
Qed.

Lemma relay_streams_subscriptions results : forall st,
  Forall (fun r => type r <> "complete") results ->
  subscriptions (relay results st) = subscriptions st.
Proof.
  induction results as [| r results IH]; intros st H; [reflexivity|].
  apply Forall_cons in H as [Hr H]. cbn. unfold relay in IH. rewrite (IH _ H).
  unfold handleJobResult. apply String.eqb_neq in Hr. rewrite Hr. reflexivity.
Qed.

Lemma relay_complete_subscriptions j before final st :
  Forall (fun r => type r <> "complete") before ->
  type final = "complete" ->
  jobId final = j ->
  subscriptions (relay (before ++ [final]) (subscribeToResults j st))
  = ({[ resultsChannel j ]} ∪ subscriptions st) ∖ {[ resultsChannel j ]}.
Proof.
  intros Hb Hf Hj.
  unfold relay. rewrite fold_left_app. cbn. fold (relay before (subscribeToResults j st)).
  unfold handleJobResult. rewrite Hf. cbn.
  rewrite (relay_streams_subscriptions before _ Hb), Hj. reflexivity.
Qed.

(** X2. Life of a subscription: the channel subscribed for a job stays
    subscribed through results that are not 'complete', and the 'complete'
    result of the job removes it and nothing else; the frame written last
    is the 'response'. *)
Theorem relay_until_complete :
  forall (j : string) (before : list ResultMessage) (final : ResultMessage) (st : State),
    Forall (fun r => type r <> "complete") before ->
    type final = "complete" ->
    jobId final = j ->
    let st0 := subscribeToResults j st in
    resultsChannel j ∈ subscriptions (relay before st0)
    /\ (resultsChannel j ∉ subscriptions (relay (before ++ [final]) st0))
    /\ (forall ch, ch <> resultsChannel j ->
          (ch ∈ subscriptions (relay (before ++ [final]) st0) <-> ch ∈ subscriptions st))
    /\ last (sent (relay (before ++ [final]) st0))
       = Some {| ws_type := "response"; ws_jobId := j; ws_data := data final |}.
Proof.
  intros j before final st Hb Hf Hj st0.
  assert (Hsub : subscriptions (relay before st0) = {[ resultsChannel j ]} ∪ subscriptions st)
    by (rewrite (relay_streams_subscriptions before st0 Hb); reflexivity).
  assert (Hend : subscriptions (relay (before ++ [final]) st0)
                 = ({[ resultsChannel j ]} ∪ subscriptions st) ∖ {[ resultsChannel j ]})
    by exact (relay_complete_subscriptions j before final st Hb Hf Hj).
  split; [rewrite Hsub; apply elem_of_union_l, elem_of_singleton; reflexivity|].
  split; [rewrite Hend; apply not_elem_of_difference; right;
          apply elem_of_singleton; reflexivity|].
  split.
  - intros ch Hch. rewrite Hend, elem_of_difference, elem_of_union, !elem_of_singleton.
    tauto.
  - rewrite relay_sent, fmap_app. cbn. rewrite app_assoc, last_snoc.
    unfold wsMessage. rewrite Hf, Hj. reflexivity.
Qed.

Lemma relay_until_complete_witness :
  let before := [ {| jobId := "job-1"; type := "stream"; data := "a"; timestamp := 1 |};
                  {| jobId := "job-1"; type := "stream"; data := "b"; timestamp := 2 |} ] in
  let final := {| jobId := "job-1"; type := "complete"; data := "done"; timestamp := 3 |} in
  let st0 := subscribeToResults "job-1" {| sent := []; subscriptions := ∅ |} in
  Forall (fun r => type r <> "complete") before
  /\ type final = "complete" /\ jobId final = "job-1"
  /\ (resultsChannel "job-1" ∉ subscriptions (relay (before ++ [final]) st0))
  /\ (ws_type <$> sent (relay (before ++ [final]) st0)) = ["stream"; "stream"; "response"].
Proof.
  cbv zeta.
  assert (Hb : Forall (fun r => type r <> "complete")
                 [ {| jobId := "job-1"; type := "stream"; data := "a"; timestamp := 1 |};
                   {| jobId := "job-1"; type := "stream"; data := "b"; timestamp := 2 |} ])
    by (repeat constructor; cbn; discriminate).
  split; [exact Hb|]. split; [reflexivity|]. split; [reflexivity|].
  destruct (relay_until_complete "job-1" _
              {| jobId := "job-1"; type := "complete"; data := "done"; timestamp := 3 |}
              {| sent := []; subscriptions := ∅ |} Hb eq_refl eq_refl) as (_ & H & _).
  split; [exact H | reflexivity].
Defined.

(** X3. A client message that does not parse, that has no [data] object, or
    that arrives while the Redis client is not connected is answered with
    exactly one frame, the error 'Invalid message format'; no job is
    published and no channel is subscribed. *)
Theorem onClientMessage_rejects :
  forall (ws : WSData) (jobId : string) (frame : ClientFrame) (g : Server),
    frame = Unparsable \/ frame = Frame None \/ isConnected g = false ->
    let g' := onClientMessage ws jobId frame g in
    published g' = published g
    /\ subscriptions (io g') = subscriptions (io g)
    /\ sent (io g')
       = sent (io g) ++ [{| ws_type := "error"; ws_jobId := "unknown";
                            ws_data := "Invalid message format" |}].
Proof.
  intros ws jobId frame g H g'. subst g'. unfold onClientMessage.
  destruct H as [-> | [-> | H]]; [auto | auto |].
  rewrite H. destruct frame as [| [d |]]; auto.
Qed.

Lemma onClientMessage_rejects_witness :
  let ws := {| userId := "user1"; connectionId := "c-1"; connectedAt := 0 |} in
  let g := {| isConnected := true; published := [];
              io := {| sent := []; subscriptions := ∅ |} |} in
  let g' := onClientMessage ws "job-1" (Frame None) g in
  (Frame None = Unparsable \/ Frame None = Frame None \/ isConnected g = false)
  /\ published g' = []
  /\ sent (io g') = [{| ws_type := "error"; ws_jobId := "unknown";
                        ws_data := "Invalid message format" |}].
Proof.
  cbv zeta.
  assert (H : Frame None = Unparsable \/ Frame None = Frame None
              \/ isConnected {| isConnected := true; published := [];
                                io := {| sent := []; subscriptions := ∅ |} |} = false)
    by (right; left; reflexivity).
  split; [exact H|].
  destruct (onClientMessage_rejects
              {| userId := "user1"; connectionId := "c-1"; connectedAt := 0 |}
              "job-1" (Frame None)
              {| isConnected := true; published := [];
                 io := {| sent := []; subscriptions := ∅ |} |} H) as (H1 & _ & H3).
  split; [exact H1 | exact H3].
Defined.

(** X4. A message with a [data] object, taken while the Redis client is
    connected, publishes exactly one job - with the drawn job id, the
    socket's connection and user ids, project 'project1' and the command of
    the message, 'unknown' if it has none - subscribes to that job's result
    channel and writes no frame; the results of that job then reach the
    socket until 'complete', which ends the subscription. *)
Theorem onClientMessage_dispatches :
  forall (ws : WSData) (jobId : string) (d : FrameData) (g : Server)
         (before : list ResultMessage) (final : ResultMessage),
    isConnected g = true ->
    Forall (fun r => type r <> "complete") before ->
    type final = "complete" ->
    Gateway.jobId final = jobId ->
    let g' := onClientMessage ws jobId (Frame (Some d)) g in
    published g'
    = published g ++ [{| j_jobId := jobId; j_connectionId := connectionId ws;
                         j_userId := userId ws; j_projectId := "project1";
                         j_command := commandOf d; j_data := fd_json d |}]
    /\ sent (io g') = sent (io g)
    /\ resultsChannel jobId ∈ subscriptions (io g')
    /\ sent (relay (before ++ [final]) (io g'))
       = sent (io g) ++ (wsMessage <$> before)
         ++ [{| ws_type := "response"; ws_jobId := jobId; ws_data := data final |}]
    /\ resultsChannel jobId ∉ subscriptions (relay (before ++ [final]) (io g')).
Proof.
  intros ws jobId d g before final Hc Hb Hf Hj g'. subst g'.
  unfold onClientMessage. rewrite Hc. cbn [published io].
  split; [reflexivity|]. split; [reflexivity|].
  split; [apply elem_of_union_l, elem_of_singleton; reflexivity|].
  split.
  - rewrite relay_sent, fmap_app. cbn. unfold wsMessage at 2. rewrite Hf, Hj. reflexivity.
  - rewrite (relay_complete_subscriptions jobId before final (io g) Hb Hf Hj).
    apply not_elem_of_difference; right. apply elem_of_singleton; reflexivity.
Qed.

Lemma onClientMessage_dispatches_witness :
  let ws := {| userId := "user1"; connectionId := "c-1"; connectedAt := 0 |} in
  let d := {| fd_command := None; fd_json := "{}" |} in
  let g := {| isConnected := true; published := [];
              io := {| sent := []; subscriptions := ∅ |} |} in
  let before := [ {| jobId := "job-1"; type := "stream"; data := "a"; timestamp := 1 |};
                  {| jobId := "job-1"; type := "error"; data := "b"; timestamp := 2 |} ] in
  let final := {| jobId := "job-1"; type := "complete"; data := "done"; timestamp := 3 |} in
  let g' := onClientMessage ws "job-1" (Frame (Some d)) g in
  isConnected g = true
  /\ Forall (fun r => type r <> "complete") before
  /\ type final = "complete" /\ Gateway.jobId final = "job-1"
  /\ (j_command <$> published g') = ["unknown"]
  /\ (ws_type <$> sent (relay (before ++ [final]) (io g'))) = ["stream"; "stream"; "response"]
  /\ (resultsChannel "job-1" ∉ subscriptions (relay (before ++ [final]) (io g'))).
Proof.
  cbv zeta.
  assert (Hb : Forall (fun r => type r <> "complete")
                 [ {| jobId := "job-1"; type := "stream"; data := "a"; timestamp := 1 |};
                   {| jobId := "job-1"; type := "error"; data := "b"; timestamp := 2 |} ])
    by (repeat constructor; cbn; discriminate).
  split; [reflexivity|]. split; [exact Hb|]. split; [reflexivity|]. split; [reflexivity|].
  destruct (onClientMessage_dispatches
              {| userId := "user1"; connectionId := "c-1"; connectedAt := 0 |} "job-1"
              {| fd_command := None; fd_json := "{}" |}
              {| isConnected := true; published := [];
                 io := {| sent := []; subscriptions := ∅ |} |}
              _ {| jobId := "job-1"; type := "complete"; data := "done"; timestamp := 3 |}
              eq_refl Hb eq_refl eq_refl) as (Hp & _ & _ & Hs & Hgone).
  split; [rewrite Hp; reflexivity|]. split; [rewrite Hs; reflexivity | exact Hgone].
Defined.

End Gateway.

(* ===================================================================== *)
(** * RateLimiter: the queued scheduler and its process-wide singleton *)
(* ===================================================================== *)

Module RateLimiter.

Record RateLimiterOptions := {
  opt_requestsPerMinute : option Z;
  opt_name : option string }.

(** The fields of [QueuedRateLimiter]. A queue entry is represented by its
    [id]; [timer] holds the period of the running interval, [None] for
    [null]. Times are integer milliseconds, as [Date.now()] gives them. *)
Record QueuedRateLimiter := {
  requestsPerMinute : Z;
  intervalMs : Z;
  name : string;
  queue : list string;
  timer : option Z;
  isRunning : bool;
  lastRunAt : option Z }.

(** [options?.requestsPerMinute ?? (process.env.RPM ? Number(process.env.RPM) : 20)].
    [envRPM] is the numeric value of a set, non-empty RPM variable. *)
Definition configuredRPM (options : option RateLimiterOptions) (envRPM : option Z) : Z :=
  match options ≫= opt_requestsPerMinute with
  | Some r => r
  | None => match envRPM with Some e => e | None => 20 end
  end.

Definition constructor (options : option RateLimiterOptions) (envRPM : option Z)
  : QueuedRateLimiter :=
  let rpm := Z.max 1 (configuredRPM options envRPM) in
  {| requestsPerMinute := rpm;
     intervalMs := 60000 / rpm;
     name := match options ≫= opt_name with
             | Some n => n
             | None => "provider-rate-limiter"
             end;
     queue := [];
     timer := None;
     isRunning := false;
     lastRunAt := None |}.

Definition stop (l : QueuedRateLimiter) : QueuedRateLimiter :=
  {| requestsPerMinute := requestsPerMinute l; intervalMs := intervalMs l;
     name := name l; queue := queue l;
     timer := None; isRunning := false; lastRunAt := lastRunAt l |}.

Definition start (l : QueuedRateLimiter) : QueuedRateLimiter :=
  if isRunning l then l
  else {| requestsPerMinute := requestsPerMinute l; intervalMs := intervalMs l;
          name := name l; queue := queue l;
          timer := Some (Z.max 250 (intervalMs l / 3));
          isRunning := true; lastRunAt := lastRunAt l |}.

(** [schedule]: push the entry (with the uuid [id] drawn for it), then
    [start()]. *)
Definition schedule (id : string) (l : QueuedRateLimiter) : QueuedRateLimiter :=
  start {| requestsPerMinute := requestsPerMinute l; intervalMs := intervalMs l;
           name := name l; queue := queue l ++ [id];
           timer := timer l; isRunning := isRunning l; lastRunAt := lastRunAt l |}.

(** One run of the [tick] closure. [now] is the reading taken for the
    elapsed-time test, [now'] the second reading, stored in [lastRunAt]
    just before [next.task()] is called. The result carries the task
    dispatched by this tick, with its dispatch time. *)
Definition tick (now now' : Z) (l : QueuedRateLimiter)
  : QueuedRateLimiter * option (string * Z) :=
  match queue l with
  | [] => (stop l, None)
  | next :: rest =>
      let tooEarly :=
        match lastRunAt l with
        | Some t => now - t <? intervalMs l
        | None => false
        end in
      if tooEarly then (l, None)
      else ({| requestsPerMinute := requestsPerMinute l; intervalMs := intervalMs l;
               name := name l; queue := rest;
               timer := timer l; isRunning := isRunning l;
               lastRunAt := Some now' |},
            Some (next, now'))
  end.

(** What happens to a limiter: a caller schedules a task, or the interval
    fires. *)
Inductive Event :=
| Schedule (id : string)
| Tick (now now' : Z).

(** The interval only fires while [timer] is set. The log lists the
    dispatches, oldest first. *)
Definition step (e : Event) (s : QueuedRateLimiter * list (string * Z))
  : QueuedRateLimiter * list (string * Z) :=
  let (l, log) := s in
  match e with
  | Schedule id => (schedule id l, log)
  | Tick now now' =>
      match timer l with
      | None => (l, log)
      | Some _ =>
          match tick now now' l with
          | (l', Some d) => (l', log ++ [d])
          | (l', None) => (l', log)
          end
      end
  end.

Fixpoint run (evs : list Event) (s : QueuedRateLimiter * list (string * Z))
  : QueuedRateLimiter * list (string * Z) :=
  match evs with
  | [] => s
  | e :: evs' => run evs' (step e s)
  end.

(** The ids submitted by a sequence of events, in submission order. *)
Fixpoint submitted (evs : list Event) : list string :=
  match evs with
  | [] => []
  | Schedule id :: evs' => id :: submitted evs'
  | Tick _ _ :: evs' => submitted evs'
  end.

(** Within one tick the second clock reading is not before the first. *)
Definition clock_ok (e : Event) : Prop :=
  match e with
  | Schedule _ => True
  | Tick now now' => now <= now'
  end.

(** Consecutive times are at least [d] apart. *)
Fixpoint spaced (d : Z) (ts : list Z) : Prop :=
  match ts with
  | a :: (b :: _) as tl => d <= b - a /\ spaced d tl
  | _ => True
  end.

(** The guarantee in the words of the specification: consecutive times are
    at least 60000/rpm apart, the quotient taken exactly. *)
Fixpoint spaced_spec (rpm : Z) (ts : list Z) : Prop :=
  match ts with
  | a :: (b :: _) as tl => 60000 <= (b - a) * rpm /\ spaced_spec rpm tl
  | _ => True
  end.

(** ** The module-level singleton *)

(** The module state: the limiters constructed so far (a reference is a
    position in [heap]) and the [singleton] variable. *)
Record ModuleState := {
  heap : list QueuedRateLimiter;
  singleton : option nat }.

Definition initial : ModuleState := {| heap := []; singleton := None |}.

Definition getRateLimiter (options : option RateLimiterOptions) (envRPM : option Z)
  (m : ModuleState) : nat * ModuleState :=
  match singleton m with
  | Some r => (r, m)
  | None =>
      let r := length (heap m) in
      (r, {| heap := heap m ++ [constructor options envRPM]; singleton := Some r |})
  end.

(** Activity of the engine as far as limiters are concerned: a call of
    [getRateLimiter] (with the environment as it is at that moment), or an
    event on the limiter behind a reference. *)
Inductive Action :=
| Get (options : option RateLimiterOptions) (envRPM : option Z)
| On (r : nat) (e : Event).

(** Runs the actions; returns the references handed out by the [Get]s, in
    order, and the final module state. *)
Fixpoint perform (acts : list Action) (m : ModuleState) : list nat * ModuleState :=
  match acts with
  | [] => ([], m)
  | Get o env :: acts' =>
      let (r, m1) := getRateLimiter o env m in
      let (rs, m2) := perform acts' m1 in
      (r :: rs, m2)
  | On r e :: acts' =>
      perform acts'
        {| heap := alter (fun l => fst (step e (l, []))) r (heap m);
           singleton := singleton m |}
  end.

(** ** Facts about one limiter *)

Lemma step_config e l log :
  requestsPerMinute (fst (step e (l, log))) = requestsPerMinute l
  /\ intervalMs (fst (step e (l, log))) = intervalMs l.
Proof.
  destruct e as [id | now now']; simpl.
  - unfold schedule, start; simpl. destruct (isRunning l); auto.
  - destruct (timer l); simpl; auto.
    unfold tick. destruct (queue l); simpl; auto.
    destruct (lastRunAt l) as [t|]; simpl; auto.
    destruct (now - t <? intervalMs l); simpl; auto.
Qed.

Lemma spaced_snoc d ts t :
  spaced d ts ->
  (forall t0, last ts = Some t0 -> d <= t - t0) ->
  spaced d (ts ++ [t]).
Proof.
  induction ts as [| a [| b ts'] IH]; intros Hs Hl.
  - exact I.
  - simpl. split; [|exact I]. apply Hl. reflexivity.
  - destruct Hs as [Hab Hs]. split; [exact Hab|].
    apply IH; [exact Hs|]. intros t0 Ht0. apply Hl. exact Ht0.
Qed.

(** The invariant of a run: the log is spaced by the interval, and
    [lastRunAt] is the time of the last dispatch. *)
Definition inv (s : QueuedRateLimiter * list (string * Z)) : Prop :=
  spaced (intervalMs (fst s)) (map snd (snd s))
  /\ lastRunAt (fst s) = last (map snd (snd s)).

Lemma step_inv e s : clock_ok e -> inv s -> inv (step e s).
Proof.
  destruct s as [l log]. unfold inv. intros Hc [Hsp Hlast]. simpl in *.
  destruct e as [id | now now']; simpl.
  - unfold schedule, start; simpl. destruct (isRunning l); simpl; auto.
  - destruct (timer l); simpl; auto.
    unfold tick. destruct (queue l) as [| next rest]; simpl; auto.
    destruct (lastRunAt l) as [t|] eqn:Hl; simpl.
    + destruct (now - t <? intervalMs l) eqn:Hlt; simpl; [rewrite Hl; auto|].
      rewrite map_app. cbn [map snd]. rewrite last_snoc. split; [|reflexivity].
      apply spaced_snoc; [exact Hsp|].
      intros t0 Ht0. rewrite <- Hlast in Ht0. inversion Ht0; subst.
      apply Z.ltb_ge in Hlt. simpl in Hc. lia.
    + rewrite map_app. cbn [map snd]. rewrite last_snoc. split; [|reflexivity].
      apply spaced_snoc; [exact Hsp|].
      intros t0 Ht0. rewrite <- Hlast in Ht0. discriminate.
Qed.

Lemma run_inv evs : forall s, Forall clock_ok evs -> inv s -> inv (run evs s).
Proof.
  induction evs as [| e evs IH]; intros s Hc Hi; simpl; [exact Hi|].
  inversion Hc; subst. apply IH; [assumption|]. apply step_inv; assumption.
Qed.

Lemma step_fifo e l log :
  let s' := step e (l, log) in
  map fst (snd s') ++ queue (fst s')
  = (map fst log ++ queue l) ++ submitted [e].
Proof.
  destruct e as [id | now now']; simpl.
  - unfold schedule, start; simpl.
    destruct (isRunning l); simpl; rewrite app_assoc; reflexivity.
  - rewrite app_nil_r. destruct (timer l); simpl; auto.
    unfold tick. destruct (queue l) as [| next rest] eqn:Hq; simpl.
    + rewrite Hq. reflexivity.
    + destruct (match lastRunAt l with
                | Some t => now - t <? intervalMs l
                | None => false
                end); simpl.
      * rewrite Hq. reflexivity.
      * rewrite map_app. simpl. rewrite <- app_assoc. reflexivity.
Qed.

Lemma submitted_cons e evs : submitted (e :: evs) = submitted [e] ++ submitted evs.
Proof. destruct e; simpl; reflexivity. Qed.

Lemma run_fifo evs : forall l log,
  let s' := run evs (l, log) in
  map fst (snd s') ++ queue (fst s')
  = (map fst log ++ queue l) ++ submitted evs.
Proof.
  induction evs as [| e evs IH]; intros l log.
  - cbn [run submitted fst snd]. rewrite app_nil_r. reflexivity.
  - cbn [run]. pose proof (step_fifo e l log) as Hf.
    destruct (step e (l, log)) as [l1 log1]. cbn [fst snd] in Hf.
    cbv zeta. cbv zeta in IH. rewrite IH, Hf, (submitted_cons e evs), app_assoc.
    reflexivity.
Qed.

Lemma run_config evs : forall s,
  requestsPerMinute (fst (run evs s)) = requestsPerMinute (fst s)
  /\ intervalMs (fst (run evs s)) = intervalMs (fst s).
Proof.
  induction evs as [| e evs IH]; intros [l log]; cbn [run]; [auto|].
  destruct (IH (step e (l, log))) as [H1 H2].
  destruct (step_config e l log) as [H3 H4].
  rewrite H1, H2, H3, H4. auto.
Qed.

(** ** Facts about the singleton *)

(** Once the singleton is set, every later [Get] returns it, no further
    limiter is constructed, and its configuration stays as constructed. *)
Lemma perform_singleton acts : forall m l rpm,
  singleton m = Some 0%nat ->
  heap m = [l] ->
  requestsPerMinute l = rpm ->
  intervalMs l = 60000 / rpm ->
  Forall (eq 0%nat) (fst (perform acts m))
  /\ singleton (snd (perform acts m)) = Some 0%nat
  /\ exists l', heap (snd (perform acts m)) = [l']
       /\ requestsPerMinute l' = rpm
       /\ intervalMs l' = 60000 / rpm.
Proof.
  induction acts as [| a acts IH]; intros m l rpm Hs Hh Hr Hi.
  - cbn. split; [constructor|]. split; [exact Hs|]. exists l. auto.
  - destruct a as [o env | r e]; cbn [perform].
    + unfold getRateLimiter. rewrite Hs.
      destruct (perform acts m) as [rs m2] eqn:Hp.
      destruct (IH m l rpm Hs Hh Hr Hi) as (Hall & Hs2 & Hl2).
      rewrite Hp in Hall, Hs2, Hl2. cbn [fst snd] in *.
      split; [constructor; [reflexivity|exact Hall]|]. split; assumption.
    + rewrite Hh. destruct (step_config e l []) as [Hc1 Hc2].
      destruct r as [| r].
      * apply (IH _ (fst (step e (l, []))) rpm);
          [exact Hs | reflexivity | congruence | congruence].
      * apply (IH _ l rpm); [exact Hs | reflexivity | exact Hr | exact Hi].
Qed.

(** C3 (as amended). For every limiter as constructed and every sequence
    of schedule calls and interval ticks (the second clock reading of a tick
    not before its first), consecutive dispatch times are at least
    floor(60000/requestsPerMinute) milliseconds apart, and the tasks
    dispatched so far followed by the tasks still queued are exactly the
    submitted tasks in submission order. *)
Theorem dispatch_spacing_and_fifo :
  forall options envRPM evs,
    Forall clock_ok evs ->
    let l0 := constructor options envRPM in
    let s := run evs (l0, []) in
    spaced (60000 / requestsPerMinute l0) (map snd (snd s))
    /\ map fst (snd s) ++ queue (fst s) = submitted evs.
Proof.
  intros options envRPM evs Hc l0 s. split.
  - assert (Hi : inv s).
    { apply run_inv; [exact Hc|]. split; cbn; [exact I|reflexivity]. }
    destruct Hi as [Hsp _]. subst s.
    destruct (run_config evs (l0, [])) as [_ Hint].
    rewrite Hint in Hsp. exact Hsp.
  - subst s. rewrite (run_fifo evs l0 []). reflexivity.
Qed.

Lemma dispatch_spacing_and_fifo_witness :
  let evs := [Schedule "a"; Schedule "b"; Tick 250 250; Tick 500 501;
              Tick 3250 3250; Tick 3500 3500] in
  let s := run evs (constructor None None, []) in
  Forall clock_ok evs
  /\ snd s = [("a", 250); ("b", 3250)]
  /\ spaced 3000 (map snd (snd s))
  /\ map fst (snd s) ++ queue (fst s) = ["a"; "b"].
Proof.
  assert (Hc : Forall clock_ok
                 [Schedule "a"; Schedule "b"; Tick 250 250; Tick 500 501;
                  Tick 3250 3250; Tick 3500 3500]).
  { repeat constructor; cbn; lia. }
  split; [exact Hc|]. split; [reflexivity|].
  exact (dispatch_spacing_and_fifo None None _ Hc).
Defined.

(** C3 (as stated) fails: at 7 requests per minute the interval is
    floor(60000/7) = 8571 ms, and two dispatches exactly 8571 ms apart are
    closer than 60000/7 ms. *)
Lemma dispatch_spacing_exact_counterexample :
  let l0 := constructor (Some {| opt_requestsPerMinute := Some 7; opt_name := None |}) None in
  let evs := [Schedule "a"; Schedule "b"; Tick 2857 2857; Tick 5714 5714;
              Tick 8571 8571; Tick 11428 11428] in
  let s := run evs (l0, []) in
  Forall clock_ok evs
  /\ timer (schedule "a" l0) = Some 2857
  /\ snd s = [("a", 2857); ("b", 11428)]
  /\ ~ spaced_spec (requestsPerMinute l0) (map snd (snd s)).
Proof.
  cbv zeta. split; [repeat constructor; cbn; lia|].
  split; [reflexivity|]. split; [reflexivity|].
  intros [H _]. vm_compute in H. apply H. reflexivity.
Qed.

(** The default of [requestsPerMinute] in the words of the specification:
    the first caller's option, defaulting to 20. *)
Definition configuredRPM_spec (options : option RateLimiterOptions) : Z :=
  match options ≫= opt_requestsPerMinute with
  | Some r => r
  | None => 20
  end.

(** C10 (as amended). Starting from a fresh module, after a first call
    [getRateLimiter(o0)] and any further calls and limiter activity, every
    call has returned the same instance, only that one limiter exists, and
    its requestsPerMinute is max(1, r) where r is the first caller's
    requestsPerMinute option, else the RPM environment variable when set,
    else 20; its interval is floor(60000/requestsPerMinute). *)
Theorem getRateLimiter_singleton :
  forall o0 env0 acts,
    let res := perform (Get o0 env0 :: acts) initial in
    Forall (eq 0%nat) (fst res)
    /\ singleton (snd res) = Some 0%nat
    /\ exists l, heap (snd res) = [l]
         /\ requestsPerMinute l = Z.max 1 (configuredRPM o0 env0)
         /\ intervalMs l = 60000 / Z.max 1 (configuredRPM o0 env0).
Proof.
  intros o0 env0 acts. cbn [perform]. unfold getRateLimiter, initial.
  cbn [singleton heap length app].
  pose proof (perform_singleton acts
                {| heap := [constructor o0 env0]; singleton := Some 0%nat |}
                (constructor o0 env0) (Z.max 1 (configuredRPM o0 env0))
                eq_refl eq_refl eq_refl eq_refl) as H.
  destruct (perform acts _) as [rs m2]. cbn [fst snd] in *.
  destruct H as (Hall & Hs & Hl).
  split; [constructor; [reflexivity|exact Hall]|]. split; assumption.
Qed.

(** C10 (as stated) fails on the default: with RPM=60 in the environment,
    the plan generator's first call [getRateLimiter({ name: 'planning' })]
    builds a limiter of 60 requests per minute, not 20. *)
Lemma getRateLimiter_default_counterexample :
  let o0 := Some {| opt_requestsPerMinute := None; opt_name := Some "planning" |} in
  let res := perform [Get o0 (Some 60); Get o0 (Some 60)] initial in
  fst res = [0%nat; 0%nat]
  /\ (requestsPerMinute <$> heap (snd res)) = [60]
  /\ Z.max 1 (configuredRPM_spec o0) = 20
  /\ (requestsPerMinute <$> heap (snd res)) <> [Z.max 1 (configuredRPM_spec o0)].
Proof.
  cbv zeta. split; [reflexivity|]. split; [reflexivity|]. split; [reflexivity|].
  cbn. discriminate.
Qed.

(* --------------------------------------------------------------------- *)
(** ** Further properties of the limiter *)
(* --------------------------------------------------------------------- *)

(** The timer is set exactly while the limiter is running, with the period
    [start] gives it, and a limiter holding queued tasks is running. *)
Definition timer_ok (l : QueuedRateLimiter) : Prop :=
  (timer l = if isRunning l then Some (Z.max 250 (intervalMs l / 3)) else None)
  /\ (queue l <> [] -> isRunning l = true).

Lemma step_timer_ok e l log : timer_ok l -> timer_ok (fst (step e (l, log))).
Proof.
  unfold timer_ok. intros [Ht Hq]. destruct e as [id | now now']; cbn.
  - unfold schedule, start; cbn. destruct (isRunning l) eqn:Hr; cbn; rewrite ?Hr; auto.
  - destruct (timer l) as [p |] eqn:Hp; cbn;
      [|split; [rewrite Hp; exact Ht | exact Hq]].
    unfold tick. destruct (queue l) as [| next rest] eqn:Hqu; cbn.
    + rewrite Hqu. split; [reflexivity | congruence].
    + assert (Hrun : isRunning l = true) by (apply Hq; discriminate).
      destruct (match lastRunAt l with
                | Some t => now - t <? intervalMs l
                | None => false
                end); cbn; rewrite ?Hqu; (split; [rewrite Hp; exact Ht | auto]).
Qed.

Lemma run_timer_ok evs : forall s, timer_ok (fst s) -> timer_ok (fst (run evs s)).
Proof.
  induction evs as [| e evs IH]; intros [l log] H; cbn [run]; [exact H|].
  apply IH. destruct (step e (l, log)) as [l1 log1] eqn:Hs.
  pose proof (step_timer_ok e l log H) as H1. rewrite Hs in H1. exact H1.
Qed.

(** X5. Whatever is scheduled and whenever the interval fires, the limiter
    built by the constructor has its timer set exactly while it is running,
    the period is max(250, floor(intervalMs/3)) and lies between 250 and
    20000 ms, and a limiter with queued tasks is always running: no task
    waits in a stopped limiter. *)
Theorem limiter_timer_invariant :
  forall options envRPM evs,
    let l := fst (run evs (constructor options envRPM, [])) in
    (isRunning l = true <-> timer l <> None)
    /\ (forall period, timer l = Some period ->
          period = Z.max 250 (intervalMs l / 3) /\ 250 <= period <= 20000)
    /\ (queue l <> [] -> isRunning l = true /\ timer l <> None).
Proof.
  intros options envRPM evs l.
  assert (H : timer_ok l).
  { apply run_timer_ok. split; cbn; [reflexivity | congruence]. }
  destruct H as [Ht Hq].
  assert (Hint : 0 <= intervalMs l <= 60000).
  { subst l. destruct (run_config evs (constructor options envRPM, [])) as [_ Hi].
    rewrite Hi. cbn. split.
    - apply Z.div_pos; lia.
    - apply Z.div_le_upper_bound; lia. }
  split; [|split].
  - rewrite Ht. destruct (isRunning l); split; congruence.
  - intros period Hp. rewrite Ht in Hp. destruct (isRunning l); [|discriminate].
    inversion Hp. split; [reflexivity|].
    assert (intervalMs l / 3 <= 20000) by (apply Z.div_le_upper_bound; lia). lia.
  - intros Hne. specialize (Hq Hne). split; [exact Hq|]. rewrite Ht, Hq. discriminate.
Qed.

(** The number of interval ticks among the events. *)
Fixpoint ticks (evs : list Event) : nat :=
  match evs with
  | [] => 0
  | Schedule _ :: evs' => ticks evs'
  | Tick _ _ :: evs' => S (ticks evs')
  end.

Lemma step_one_dispatch e l log :
  (length (snd (step e (l, log))) <= length log + ticks [e])%nat.
Proof.
  destruct e as [id | now now']; cbn; [lia|].
  destruct (timer l); cbn; [|lia].
  destruct (tick now now' l) as [l' [d |]]; cbn; [rewrite length_app; cbn|]; lia.
Qed.

Lemma run_one_dispatch evs : forall l log,
  (length (snd (run evs (l, log))) <= length log + ticks evs)%nat.
Proof.
  induction evs as [| e evs IH]; intros l log; cbn [run]; [cbn; lia|].
  pose proof (step_one_dispatch e l log) as H1.
  destruct (step e (l, log)) as [l1 log1]. cbn [snd] in H1.
  specialize (IH l1 log1). destruct e; cbn [ticks] in *; lia.
Qed.

(** X6. A tick dispatches at most one task: after any sequence of events the
    number of dispatched tasks is at most the number of ticks and at most
    the number of submitted tasks, also when the interval is 0. *)
Theorem dispatches_bounded_by_ticks :
  forall options envRPM evs,
    let s := run evs (constructor options envRPM, []) in
    (length (snd s) <= ticks evs)%nat
    /\ (length (snd s) <= length (submitted evs))%nat.
Proof.
  intros options envRPM evs s. split.
  - subst s. pose proof (run_one_dispatch evs (constructor options envRPM) []) as H.
    cbn in H. exact H.
  - pose proof (run_fifo evs (constructor options envRPM) []) as H.
    cbn zeta in H. fold s in H. cbn [map app queue constructor] in H.
    apply (f_equal length) in H. rewrite length_app, length_map in H. lia.
Qed.

Lemma run_app evs1 : forall evs2 s, run (evs1 ++ evs2) s = run evs2 (run evs1 s).
Proof. induction evs1 as [| e evs1 IH]; intros evs2 s; cbn; [reflexivity | apply IH]. Qed.

Lemma schedule_fields id l :
  queue (schedule id l) = queue l ++ [id]
  /\ lastRunAt (schedule id l) = lastRunAt l
  /\ intervalMs (schedule id l) = intervalMs l.
Proof. unfold schedule, start; cbn. destruct (isRunning l); cbn; auto. Qed.

Lemma run_schedules ids : forall l log,
  timer_ok l ->
  let s := run (Schedule <$> ids) (l, log) in
  snd s = log
  /\ queue (fst s) = queue l ++ ids
  /\ lastRunAt (fst s) = lastRunAt l
  /\ intervalMs (fst s) = intervalMs l
  /\ timer_ok (fst s).
Proof.
  induction ids as [| id ids IH]; intros l log Hok.
  - cbn. rewrite app_nil_r. auto.
  - cbn [fmap list_fmap run step].
    destruct (IH (schedule id l) log) as (H1 & H2 & H3 & H4 & H5).
    { exact (step_timer_ok (Schedule id) l log Hok). }
    destruct (schedule_fields id l) as (F1 & F2 & F3).
    cbv zeta in *. rewrite H1, H2, H3, H4, F1, F2, F3, <- app_assoc.
    repeat split; try reflexivity; apply H5.
Qed.

Lemma run_spaced_ticks times : forall ids l log,
  length times = length ids ->
  timer l <> None ->
  queue l = ids ->
  spaced (intervalMs l) times ->
  (forall t0 t, lastRunAt l = Some t0 -> head times = Some t -> intervalMs l <= t - t0) ->
  let s := run ((fun t => Tick t t) <$> times) (l, log) in
  snd s = log ++ zip ids times /\ queue (fst s) = [].
Proof.
  induction times as [| t times IH]; intros ids l log Hlen Htimer Hq Hsp Hfirst.
  - destruct ids; [|discriminate]. cbn. rewrite app_nil_r. auto.
  - destruct ids as [| id ids]; [discriminate|]. cbn in Hlen. injection Hlen as Hlen.
    cbn [fmap list_fmap run step].
    destruct (timer l) as [p |] eqn:Hp; [|congruence].
    unfold tick. rewrite Hq.
    assert (Hgo : match lastRunAt l with
                  | Some t0 => t - t0 <? intervalMs l
                  | None => false
                  end = false).
    { destruct (lastRunAt l) as [t0 |] eqn:Hl; [|reflexivity].
      apply Z.ltb_ge. apply (Hfirst t0 t); reflexivity. }
    rewrite Hgo.
    match goal with
    | |- context [run _ (?l1, ?log1)] =>
        destruct (IH ids l1 log1) as [H1 H2]
    end; cbn; try assumption; try congruence.
    + destruct times as [| t' times]; [exact I|]. destruct Hsp as [_ Hsp]. exact Hsp.
    + intros t0 t' Ht0 Ht'. inversion Ht0; subst t0.
      destruct times as [| t'' times]; [discriminate|]. cbn in Ht'. inversion Ht'; subst.
      destruct Hsp as [Hsp _]. exact Hsp.
    + cbn in H1, H2. rewrite H1, H2, <- app_assoc. auto.
Qed.

(** X7. No starvation: when tasks have been scheduled and the interval then
    fires at times that are at least intervalMs apart, every tick dispatches
    the task at the head of the queue; after as many ticks as tasks, all
    tasks have been dispatched, in submission order, at the times of those
    ticks, and the queue is empty. *)
Theorem spaced_ticks_dispatch_all :
  forall options envRPM (ids : list string) (times : list Z),
    length times = length ids ->
    spaced (intervalMs (constructor options envRPM)) times ->
    let evs := (Schedule <$> ids) ++ ((fun t => Tick t t) <$> times) in
    let s := run evs (constructor options envRPM, []) in
    snd s = zip ids times /\ queue (fst s) = [].
Proof.
  intros options envRPM ids times Hlen Hsp evs s. subst s evs. rewrite run_app.
  destruct ids as [| id ids].
  - destruct times; [|discriminate]. cbn. auto.
  - destruct (run_schedules (id :: ids) (constructor options envRPM) [])
      as (H1 & H2 & H3 & H4 & H5 & H6).
    { split; cbn; [reflexivity | congruence]. }
    destruct (run (Schedule <$> id :: ids) (constructor options envRPM, []))
      as [l log] eqn:Hrun.
    cbn [fst snd] in H1, H2, H3, H4, H5, H6. subst log.
    apply (run_spaced_ticks times (id :: ids) l []); try assumption.
    + rewrite H5, H6; [discriminate | rewrite H2; discriminate].
    + rewrite H4. exact Hsp.
    + intros t0 t Ht0. rewrite H3 in Ht0. discriminate.
Qed.

Lemma spaced_ticks_dispatch_all_witness :
  let ids := ["a"; "b"; "c"] in
  let times := [250; 3250; 6500] in
  let s := run ((Schedule <$> ids) ++ ((fun t => Tick t t) <$> times))
             (constructor None None, []) in
  length times = length ids
  /\ spaced (intervalMs (constructor None None)) times
  /\ snd s = [("a", 250); ("b", 3250); ("c", 6500)]
  /\ queue (fst s) = [].
Proof.
  cbv zeta.
  assert (Hsp : spaced (intervalMs (constructor None None)) [250; 3250; 6500])
    by (change (intervalMs (constructor None None)) with 3000; cbn [spaced]; lia).
  split; [reflexivity|]. split; [exact Hsp|].
  exact (spaced_ticks_dispatch_all None None ["a"; "b"; "c"] [250; 3250; 6500]
           eq_refl Hsp).
Defined.

End RateLimiter.

(* ===================================================================== *)
(** * Retry: the backoff wrapper of the plan generator *)
(* ===================================================================== *)

Module Retry.

(** A JavaScript value found in [err.status] or [err.code]. *)
Inductive JsVal :=
| JNum (n : Z)
| JStr (s : string).

(** What the wrapper and its callers read from a caught error.
    [retryAfter] is the numeric value (seconds) of the 'retry-after' header
    found on [err.headers] or [err.response.headers]; [toString] is what
    [err.toString()] returns. *)
Record ApiError := {
  status : option JsVal;
  code : option JsVal;
  message : option string;
  toString : string;
  retryAfter : option Z }.

Record RetryOptions := {
  opt_retries : option Z;
  opt_baseDelayMs : option Z;
  opt_maxDelayMs : option Z }.

(** A completed call: a value, or a thrown error ([None] is [undefined],
    the initial value of [lastErr]). *)
Inductive Outcome (T : Type) :=
| Returned (v : T)
| Thrown (e : option ApiError).
Arguments Returned {T} v.
Arguments Thrown {T} e.

(** The wrapper's observable behaviour: how the call ended, the delays
    passed to [setTimeout] (oldest first) and how often [fn] was called. *)
Record Run (T : Type) := {
  outcome : Outcome T;
  delays : list Z;
  calls : nat }.
Arguments outcome {T} r.
Arguments delays {T} r.
Arguments calls {T} r.

Definition truthy (v : option JsVal) : bool :=
  match v with
  | Some (JNum n) => negb (n =? 0)
  | Some (JStr s) => negb (String.eqb s "")
  | None => false
  end.

(** [a || b] *)
Definition js_or (a b : option JsVal) : option JsVal :=
  if truthy a then a else b.

(** [v === 429] *)
Definition is_429 (v : option JsVal) : bool :=
  match v with
  | Some (JNum n) => n =? 429
  | _ => false
  end.

(** [hay.includes(needle)], the meaning of [/429/.test(hay)] for the
    literal pattern. *)
Fixpoint includes (needle hay : string) : bool :=
  if String.prefix needle hay then true
  else match hay with
       | EmptyString => false
       | String _ rest => includes needle rest
       end.

(** [status === 429 || /429/.test(String(err?.message ?? ''))] with
    [status = err?.status || err?.code]. *)
Definition isRateLimit (err : ApiError) : bool :=
  is_429 (js_or (status err) (code err))
  || includes "429" (default "" (message err)).

Section WithRateLimitRetry.

Context {T : Type}.

(** [fn k] is how the [k]-th invocation of the wrapped call ends
    (counting from 0); [jitter k] is the value of
    [Math.floor(Math.random() * 250)] drawn after the [k]-th failure. *)
Variable fn : nat -> T + ApiError.
Variable jitter : nat -> Z.
Variable options : option RetryOptions.

Definition retries : Z := default 5 (options ≫= opt_retries).
Definition baseDelayMs : Z := default 500 (options ≫= opt_baseDelayMs).
Definition maxDelayMs : Z := default 8000 (options ≫= opt_maxDelayMs).

(** The delay computed in the [catch] block at attempt [attempt]. *)
Definition retryDelay (attempt : nat) (err : ApiError) : Z :=
  let delay :=
    match retryAfter err with
    | Some seconds => seconds * 1000
    | None => Z.min maxDelayMs (baseDelayMs * 2 ^ Z.of_nat attempt)
    end in
  Z.min maxDelayMs (delay + jitter attempt).

(** The [while (attempt <= retries)] loop; [fuel] bounds the number of
    iterations. *)
Fixpoint attempts (fuel : nat) (attempt : nat) (lastErr : option ApiError)
  (waited : list Z) : Run T :=
  match fuel with
  | O => {| outcome := Thrown lastErr; delays := waited; calls := attempt |}
  | S fuel' =>
      if Z.of_nat attempt <=? retries then
        match fn attempt with
        | inl v => {| outcome := Returned v; delays := waited; calls := S attempt |}
        | inr err =>
            if negb (isRateLimit err) || (Z.of_nat attempt =? retries)
            then {| outcome := Thrown (Some err); delays := waited; calls := S attempt |}
            else attempts fuel' (S attempt) (Some err)
                   (waited ++ [retryDelay attempt err])
        end
      else {| outcome := Thrown lastErr; delays := waited; calls := attempt |}
  end.

(** [retries + 1] iterations exhaust the loop condition. *)
Definition withRateLimitRetry : Run T :=
  attempts (Z.to_nat (retries + 1)) 0 None [].

End WithRateLimitRetry.

(** ** The callers of the wrapper *)

(** An [Error] object created by the plan generator, by its message. *)
Inductive PlanOutcome (T : Type) :=
| PlanReturned (v : T)
| PlanThrown (errorMessage : string).
Arguments PlanReturned {T} v.
Arguments PlanThrown {T} errorMessage.

Definition nl : string := String (Ascii.ascii_of_nat 10) "".

(** The remediation text thrown by [generatePlan] on a 429. *)
Definition help : string :=
  String.concat ""
    [ nl; nl; "❌ You have hit the OpenAI (or provider) rate limit (429 Too Many Requests)."; nl;
      "- Wait a few minutes and try again."; nl;
      "- Check your usage/quota at https://platform.openai.com/account/usage ."; nl;
      "- Consider using a different API key or provider."; nl;
      "- Reduce request frequency if automating."; nl ].

(** [errMsg] in the [catch] block of [generatePlan]. *)
Definition errMsg (error : option ApiError) : string :=
  match error with
  | Some e =>
      match message e with
      | Some m => if String.eqb m "" then toString e else m
      | None => toString e
      end
  | None => "undefined"
  end.

(** The test of the [catch] block of [generatePlan]:
    [code === '429' || status === 429 || /429/.test(errMsg)]. *)
Definition planSees429 (error : option ApiError) : bool :=
  match error with
  | Some e =>
      match code e with Some (JStr s) => String.eqb s "429" | _ => false end
      || is_429 (status e)
  | None => false
  end
  || includes "429" (errMsg error).

(** [generatePlan], from the wrapped call on: the stream is handed on, a
    failure is rethrown as a new [Error]. *)
Definition generatePlan {T} (fn : nat -> T + ApiError) (jitter : nat -> Z)
  : PlanOutcome T :=
  match outcome (withRateLimitRetry fn jitter None) with
  | Returned stream => PlanReturned stream
  | Thrown error =>
      if planSees429 error then PlanThrown help
      else PlanThrown ("Plan generation failed: " +:+ errMsg error)
  end.

(** [generatePlanSummary]: the wrapped call yields the content of the first
    choice, if any; every failure is answered with the fallback text. *)
Definition generatePlanSummary (fn : nat -> option string + ApiError)
  (jitter : nat -> Z) : PlanOutcome string :=
  match outcome (withRateLimitRetry fn jitter None) with
  | Returned content =>
      match content with
      | Some c => if String.eqb c "" then PlanReturned "Summary generation failed"
                  else PlanReturned c
      | None => PlanReturned "Summary generation failed"
      end
  | Thrown _ => PlanReturned "Summary generation failed"
  end.

(** ** Facts *)

Section WithRateLimitRetryFacts.

Context {T : Type}.
Variable fn : nat -> T + ApiError.
Variable jitter : nat -> Z.
Variable options : option RetryOptions.

Local Abbreviation retries := (retries options).
Local Abbreviation maxDelayMs := (maxDelayMs options).
Local Abbreviation baseDelayMs := (baseDelayMs options).

(** The delay waited after attempt [k], when that attempt failed. *)
Definition delayAfter (k : nat) : Z :=
  match fn k with
  | inr e => retryDelay jitter options k e
  | inl _ => 0
  end.

Lemma attempts_spec fuel : forall attempt lastErr waited,
  Z.of_nat attempt + Z.of_nat fuel = retries + 1 ->
  (0 < fuel)%nat ->
  let r := attempts fn jitter options fuel attempt lastErr waited in
  exists n,
    (attempt <= n)%nat
    /\ calls r = S n
    /\ Z.of_nat n <= retries
    /\ delays r = waited ++ (delayAfter <$> seq attempt (n - attempt))
    /\ (forall k, (attempt <= k < n)%nat ->
          exists e, fn k = inr e /\ isRateLimit e = true)
    /\ outcome r = match fn n with
                   | inl v => Returned v
                   | inr e => Thrown (Some e)
                   end
    /\ (forall e, fn n = inr e -> isRateLimit e = false \/ Z.of_nat n = retries).
Proof.
  induction fuel as [| fuel IH]; intros attempt lastErr waited Hfuel Hpos; [lia|].
  cbn [attempts].
  assert (Hle : (Z.of_nat attempt <=? retries) = true) by (apply Z.leb_le; lia).
  rewrite Hle.
  destruct (fn attempt) as [v | err] eqn:Hfn.
  - exists attempt. cbn. rewrite Hfn, Nat.sub_diag. cbn. rewrite app_nil_r.
    repeat split; try lia; try reflexivity. intros e He. discriminate.
  - destruct (negb (isRateLimit err) || (Z.of_nat attempt =? retries)) eqn:Hstop.
    + exists attempt. cbn. rewrite Hfn, Nat.sub_diag. cbn. rewrite app_nil_r.
      repeat split; try lia; try reflexivity.
      intros e He. inversion He; subst e.
      apply orb_true_iff in Hstop as [Hn | Hr].
      * left. apply negb_true_iff in Hn. exact Hn.
      * right. apply Z.eqb_eq in Hr. exact Hr.
    + apply orb_false_iff in Hstop as [Hn Hr].
      apply negb_false_iff in Hn. apply Z.eqb_neq in Hr.
      destruct (IH (S attempt) (Some err) (waited ++ [retryDelay jitter options attempt err]))
        as (n & Hn1 & Hn2 & Hn3 & Hn4 & Hn5 & Hn6 & Hn7); [lia | lia |].
      exists n. repeat split; try assumption; try lia.
      * rewrite Hn4. replace (n - attempt)%nat with (S (n - S attempt)) by lia.
        cbn [seq fmap list_fmap]. unfold delayAfter at 2. rewrite Hfn.
        rewrite <- app_assoc. reflexivity.
      * intros k Hk. destruct (decide (k = attempt)) as [-> | Hne].
        -- exists err. split; assumption.
        -- apply Hn5. lia.
Qed.

Lemma retryDelay_capped k e : retryDelay jitter options k e <= maxDelayMs.
Proof. unfold retryDelay. lia. Qed.

Lemma retryDelay_backoff k e :
  retryAfter e = None ->
  retryDelay jitter options k e
  = Z.min maxDelayMs (Z.min maxDelayMs (baseDelayMs * 2 ^ Z.of_nat k) + jitter k).
Proof. intros H. unfold retryDelay. rewrite H. reflexivity. Qed.

Lemma retryDelay_hint k e seconds :
  retryAfter e = Some seconds ->
  seconds * 1000 + jitter k <= maxDelayMs ->
  retryDelay jitter options k e = seconds * 1000 + jitter k.
Proof. intros H Hle. unfold retryDelay. rewrite H. lia. Qed.

End WithRateLimitRetryFacts.

Lemma includes_prefix needle hay : String.prefix needle hay = true -> includes needle hay = true.
Proof. intros H. destruct hay; cbn [includes]; rewrite H; reflexivity. Qed.

(** An error whose [status] is the number 429 is a throttling error for the
    wrapper and for the [catch] block of [generatePlan] alike. *)
Lemma status_429_seen e :
  status e = Some (JNum 429) -> isRateLimit e = true /\ planSees429 (Some e) = true.
Proof.
  intros H. unfold isRateLimit, planSees429, js_or. rewrite H. cbn.
  split; [reflexivity|]. rewrite orb_true_r. reflexivity.
Qed.

(** A caller surfaces an error, in the words of the specification, when
    its call ends by throwing. *)
Definition surfaces_error {T} (o : PlanOutcome T) : Prop :=
  exists errorMessage, o = PlanThrown errorMessage.

(** The provider's 429 as the OpenAI client reports it. *)
Definition tooManyRequests : ApiError :=
  {| status := Some (JNum 429);
     code := Some (JStr "rate_limit_exceeded");
     message := Some "429 Too Many Requests";
     toString := "Error: 429 Too Many Requests";
     retryAfter := None |}.

(** ** The two tests, in the words of the amended claim *)

(** [hay] contains the text [needle]. *)
Definition contains (needle hay : string) : Prop :=
  exists pre post, hay = pre +:+ needle +:+ post.

(** A throttling error for the wrapper: the error's status, or its code
    when the status is missing or falsy (0 or the empty string), is the
    number 429, or the error's message contains the text 429. *)
Definition throttling (e : ApiError) : Prop :=
  status e = Some (JNum 429)
  \/ (truthy (status e) = false /\ code e = Some (JNum 429))
  \/ contains "429" (default "" (message e)).

(** A 429 for the [catch] block of [generatePlan]: the error's code is the
    string '429', or its status is the number 429, or its message text
    (the message, or the string form of the error when the message is
    missing or empty) contains the text 429. *)
Definition guidance429 (error : option ApiError) : Prop :=
  (exists e, error = Some e
             /\ (code e = Some (JStr "429") \/ status e = Some (JNum 429)))
  \/ contains "429" (errMsg error).

Lemma prefix_append needle : forall hay,
  String.prefix needle hay = true <-> exists post, hay = needle +:+ post.
Proof.
  induction needle as [| a needle IH]; intros hay.
  - split; [intros _; exists hay; reflexivity | intros _; destruct hay; reflexivity].
  - destruct hay as [| b hay]; cbn [String.prefix].
    + split; [discriminate | intros [post H]; discriminate H].
    + destruct (Ascii.ascii_dec a b) as [-> | Hne].
      * rewrite IH. split.
        -- intros [post ->]. exists post. reflexivity.
        -- intros [post H]. exists post.
           change (String b needle +:+ post) with (String b (needle +:+ post)) in H.
           injection H as H. exact H.
      * split; [discriminate|]. intros [post H].
        change (String a needle +:+ post) with (String a (needle +:+ post)) in H.
        injection H as H1 _. congruence.
Qed.

(** [includes] decides [contains]. *)
Lemma includes_contains needle hay :
  includes needle hay = true <-> contains needle hay.
Proof.
  induction hay as [| c hay IH].
  - cbn [includes]. destruct (String.prefix needle "") eqn:Hp.
    + split; [|reflexivity]. intros _. apply prefix_append in Hp as [post Hp].
      exists "", post. exact Hp.
    + split; [discriminate|]. intros (pre & post & H).
      destruct pre as [| c pre]; [|discriminate H].
      assert (String.prefix needle "" = true) by (apply prefix_append; exists post; exact H).
      congruence.
  - cbn [includes]. destruct (String.prefix needle (String c hay)) eqn:Hp.
    + split; [|reflexivity]. intros _. apply prefix_append in Hp as [post Hp].
      exists "", post. exact Hp.
    + rewrite IH. split.
      * intros (pre & post & ->). exists (String c pre), post. reflexivity.
      * intros (pre & post & H). destruct pre as [| c' pre].
        -- assert (String.prefix needle (String c hay) = true)
             by (apply prefix_append; exists post; exact H).
           congruence.
        -- change (String c' pre +:+ needle +:+ post)
             with (String c' (pre +:+ needle +:+ post)) in H.
           injection H as _ H. exists pre, post. exact H.
Qed.

Lemma is_429_spec v : is_429 v = true <-> v = Some (JNum 429).
Proof.
  destruct v as [[n | str] |]; cbn [is_429]; split; try discriminate.
  - intros H. apply Z.eqb_eq in H. subst n. reflexivity.
  - intros H. injection H as ->. reflexivity.
Qed.

(** The test of the wrapper is the test of the amended claim. *)
Lemma isRateLimit_throttling e : isRateLimit e = true <-> throttling e.
Proof.
  unfold isRateLimit, throttling, js_or.
  rewrite orb_true_iff, includes_contains.
  destruct (truthy (status e)) eqn:Ht; rewrite is_429_spec.
  - split; [intros [H | H]; auto | intros [H | [[H _] | H]]; auto; discriminate].
  - split.
    + intros [H | H]; auto.
    + intros [H | [[_ H] | H]]; auto. rewrite H in Ht. discriminate Ht.
Qed.

Lemma not_throttling e : isRateLimit e = false <-> ~ throttling e.
Proof.
  rewrite <- isRateLimit_throttling. destruct (isRateLimit e); split; congruence.
Qed.

(** The test of [generatePlan] is the test of the amended claim. *)
Lemma planSees429_guidance429 error : planSees429 error = true <-> guidance429 error.
Proof.
  unfold planSees429, guidance429. rewrite orb_true_iff, includes_contains.
  destruct error as [e |].
  - rewrite orb_true_iff, is_429_spec. split.
    + intros [[H | H] | H]; [left | left | right; exact H]; exists e; split; auto.
      left. destruct (code e) as [[n | str] |]; try discriminate.
      apply String.eqb_eq in H. subst str. reflexivity.
    + intros [(e' & He & [H | H]) | H]; [| | right; exact H]; injection He as <-.
      * left. left. rewrite H. reflexivity.
      * left. right. exact H.
  - split; [intros [H | H]; [discriminate | right; exact H]|].
    intros [(e & He & _) | H]; [discriminate | right; exact H].
Qed.

(** A hint beyond the cap is cut to the cap: 30 s announced, 8 s waited. *)
Example retryDelay_hint_beyond_cap :
  retryDelay (fun _ => 0) None 0
    {| status := Some (JNum 429); code := None; message := None;
       toString := "Error"; retryAfter := Some 30 |} = 8000.
Proof. reflexivity. Qed.

(** The wrapper looks for the text 429, not for a status code: a server
    error (status 500) whose message mentions 4290 is retried like a 429,
    and [generatePlan] then reports the rate-limit guidance. *)
Example server_error_4290_is_retried :
  let e := {| status := Some (JNum 500); code := None;
              message := Some "upstream timed out after 4290 ms";
              toString := "Error: upstream timed out after 4290 ms";
              retryAfter := None |} in
  let fn := fun _ : nat => @inr string ApiError e in
  throttling e
  /\ calls (withRateLimitRetry fn (fun _ => 0) None) = 6%nat
  /\ delays (withRateLimitRetry fn (fun _ => 0) None) = [500; 1000; 2000; 4000; 8000]
  /\ generatePlan fn (fun _ => 0) = PlanThrown help.
Proof.
  cbv zeta. split; [apply isRateLimit_throttling; reflexivity|].
  split; [reflexivity|]. split; reflexivity.
Qed.

(** A 429 carried as the string '429' in [code] is not a throttling error
    for the wrapper. *)
Example string_code_429_not_throttling :
  ~ throttling {| status := None; code := Some (JStr "429");
                  message := Some "Too Many Requests";
                  toString := "Error: Too Many Requests"; retryAfter := None |}.
Proof. apply not_throttling. reflexivity. Qed.




(* --------------------------------------------------------------------- *)
(** ** Further properties of the wrapper and its callers *)
(* --------------------------------------------------------------------- *)

Section WrapperMore.

Context {T : Type}.
Variable fn : nat -> T + ApiError.
Variable jitter : nat -> Z.
Variable options : option RetryOptions.

(** The run of the wrapper, by the number [n] of its last invocation. *)
Lemma withRateLimitRetry_run :
  0 <= retries options ->
  let r := withRateLimitRetry fn jitter options in
  exists n,
    calls r = S n
    /\ Z.of_nat n <= retries options
    /\ delays r = delayAfter fn jitter options <$> seq 0 n
    /\ (forall k, (k < n)%nat -> exists e, fn k = inr e /\ isRateLimit e = true)
    /\ outcome r = match fn n with
                   | inl v => Returned v
                   | inr e => Thrown (Some e)
                   end
    /\ (forall e, fn n = inr e -> isRateLimit e = false \/ Z.of_nat n = retries options).
Proof.
  intros Hret r.
  destruct (attempts_spec fn jitter options (Z.to_nat (retries options + 1)) 0 None [])
    as (n & _ & Hc & Hle & Hd & Hk & Ho & Hl); [lia | lia |].
  exists n. rewrite Nat.sub_0_r in Hd. cbn [app] in Hd.
  repeat split; try assumption. intros k Hlt. apply Hk. lia.
Qed.

Lemma sum_delays_bound (n : nat) (cap : Z) (f : nat -> Z) i :
  0 <= cap -> (forall k, f k <= cap) ->
  fold_right Z.add 0 (f <$> seq i n) <= Z.of_nat n * cap.
Proof.
  intros Hcap Hf. revert i. induction n as [| n IH]; intros i; cbn [seq fmap list_fmap fold_right].
  - lia.
  - specialize (IH (S i)). specialize (Hf i). lia.
Qed.

(** X8. The waiting of one wrapped call is bounded: the delays add up to at
    most retries * maxDelayMs (40 seconds with the defaults), whatever the
    provider's retry-after hints. *)
Theorem withRateLimitRetry_total_wait :
  0 <= retries options ->
  0 <= maxDelayMs options ->
  let r := withRateLimitRetry fn jitter options in
  (length (delays r) <= Z.to_nat (retries options))%nat
  /\ fold_right Z.add 0 (delays r) <= retries options * maxDelayMs options.
Proof.
  intros Hret Hmax r.
  destruct (withRateLimitRetry_run Hret) as (n & _ & Hle & Hd & _). fold r in Hd.
  rewrite Hd. split; [rewrite length_fmap, length_seq; lia|].
  transitivity (Z.of_nat n * maxDelayMs options).
  - apply sum_delays_bound; [exact Hmax|].
    intros k. unfold delayAfter. destruct (fn k); [exact Hmax | apply retryDelay_capped].
  - apply Z.mul_le_mono_nonneg_r; assumption.
Qed.

(** X9. A retry-after hint of at least maxDelayMs is not waited out: when
    the first invocation is throttled with such a hint and the second
    succeeds, the wrapper waits exactly maxDelayMs (8 seconds by default)
    and returns the value of the second invocation. *)
Theorem withRateLimitRetry_long_hint :
  forall (e : ApiError) (seconds : Z) (v : T),
    1 <= retries options ->
    0 <= jitter 0%nat ->
    fn 0%nat = inr e ->
    isRateLimit e = true ->
    retryAfter e = Some seconds ->
    maxDelayMs options <= seconds * 1000 ->
    fn 1%nat = inl v ->
    let r := withRateLimitRetry fn jitter options in
    outcome r = Returned v /\ calls r = 2%nat /\ delays r = [maxDelayMs options].
Proof.
  intros e seconds v Hret Hj Hf0 Hrl Hhint Hlong Hf1 r.
  assert (Hret0 : 0 <= retries options) by lia.
  destruct (withRateLimitRetry_run Hret0) as (n & Hc & Hle & Hd & Hk & Ho & Hl).
  fold r in Hc, Hd, Ho.
  assert (Hn : n = 1%nat).
  { destruct n as [| [| n]]; [| reflexivity |].
    - destruct (Hl e Hf0) as [H | H]; [congruence | lia].
    - destruct (Hk 1%nat) as (e1 & He1 & _); [lia|]. congruence. }
  subst n. rewrite Hf1 in Ho. split; [exact Ho|]. split; [exact Hc|].
  rewrite Hd. cbn. unfold delayAfter. rewrite Hf0. unfold retryDelay. rewrite Hhint.
  f_equal. lia.
Qed.

(** X10. Persistent throttling: when every invocation up to number [retries]
    fails with a throttling error, the call is invoked exactly retries + 1
    times, with retries waits in between, and the error of the last
    invocation is rethrown. *)
Theorem withRateLimitRetry_exhausted :
  0 <= retries options ->
  (forall k, Z.of_nat k <= retries options ->
             exists e, fn k = inr e /\ isRateLimit e = true) ->
  let r := withRateLimitRetry fn jitter options in
  calls r = S (Z.to_nat (retries options))
  /\ length (delays r) = Z.to_nat (retries options)
  /\ exists e, fn (Z.to_nat (retries options)) = inr e /\ outcome r = Thrown (Some e).
Proof.
  intros Hret Hall r.
  destruct (withRateLimitRetry_run Hret) as (n & Hc & Hle & Hd & Hk & Ho & Hl).
  fold r in Hc, Hd, Ho.
  destruct (Hall n Hle) as (e & He & Hrl).
  assert (Hn : n = Z.to_nat (retries options)).
  { destruct (Hl e He) as [H | H]; [congruence | lia]. }
  subst n. split; [exact Hc|]. split; [rewrite Hd, length_fmap, length_seq; reflexivity|].
  exists e. split; [exact He|]. rewrite He in Ho. exact Ho.
Qed.

End WrapperMore.

Lemma falsy_not_429 (v : option JsVal) : truthy v = false -> is_429 v = false.
Proof.
  destruct v as [[n | str] |]; cbn; auto. intros H.
  apply negb_false_iff, Z.eqb_eq in H. subst n. reflexivity.
Qed.

(** X11. The wrapper and [generatePlan] disagree on a string code: an error
    whose [code] is the string '429', with no [status] and no 429 in its
    message, is not a throttling error for the wrapper (one invocation, no
    wait), yet [generatePlan] reports it with the rate-limit guidance. *)
Theorem generatePlan_string_code_429 :
  forall (T : Type) (fn : nat -> T + ApiError) (jitter : nat -> Z) (e : ApiError),
    fn 0%nat = inr e ->
    truthy (status e) = false ->
    code e = Some (JStr "429") ->
    includes "429" (default "" (message e)) = false ->
    let r := withRateLimitRetry fn jitter None in
    isRateLimit e = false
    /\ calls r = 1%nat /\ delays r = []
    /\ generatePlan fn jitter = PlanThrown help.
Proof.
  intros T fn jitter e Hf Hst Hcode Hmsg r.
  assert (Hrl : isRateLimit e = false).
  { unfold isRateLimit, js_or. rewrite Hst, Hcode, Hmsg. reflexivity. }
  assert (Hret : 0 <= retries None) by (vm_compute; discriminate).
  destruct (withRateLimitRetry_run fn jitter None Hret) as (n & Hc & _ & Hd & Hk & Ho & _).
  fold r in Hc, Hd, Ho.
  assert (Hn : n = 0%nat).
  { destruct n as [| n]; [reflexivity|].
    destruct (Hk 0%nat) as (e0 & He0 & Hrl0); [lia|]. congruence. }
  subst n. rewrite Hf in Ho.
  split; [exact Hrl|]. split; [exact Hc|]. split; [exact Hd|].
  unfold generatePlan. fold r. rewrite Ho.
  unfold planSees429. rewrite Hcode. reflexivity.
Qed.

Lemma generatePlan_string_code_429_witness :
  let e := {| status := None; code := Some (JStr "429"); message := Some "Too Many Requests";
              toString := "Error: Too Many Requests"; retryAfter := None |} in
  let fn := fun _ : nat => @inr string ApiError e in
  fn 0%nat = inr e
  /\ truthy (status e) = false
  /\ code e = Some (JStr "429")
  /\ includes "429" (default "" (message e)) = false
  /\ calls (withRateLimitRetry fn (fun _ => 0) None) = 1%nat
  /\ generatePlan fn (fun _ => 0) = PlanThrown help.
Proof.
  cbv zeta. do 4 (split; [reflexivity|]).
  set (e := {| status := None; code := Some (JStr "429"); message := Some "Too Many Requests";
               toString := "Error: Too Many Requests"; retryAfter := None |}).
  destruct (generatePlan_string_code_429 string (fun _ => inr e) (fun _ => 0) e
              eq_refl eq_refl eq_refl eq_refl) as (_ & Hc & _ & Hg).
  split; [exact Hc | exact Hg].
Defined.

(** X12. Conversely, an error whose [code] is the number 429, with no
    [status] and no 429 in its message or string form, is retried by the
    wrapper as a throttling error; when every invocation fails with it, the
    call is made six times and [generatePlan] then reports a plain
    'Plan generation failed', without the rate-limit guidance. *)
Theorem generatePlan_numeric_code_429 :
  forall (T : Type) (fn : nat -> T + ApiError) (jitter : nat -> Z) (e : ApiError),
    (forall k, fn k = inr e) ->
    truthy (status e) = false ->
    code e = Some (JNum 429) ->
    includes "429" (default "" (message e)) = false ->
    includes "429" (errMsg (Some e)) = false ->
    let r := withRateLimitRetry fn jitter None in
    isRateLimit e = true
    /\ calls r = 6%nat /\ length (delays r) = 5%nat
    /\ generatePlan fn jitter
       = PlanThrown ("Plan generation failed: " +:+ errMsg (Some e)).
Proof.
  intros T fn jitter e Hf Hst Hcode Hmsg Herr r.
  assert (Hrl : isRateLimit e = true).
  { unfold isRateLimit, js_or. rewrite Hst, Hcode. reflexivity. }
  assert (Hret : 0 <= retries None) by (vm_compute; discriminate).
  destruct (withRateLimitRetry_run fn jitter None Hret) as (n & Hc & Hle & Hd & _ & Ho & Hl).
  fold r in Hc, Hd, Ho.
  assert (Hn : n = 5%nat).
  { destruct (Hl e (Hf n)) as [H | H]; [congruence|].
    change (retries None) with 5 in H. lia. }
  subst n. rewrite Hf in Ho.
  split; [exact Hrl|]. split; [exact Hc|].
  split; [rewrite Hd, length_fmap, length_seq; reflexivity|].
  unfold generatePlan. fold r. rewrite Ho.
  unfold planSees429. rewrite Hcode, (falsy_not_429 _ Hst), Herr. reflexivity.
Qed.

Lemma generatePlan_numeric_code_429_witness :
  let e := {| status := None; code := Some (JNum 429); message := Some "Too Many Requests";
              toString := "Error: Too Many Requests"; retryAfter := None |} in
  let fn := fun _ : nat => @inr string ApiError e in
  (forall k, fn k = inr e)
  /\ truthy (status e) = false
  /\ code e = Some (JNum 429)
  /\ includes "429" (default "" (message e)) = false
  /\ includes "429" (errMsg (Some e)) = false
  /\ calls (withRateLimitRetry fn (fun _ => 0) None) = 6%nat
  /\ generatePlan fn (fun _ => 0) = PlanThrown "Plan generation failed: Too Many Requests".
Proof.
  cbv zeta. split; [intros k; reflexivity|]. do 4 (split; [reflexivity|]).
  set (e := {| status := None; code := Some (JNum 429); message := Some "Too Many Requests";
               toString := "Error: Too Many Requests"; retryAfter := None |}).
  destruct (generatePlan_numeric_code_429 string (fun _ => inr e) (fun _ => 0) e
              (fun _ => eq_refl) eq_refl eq_refl eq_refl eq_refl) as (_ & Hc & _ & Hg).
  split; [exact Hc | exact Hg].
Defined.

Lemma withRateLimitRetry_total_wait_witness :
  let fn := fun _ : nat => @inr string ApiError tooManyRequests in
  let r := withRateLimitRetry fn (fun _ => 249) None in
  0 <= retries None /\ 0 <= maxDelayMs None
  /\ (length (delays r) <= 5)%nat
  /\ fold_right Z.add 0 (delays r) <= 40000.
Proof.
  cbv zeta.
  assert (H1 : 0 <= retries None) by (vm_compute; discriminate).
  assert (H2 : 0 <= maxDelayMs None) by (vm_compute; discriminate).
  split; [exact H1|]. split; [exact H2|].
  exact (withRateLimitRetry_total_wait (fun _ => inr tooManyRequests) (fun _ => 249)
           None H1 H2).
Defined.

Lemma withRateLimitRetry_long_hint_witness :
  let e := {| status := Some (JNum 429); code := None; message := None;
              toString := "Error"; retryAfter := Some 30 |} in
  let fn := fun k : nat => if (k <? 1)%nat then inr e else inl "stream" in
  let r := withRateLimitRetry fn (fun _ => 100) None in
  1 <= retries None /\ 0 <= 100
  /\ isRateLimit e = true
  /\ maxDelayMs None <= 30 * 1000
  /\ outcome r = Returned "stream" /\ calls r = 2%nat /\ delays r = [8000].
Proof.
  cbv zeta.
  assert (H1 : 1 <= retries None) by (vm_compute; discriminate).
  assert (H2 : maxDelayMs None <= 30 * 1000) by (vm_compute; discriminate).
  split; [exact H1|]. split; [lia|]. split; [reflexivity|]. split; [exact H2|].
  exact (withRateLimitRetry_long_hint
           (fun k : nat => if (k <? 1)%nat
                           then inr {| status := Some (JNum 429); code := None;
                                       message := None; toString := "Error";
                                       retryAfter := Some 30 |}
                           else inl "stream")
           (fun _ => 100) None _ 30 "stream" H1 ltac:(lia) eq_refl eq_refl eq_refl H2 eq_refl).
Defined.

Lemma withRateLimitRetry_exhausted_witness :
  let fn := fun _ : nat => @inr string ApiError tooManyRequests in
  let r := withRateLimitRetry fn (fun _ => 0) None in
  0 <= retries None
  /\ (forall k, Z.of_nat k <= retries None ->
                exists e, fn k = inr e /\ isRateLimit e = true)
  /\ calls r = 6%nat /\ length (delays r) = 5%nat.
Proof.
  cbv zeta.
  assert (H1 : 0 <= retries None) by (vm_compute; discriminate).
  assert (H2 : forall k : nat, Z.of_nat k <= retries None ->
               exists e, (fun _ : nat => @inr string ApiError tooManyRequests) k = inr e
                         /\ isRateLimit e = true)
    by (intros k _; exists tooManyRequests; split; reflexivity).
  split; [exact H1|]. split; [exact H2|].
  destruct (withRateLimitRetry_exhausted (fun _ => inr tooManyRequests) (fun _ => 0)
              None H1 H2) as (Hc & Hd & _).
  split; [exact Hc | exact Hd].
Defined.

End Retry.

(* ===================================================================== *)
(** * Worker: job dispatch and the top-level error handler *)
(* ===================================================================== *)

Module Worker.

Record JobMessage := {
  jobId : string;
  connectionId : string;
  userId : string;
  projectId : string;
  command : string;
  data : string }.

(** A thrown value as [publishError] reads it: its [message] and [stack]
    properties, [None] when the property is missing. The handlers throw
    and rethrow objects ([new Error(...)] and the errors of the libraries
    they call). *)
Record JsError := {
  message : option string;
  stack : option string }.

(** The [data] of a result: the object built by [publishError], or any
    other payload (kept as JSON text). *)
Inductive ResultData :=
| ErrorData (message : string) (stack : option string)
| Payload (json : string).

Record JobResult := {
  r_jobId : string;
  r_type : string;
  r_data : ResultData;
  r_timestamp : Z }.

(** One call of [redis.publish]: the channel, the message, and whether the
    broker took it (the call throws otherwise). *)
Record PublishCall := {
  channel : string;
  result : JobResult;
  delivered : bool }.

Record State := {
  isRunning : bool;
  log : list PublishCall }.     (* calls of redis.publish, oldest first *)

(** How the body of a handler runs, seen from [processJob]: it publishes
    'stream' results, and then either publishes its one 'complete' result
    and returns, or throws. No handler publishes after its 'complete'
    result and none publishes an 'error' result. *)
Inductive HandlerRun :=
| Completes (streamed : list string) (final : string)
| Throws (streamed : list string) (error : JsError).

Section Process.

(** The collaborators: the three handlers (parser, embeddings, store and
    generation calls behind them), the broker's availability at the k-th
    publish, the clock at the k-th publish, and the stack text an [Error]
    records when it is created. *)
Variable handleIndex handlePlan handleErrorAnalysis : JobMessage -> HandlerRun.
Variable brokerUp : nat -> bool.
Variable clock : nat -> Z.
Variable captureStack : string -> option string.

(** The [k]-th call of [redis.publish], made by [publishResult]. *)
Definition call (jobId type : string) (data : ResultData) (k : nat) : PublishCall :=
  {| channel := "results:" +:+ jobId;
     result := {| r_jobId := jobId; r_type := type; r_data := data;
                  r_timestamp := clock k |};
     delivered := brokerUp k |}.

(** [publishResult]: a failing [redis.publish] is caught and logged, so
    the function returns in either case. *)
Definition publishResult (jobId type : string) (data : ResultData) (st : State) : State :=
  {| isRunning := isRunning st;
     log := log st ++ [call jobId type data (length (log st))] |}.

(** [error.message || 'Unknown error occurred'] *)
Definition errorText (error : JsError) : string :=
  match message error with
  | Some m => if String.eqb m "" then "Unknown error occurred" else m
  | None => "Unknown error occurred"
  end.

Definition publishError (jobId : string) (error : JsError) (st : State) : State :=
  publishResult jobId "error" (ErrorData (errorText error) (stack error)) st.

Definition publishStreamed (jobId : string) (streamed : list string) (st : State) : State :=
  fold_left (fun s chunk => publishResult jobId "stream" (Payload chunk) s) streamed st.

(** The [switch] of [processJob]. *)
Definition dispatch (job : JobMessage) : HandlerRun :=
  if String.eqb (command job) "index" then handleIndex job
  else if String.eqb (command job) "plan" then handlePlan job
  else if String.eqb (command job) "analyze-error" then handleErrorAnalysis job
  else Throws []
         {| message := Some ("Unknown command: " +:+ command job);
            stack := captureStack ("Unknown command: " +:+ command job) |}.

(** [processJob]: the [try] runs the handler, the [catch] publishes the
    error. The function returns in every case. *)
Definition processJob (job : JobMessage) (st : State) : State :=
  match dispatch job with
  | Completes streamed final =>
      publishResult (jobId job) "complete" (Payload final)
        (publishStreamed (jobId job) streamed st)
  | Throws streamed error =>
      publishError (jobId job) error
        (publishStreamed (jobId job) streamed st)
  end.

(** A message on 'jobs:pending': JSON that parses to a job, or not. *)
Inductive Incoming :=
| Parsed (job : JobMessage)
| Malformed.

(** The subscription callback of [start]: a message that does not parse
    is logged and dropped, a job is handed to [processJob]. *)
Definition onMessage (m : Incoming) (st : State) : State :=
  match m with
  | Parsed job => processJob job st
  | Malformed => st
  end.

(** The worker taking a sequence of messages, one callback after the
    other. *)
Definition receive (ms : list Incoming) (st : State) : State :=
  fold_left (fun s m => onMessage m s) ms st.

(** The state after [start()]. *)
Definition started : State := {| isRunning := true; log := [] |}.

(** ** Counting what was published *)

Definition isErrorFor (j : string) (c : PublishCall) : bool :=
  String.eqb (r_type (result c)) "error" && String.eqb (r_jobId (result c)) j.

Definition isTerminalFor (j : string) (c : PublishCall) : bool :=
  (String.eqb (r_type (result c)) "error" || String.eqb (r_type (result c)) "complete")
  && String.eqb (r_jobId (result c)) j.

Definition throws (job : JobMessage) : bool :=
  match dispatch job with Throws _ _ => true | Completes _ _ => false end.

Definition count {A} (p : A -> bool) (l : list A) : nat := length (List.filter p l).

Definition failingWithId (j : string) (m : Incoming) : bool :=
  match m with
  | Parsed job => String.eqb (jobId job) j && throws job
  | Malformed => false
  end.

Definition jobWithId (j : string) (m : Incoming) : bool :=
  match m with
  | Parsed job => String.eqb (jobId job) j
  | Malformed => false
  end.

End Process.

Section ProcessFacts.

Variable handleIndex handlePlan handleErrorAnalysis : JobMessage -> HandlerRun.
Variable brokerUp : nat -> bool.
Variable clock : nat -> Z.
Variable captureStack : string -> option string.

Local Abbreviation publishResult := (publishResult brokerUp clock).
Local Abbreviation publishStreamed := (publishStreamed brokerUp clock).
Local Abbreviation publishError := (publishError brokerUp clock).
Local Abbreviation dispatch :=
  (dispatch handleIndex handlePlan handleErrorAnalysis captureStack).
Local Abbreviation throws :=
  (throws handleIndex handlePlan handleErrorAnalysis captureStack).
Local Abbreviation processJob :=
  (processJob handleIndex handlePlan handleErrorAnalysis brokerUp clock captureStack).
Local Abbreviation onMessage :=
  (onMessage handleIndex handlePlan handleErrorAnalysis brokerUp clock captureStack).
Local Abbreviation receive :=
  (receive handleIndex handlePlan handleErrorAnalysis brokerUp clock captureStack).
Local Abbreviation failingWithId :=
  (failingWithId handleIndex handlePlan handleErrorAnalysis captureStack).

Lemma count_app {A} (p : A -> bool) l1 l2 :
  count p (l1 ++ l2) = (count p l1 + count p l2)%nat.
Proof. unfold count. rewrite List.filter_app, length_app. reflexivity. Qed.

Lemma count_none {A} (p : A -> bool) l :
  Forall (fun x => p x = false) l -> count p l = 0%nat.
Proof.
  unfold count. induction 1 as [| x l Hx _ IH]; cbn; [reflexivity|].
  rewrite Hx. exact IH.
Qed.

Lemma count_publishResult (p : PublishCall -> bool) j t d st :
  count p (log (publishResult j t d st))
  = (count p (log st)
     + if p (call brokerUp clock j t d (length (log st))) then 1 else 0)%nat.
Proof.
  cbn [log Worker.publishResult]. rewrite count_app. unfold count at 2. cbn.
  destruct (p _); reflexivity.
Qed.

Lemma isErrorFor_call j' j t d k :
  isErrorFor j' (call brokerUp clock j t d k) = String.eqb t "error" && String.eqb j j'.
Proof. reflexivity. Qed.

Lemma isTerminalFor_call j' j t d k :
  isTerminalFor j' (call brokerUp clock j t d k)
  = (String.eqb t "error" || String.eqb t "complete") && String.eqb j j'.
Proof. reflexivity. Qed.

(** Streaming publishes no terminal result. *)
Lemma publishStreamed_counts j' j streamed : forall st,
  count (isErrorFor j') (log (publishStreamed j streamed st)) = count (isErrorFor j') (log st)
  /\ count (isTerminalFor j') (log (publishStreamed j streamed st))
     = count (isTerminalFor j') (log st)
  /\ isRunning (publishStreamed j streamed st) = isRunning st.
Proof.
  induction streamed as [| chunk streamed IH]; intros st; [repeat split|].
  cbn [Worker.publishStreamed fold_left].
  destruct (IH (publishResult j "stream" (Payload chunk) st)) as (H1 & H2 & H3).
  unfold Worker.publishStreamed in H1, H2, H3. rewrite H1, H2, H3.
  rewrite !count_publishResult, isErrorFor_call, isTerminalFor_call. cbn.
  split; [lia|]. split; [lia|reflexivity].
Qed.

Lemma processJob_counts j' job st :
  count (isErrorFor j') (log (processJob job st))
  = (count (isErrorFor j') (log st)
     + if String.eqb (jobId job) j' && throws job then 1 else 0)%nat
  /\ count (isTerminalFor j') (log (processJob job st))
     = (count (isTerminalFor j') (log st)
        + if String.eqb (jobId job) j' then 1 else 0)%nat
  /\ isRunning (processJob job st) = isRunning st.
Proof.
  unfold Worker.processJob, Worker.throws.
  destruct (dispatch job) as [streamed final | streamed error];
    destruct (publishStreamed_counts j' (jobId job) streamed st) as (H1 & H2 & H3);
    unfold Worker.publishError;
    rewrite !count_publishResult, isErrorFor_call, isTerminalFor_call, H1, H2;
    cbn; destruct (String.eqb (jobId job) j'); cbn; rewrite ?H3; repeat split; lia.
Qed.

Lemma count_cons {A} (p : A -> bool) x l :
  count p (x :: l) = ((if p x then 1 else 0) + count p l)%nat.
Proof. unfold count. cbn. destruct (p x); reflexivity. Qed.

Lemma receive_counts j' ms : forall st,
  count (isErrorFor j') (log (receive ms st))
  = (count (isErrorFor j') (log st) + count (failingWithId j') ms)%nat
  /\ count (isTerminalFor j') (log (receive ms st))
     = (count (isTerminalFor j') (log st) + count (jobWithId j') ms)%nat
  /\ isRunning (receive ms st) = isRunning st.
Proof.
  induction ms as [| m ms IH]; intros st.
  - cbn. repeat split; lia.
  - cbn [Worker.receive fold_left].
    destruct (IH (onMessage m st)) as (H1 & H2 & H3).
    unfold Worker.receive in H1, H2, H3. rewrite H1, H2, H3, !count_cons.
    destruct m as [job |]; cbn [Worker.onMessage Worker.failingWithId jobWithId].
    + destruct (processJob_counts j' job st) as (P1 & P2 & P3).
      rewrite P1, P2, P3. repeat split; lia.
    + repeat split; lia.
Qed.

(** While the broker is up, every publish is delivered. *)
Lemma publishResult_delivered j t d st :
  (forall k, brokerUp k = true) ->
  Forall (fun c => delivered c = true) (log st) ->
  Forall (fun c => delivered c = true) (log (publishResult j t d st)).
Proof.
  intros Hup H. cbn. apply Forall_app. split; [exact H|].
  constructor; [apply Hup | constructor].
Qed.

Lemma receive_delivered ms : forall st,
  (forall k, brokerUp k = true) ->
  Forall (fun c => delivered c = true) (log st) ->
  Forall (fun c => delivered c = true) (log (receive ms st)).
Proof.
  intros st Hup. revert st.
  assert (Hs : forall j streamed st,
             Forall (fun c => delivered c = true) (log st) ->
             Forall (fun c => delivered c = true) (log (publishStreamed j streamed st))).
  { intros j streamed. induction streamed as [| c streamed IHs]; intros st H; [exact H|].
    cbn. apply IHs. apply publishResult_delivered; assumption. }
  induction ms as [| m ms IH]; intros st H; [exact H|].
  cbn [Worker.receive fold_left]. apply IH.
  destruct m as [job |]; [|exact H]. cbn [Worker.onMessage].
  unfold Worker.processJob.
  destruct (dispatch job); apply publishResult_delivered; auto.
Qed.

(** The error result published for a failing job carries the text of the
    thrown error. *)
Lemma processJob_error_call job streamed error st :
  dispatch job = Throws streamed error ->
  exists k,
    last (log (processJob job st))
    = Some (call brokerUp clock (jobId job) "error"
              (ErrorData (errorText error) (stack error)) k).
Proof.
  intros Hd. unfold Worker.processJob. rewrite Hd.
  eexists. cbn. rewrite last_snoc. reflexivity.
Qed.

Lemma dispatch_unknown job :
  String.eqb (command job) "index" = false ->
  String.eqb (command job) "plan" = false ->
  String.eqb (command job) "analyze-error" = false ->
  dispatch job
  = Throws [] {| message := Some ("Unknown command: " +:+ command job);
                 stack := captureStack ("Unknown command: " +:+ command job) |}.
Proof. intros H1 H2 H3. unfold Worker.dispatch. rewrite H1, H2, H3. reflexivity. Qed.

Lemma publishResult_extends j t d st :
  exists l, log (publishResult j t d st) = log st ++ l.
Proof. eexists. reflexivity. Qed.

Lemma receive_extends ms : forall st, exists l, log (receive ms st) = log st ++ l.
Proof.
  assert (Hs : forall j streamed st, exists l, log (publishStreamed j streamed st) = log st ++ l).
  { intros j streamed. induction streamed as [| c streamed IHs]; intros st.
    - exists []. cbn. rewrite app_nil_r. reflexivity.
    - cbn. destruct (IHs (publishResult j "stream" (Payload c) st)) as [l Hl].
      unfold Worker.publishStreamed in Hl. rewrite Hl. cbn.
      rewrite <- app_assoc. eexists. reflexivity. }
  induction ms as [| m ms IH]; intros st.
  - exists []. cbn. rewrite app_nil_r. reflexivity.
  - cbn [Worker.receive fold_left]. destruct (IH (onMessage m st)) as [l Hl].
    unfold Worker.receive in Hl. rewrite Hl.
    destruct m as [job |]; cbn [Worker.onMessage]; [|eexists; reflexivity].
    unfold Worker.processJob.
    destruct (dispatch job) as [streamed final | streamed error];
      destruct (Hs (jobId job) streamed st) as [l1 Hl1];
      cbn; rewrite Hl1, <- !app_assoc; eexists; reflexivity.
Qed.


End ProcessFacts.


End Worker.


(* ===================================================================== *)
(** * VectorStore: the Redis-backed similarity store *)
(* ===================================================================== *)

Module VectorStore.

(** A call returns a value or throws an [Error] with a message. *)
Inductive result (A : Type) :=
| Ok (a : A)
| Throw (message : string).
Arguments Ok {A} a.
Arguments Throw {A} message.

(** JavaScript numbers, with exact real arithmetic in place of binary64
    rounding: a real, an infinity, or NaN. *)
Inductive JsNumber :=
| Num (r : R)
| PosInfinity
| NegInfinity
| NaN.

(** [x / y] for finite operands. *)
Definition js_div (x y : R) : JsNumber :=
  if Req_dec_T y 0 then
    if Req_dec_T x 0 then NaN
    else if Rlt_dec 0 x then PosInfinity else NegInfinity
  else Num (x / y).

(** [x - y] *)
Definition js_sub (x y : JsNumber) : JsNumber :=
  match x, y with
  | NaN, _ | _, NaN => NaN
  | Num a, Num b => Num (a - b)
  | PosInfinity, PosInfinity | NegInfinity, NegInfinity => NaN
  | PosInfinity, _ | _, NegInfinity => PosInfinity
  | NegInfinity, _ | _, PosInfinity => NegInfinity
  end.

(** [CodeChunk] of the shared package, as the store reads it. *)
Record CodeChunk := {
  id : string;
  content : string;
  type : string;
  filePath : string;
  name : option string;
  embedding : option (list R) }.

(** The hash written by [hSet]. [embedding] holds the array that
    [JSON.stringify] writes and [JSON.parse] reads back. *)
Record ChunkHash := {
  h_id : string;
  h_content : string;
  h_type : string;
  h_filePath : string;
  h_name : string;
  h_embedding : list R;
  h_createdAt : Z }.

(** The Redis keyspace as the store uses it: hashes for the chunks, sets
    for the project indexes. *)
Record Redis := {
  hashes : gmap string ChunkHash;
  sets : gmap string (gset string) }.

Definition hSet (key : string) (h : ChunkHash) (r : Redis) : Redis :=
  {| hashes := <[key := h]> (hashes r); sets := sets r |}.

Definition sAdd (key member : string) (r : Redis) : Redis :=
  {| hashes := hashes r;
     sets := <[key := {[ member ]} ∪ default ∅ (sets r !! key)]> (sets r) |}.

Definition sMembers (key : string) (r : Redis) : list string :=
  elements (default ∅ (sets r !! key)).

(** [hGetAll]; [None] is the empty object returned for a missing key. *)
Definition hGetAll (key : string) (r : Redis) : option ChunkHash :=
  hashes r !! key.

Definition del (key : string) (r : Redis) : Redis :=
  {| hashes := delete key (hashes r); sets := delete key (sets r) |}.

Record VectorStoreConfig := {
  redisUrl : string;
  keyPrefix : option string;
  maxResults : option Z }.

(** [this.config] after the constructor has put the defaults under the
    given configuration. *)
Record Config := {
  cfg_keyPrefix : string;
  cfg_maxResults : Z }.

Definition constructor (config : VectorStoreConfig) : Config :=
  {| cfg_keyPrefix := default "codeplanner:vectors" (keyPrefix config);
     cfg_maxResults := default 20 (maxResults config) |}.

Definition getChunkKey (cfg : Config) (userId projectId chunkId : string) : string :=
  cfg_keyPrefix cfg +:+ ":" +:+ userId +:+ ":" +:+ projectId +:+ ":" +:+ chunkId.

Definition getProjectIndexKey (cfg : Config) (userId projectId : string) : string :=
  cfg_keyPrefix cfg +:+ ":index:" +:+ userId +:+ ":" +:+ projectId.

(** [l.reduce((acc, val, i) => f(acc, val, i), init)], [i] counting from
    [i0]. *)
Fixpoint reduce {A B : Type} (f : B -> A -> nat -> B) (l : list A) (i0 : nat) (init : B) : B :=
  match l with
  | [] => init
  | val :: l' => reduce f l' (S i0) (f init val i0)
  end.

Definition dotProduct (a b : list R) : R :=
  reduce (fun sum val i => (sum + val * nth i b 0)%R) a 0%nat 0%R.

Definition magnitude (a : list R) : R :=
  sqrt (reduce (fun sum val _ => (sum + val * val)%R) a 0%nat 0%R).

Definition cosineSimilarity (a b : list R) : result JsNumber :=
  if negb (length a =? length b)%nat
  then Throw "Embeddings must have the same dimension"
  else Ok (js_div (dotProduct a b) (magnitude a * magnitude b)).

(** The fields passed to [hSet] for a chunk with embedding [e]. *)
Definition chunkHash (chunk : CodeChunk) (e : list R) (now : Z) : ChunkHash :=
  {| h_id := id chunk;
     h_content := content chunk;
     h_type := type chunk;
     h_filePath := filePath chunk;
     h_name := default "" (name chunk);
     h_embedding := e;
     h_createdAt := now |}.

(** [storeChunk]; [now] is the reading of [Date.now()]. *)
Definition storeChunk (cfg : Config) (userId projectId : string) (chunk : CodeChunk)
  (now : Z) (r : Redis) : result Redis :=
  match embedding chunk with
  | None => Throw "Code chunk must have an embedding to store"
  | Some e =>
      Ok (sAdd (getProjectIndexKey cfg userId projectId) (id chunk)
            (hSet (getChunkKey cfg userId projectId (id chunk)) (chunkHash chunk e now) r))
  end.

(** One turn of the loop of [storeChunks]: a chunk without embedding is
    skipped with a warning, the others queue [hSet] and [sAdd]. *)
Definition queueChunk (cfg : Config) (userId projectId : string) (chunk : CodeChunk)
  (now : Z) (r : Redis) : Redis :=
  match embedding chunk with
  | None => r
  | Some e =>
      sAdd (getProjectIndexKey cfg userId projectId) (id chunk)
        (hSet (getChunkKey cfg userId projectId (id chunk)) (chunkHash chunk e now) r)
  end.

(** The loop of [storeChunks] from position [i] on; [clock i] is the
    reading of [Date.now()] at the [i]-th chunk. The queued commands run
    in order when the pipeline is executed. *)
Fixpoint storeChunksFrom (cfg : Config) (userId projectId : string) (clock : nat -> Z)
  (i : nat) (chunks : list CodeChunk) (r : Redis) : Redis :=
  match chunks with
  | [] => r
  | chunk :: rest =>
      storeChunksFrom cfg userId projectId clock (S i) rest
        (queueChunk cfg userId projectId chunk (clock i) r)
  end.

Definition storeChunks (cfg : Config) (userId projectId : string) (chunks : list CodeChunk)
  (clock : nat -> Z) (r : Redis) : Redis :=
  storeChunksFrom cfg userId projectId clock 0 chunks r.

(** An element of the array returned by [searchSimilar]. *)
Record SearchResult := {
  s_id : string;
  s_content : string;
  s_type : string;
  s_filePath : string;
  s_name : option string;
  s_embedding : list R;
  similarity : JsNumber }.

(** The loop of [searchSimilar] over the chunk ids. *)
Fixpoint scoreChunks (cfg : Config) (userId projectId : string) (queryEmbedding : list R)
  (chunkIds : list string) (r : Redis) : result (list SearchResult) :=
  match chunkIds with
  | [] => Ok []
  | chunkId :: rest =>
      match hGetAll (getChunkKey cfg userId projectId chunkId) r with
      | Some data =>
          match cosineSimilarity queryEmbedding (h_embedding data) with
          | Throw m => Throw m
          | Ok sim =>
              match scoreChunks cfg userId projectId queryEmbedding rest r with
              | Throw m => Throw m
              | Ok chunks =>
                  Ok ({| s_id := h_id data;
                         s_content := h_content data;
                         s_type := h_type data;
                         s_filePath := h_filePath data;
                         s_name := if String.eqb (h_name data) "" then None
                                   else Some (h_name data);
                         s_embedding := h_embedding data;
                         similarity := sim |} :: chunks)
              end
          end
      | None => scoreChunks cfg userId projectId queryEmbedding rest r
      end
  end.

(** The comparator [(a, b) => b.similarity - a.similarity]. *)
Definition compareFn (a b : SearchResult) : JsNumber :=
  js_sub (similarity b) (similarity a).

(** [v > 0], false for NaN (which the sort reads as +0). *)
Definition positive (v : JsNumber) : bool :=
  match v with
  | Num r => if Rlt_dec 0 r then true else false
  | PosInfinity => true
  | NegInfinity | NaN => false
  end.

(** [Array.prototype.sort] is stable; it is modelled by stable insertion:
    an element moves behind those the comparator places before it. *)
Fixpoint insert (x : SearchResult) (sorted : list SearchResult) : list SearchResult :=
  match sorted with
  | [] => [x]
  | y :: sorted' =>
      if positive (compareFn x y) then y :: insert x sorted'
      else x :: sorted
  end.

Definition sort (l : list SearchResult) : list SearchResult :=
  fold_right insert [] l.

(** [l.slice(0, end)] *)
Definition slice0 {A} (l : list A) (end_ : Z) : list A :=
  let len := Z.of_nat (length l) in
  let k := if end_ <? 0 then Z.max (len + end_) 0 else Z.min end_ len in
  firstn (Z.to_nat k) l.

Definition searchSimilar (cfg : Config) (userId projectId : string)
  (queryEmbedding : list R) (limit : Z) (r : Redis) : result (list SearchResult) :=
  let chunkIds := sMembers (getProjectIndexKey cfg userId projectId) r in
  if (length chunkIds =? 0)%nat then Ok []
  else
    match scoreChunks cfg userId projectId queryEmbedding chunkIds r with
    | Throw m => Throw m
    | Ok chunks => Ok (slice0 (sort chunks) (Z.min limit (cfg_maxResults cfg)))
    end.

(** [clearProject] *)
Definition clearProject (cfg : Config) (userId projectId : string) (r : Redis) : Redis :=
  let indexKey := getProjectIndexKey cfg userId projectId in
  let chunkIds := sMembers indexKey r in
  if (length chunkIds =? 0)%nat then r
  else
    del indexKey
      (fold_left (fun r' chunkId => del (getChunkKey cfg userId projectId chunkId) r')
         chunkIds r).

Record Stats := {
  totalChunks : nat;
  totalSize : nat;
  chunkTypes : gmap string nat }.

(** The loop of [getStats]; it returns [totalSize] and [chunkTypes]. *)
Definition countChunk (cfg : Config) (userId projectId : string) (r : Redis)
  (acc : nat * gmap string nat) (chunkId : string) : nat * gmap string nat :=
  match hGetAll (getChunkKey cfg userId projectId chunkId) r with
  | Some data =>
      if String.eqb (h_content data) "" then acc
      else (fst acc + String.length (h_content data),
            <[h_type data := default 0 (snd acc !! h_type data) + 1]> (snd acc))%nat
  | None => acc
  end.

Definition getStats (cfg : Config) (userId projectId : string) (r : Redis) : Stats :=
  let chunkIds := sMembers (getProjectIndexKey cfg userId projectId) r in
  let sums := fold_left (countChunk cfg userId projectId r) chunkIds (0%nat, ∅) in
  {| totalChunks := length chunkIds;
     totalSize := fst sums;
     chunkTypes := snd sums |}.

(** ** Facts about the keyspace *)

Lemma append_inj_l (s a b : string) : s +:+ a = s +:+ b -> a = b.
Proof.
  induction s as [| c s IH]; cbn; intros H; [exact H|].
  inversion H. apply IH. assumption.
Qed.

Lemma getChunkKey_inj cfg userId projectId a b :
  getChunkKey cfg userId projectId a = getChunkKey cfg userId projectId b -> a = b.
Proof.
  unfold getChunkKey. intros H.
  repeat (apply append_inj_l in H). exact H.
Qed.

Lemma sMembers_elem key r j : j ∈ sMembers key r <-> j ∈ default ∅ (sets r !! key).
Proof. unfold sMembers. apply elem_of_elements. Qed.

Lemma sMembers_del key r : sMembers key (del key r) = [].
Proof.
  unfold sMembers, del; cbn. rewrite lookup_delete_eq. cbn. apply elements_empty.
Qed.

Lemma hGetAll_del_None key key' r :
  hGetAll key r = None -> hGetAll key (del key' r) = None.
Proof.
  unfold hGetAll, del; cbn. intros H.
  destruct (decide (key' = key)) as [-> | Hne].
  - apply lookup_delete_eq.
  - rewrite lookup_delete_ne by exact Hne. exact H.
Qed.

(** ** Facts about the similarity *)

Definition sumSquares (a : list R) : R :=
  reduce (fun sum val _ => (sum + val * val)%R) a 0%nat 0%R.

Lemma reduce_squares_shift a : forall i init,
  reduce (fun sum val (_ : nat) => (sum + val * val)%R) a i init
  = (init + sumSquares a)%R.
Proof.
  unfold sumSquares. induction a as [| x a IH]; intros i init; cbn; [lra|].
  rewrite (IH (S i)), (IH 1%nat). lra.
Qed.

Lemma sumSquares_cons x a : sumSquares (x :: a) = (x * x + sumSquares a)%R.
Proof. unfold sumSquares at 1. cbn. rewrite reduce_squares_shift. lra. Qed.

Lemma sumSquares_nonneg a : (0 <= sumSquares a)%R.
Proof.
  induction a as [| x a IH]; [unfold sumSquares; cbn; lra|].
  rewrite sumSquares_cons. nra.
Qed.

Lemma sumSquares_zero a : sumSquares a = 0%R -> Forall (fun x => x = 0%R) a.
Proof.
  induction a as [| x a IH]; [constructor|].
  rewrite sumSquares_cons. intros H. pose proof (sumSquares_nonneg a).
  constructor; [nra | apply IH; nra].
Qed.

Lemma magnitude_zero a : magnitude a = 0%R -> Forall (fun x => x = 0%R) a.
Proof.
  unfold magnitude. fold (sumSquares a). intros H.
  apply sumSquares_zero. apply sqrt_eq_0; [apply sumSquares_nonneg | exact H].
Qed.

Lemma magnitude_nonzero a : Exists (fun x => x <> 0%R) a -> magnitude a <> 0%R.
Proof.
  intros Hex Hz. apply magnitude_zero in Hz.
  apply Exists_exists in Hex as (x & Hin & Hx). apply Hx.
  rewrite Forall_forall in Hz. apply Hz. exact Hin.
Qed.

Lemma dotProduct_zero_l a b : Forall (fun x => x = 0%R) a -> dotProduct a b = 0%R.
Proof.
  intros Ha. unfold dotProduct. generalize 0%nat.
  induction Ha as [| x a Hx _ IH]; intros i; cbn; [reflexivity|].
  subst x. rewrite Rmult_0_l, Rplus_0_l. apply IH.
Qed.

Lemma nth_zero (b : list R) i : Forall (fun x => x = 0%R) b -> nth i b 0%R = 0%R.
Proof.
  intros H. revert i. induction H as [| x b Hx _ IH]; intros [| i]; cbn; auto.
Qed.

Lemma dotProduct_zero_r a b : Forall (fun x => x = 0%R) b -> dotProduct a b = 0%R.
Proof.
  intros Hb. unfold dotProduct. generalize 0%nat.
  induction a as [| x a IH]; intros i; cbn; [reflexivity|].
  rewrite (nth_zero b i Hb), Rmult_0_r, Rplus_0_l. apply IH.
Qed.

(** A vector of zero magnitude on either side makes the quotient 0/0. *)
Lemma cosineSimilarity_zero_magnitude a b :
  length a = length b ->
  magnitude a = 0%R \/ magnitude b = 0%R ->
  cosineSimilarity a b = Ok NaN.
Proof.
  intros Hlen Hz. unfold cosineSimilarity. rewrite Hlen, Nat.eqb_refl. cbn.
  assert (Hdot : dotProduct a b = 0%R).
  { destruct Hz as [Hz | Hz]; apply magnitude_zero in Hz;
      [apply dotProduct_zero_l | apply dotProduct_zero_r]; exact Hz. }
  assert (Hden : (magnitude a * magnitude b)%R = 0%R)
    by (destruct Hz as [Hz | Hz]; rewrite Hz; lra).
  unfold js_div. rewrite Hdot, Hden.
  destruct (Req_dec_T 0 0); [reflexivity | contradiction].
Qed.

(** With both magnitudes non-zero the score is the quotient. *)
Lemma cosineSimilarity_quotient a b :
  length a = length b ->
  magnitude a <> 0%R -> magnitude b <> 0%R ->
  cosineSimilarity a b
  = Ok (Num (dotProduct a b / (magnitude a * magnitude b))).
Proof.
  intros Hlen Ha Hb. unfold cosineSimilarity. rewrite Hlen, Nat.eqb_refl. cbn.
  unfold js_div. destruct (Req_dec_T (magnitude a * magnitude b) 0) as [H | H];
    [|reflexivity].
  apply Rmult_integral in H. tauto.
Qed.

(** The products of [dotProduct], one pair of components at a time. *)
Lemma reduce_dot_shift y b a : forall i init,
  reduce (fun sum val i => (sum + val * nth i (y :: b) 0)%R) a (S i) init
  = reduce (fun sum val i => (sum + val * nth i b 0)%R) a i init.
Proof. induction a as [| x a IH]; intros i init; cbn; [reflexivity | apply IH]. Qed.

Lemma reduce_dot_init b a : forall i init,
  reduce (fun sum val i => (sum + val * nth i b 0)%R) a i init
  = (init + reduce (fun sum val i => (sum + val * nth i b 0)%R) a i 0)%R.
Proof.
  induction a as [| x a IH]; intros i init; cbn; [lra|].
  rewrite (IH (S i) (init + _)%R), (IH (S i) (0 + _)%R). lra.
Qed.

Lemma dotProduct_cons x a y b :
  dotProduct (x :: a) (y :: b) = (x * y + dotProduct a b)%R.
Proof.
  unfold dotProduct. cbn [reduce]. rewrite reduce_dot_shift, reduce_dot_init.
  cbn [nth]. lra.
Qed.

(** Cauchy-Schwarz for the sums the store computes. *)
Lemma dotProduct_squared a : forall b,
  length a = length b ->
  (dotProduct a b * dotProduct a b <= sumSquares a * sumSquares b)%R.
Proof.
  induction a as [| x a IH]; intros [| y b] Hlen; try discriminate.
  - unfold dotProduct, sumSquares; cbn. lra.
  - cbn in Hlen. injection Hlen as Hlen. specialize (IH b Hlen).
    rewrite dotProduct_cons, !sumSquares_cons.
    pose proof (sumSquares_nonneg a) as HA. pose proof (sumSquares_nonneg b) as HB.
    set (d := dotProduct a b) in *. set (A := sumSquares a) in *.
    set (B := sumSquares b) in *.
    assert (Hmix : (2 * (x * y * d) <= x * x * B + y * y * A)%R).
    { destruct (Req_dec_T A 0) as [HA0 | HA0].
      - assert (d = 0%R) by nra. subst d. nra.
      - assert (0 < A)%R by lra.
        assert (0 <= A * (x * x * B + y * y * A - 2 * (x * y * d)))%R.
        { pose proof (Rle_0_sqr (x * d - y * A)) as Hsq. unfold Rsqr in Hsq.
          assert (0 <= x * x * (A * B - d * d))%R by (apply Rmult_le_pos; nra).
          nra. }
        nra. }
    nra.
Qed.

(** In exact arithmetic the score of two vectors of non-zero magnitude lies
    in [-1,1]. *)
Lemma cosineSimilarity_bounded a b :
  length a = length b ->
  magnitude a <> 0%R -> magnitude b <> 0%R ->
  exists s, cosineSimilarity a b = Ok (Num s) /\ (-1 <= s <= 1)%R.
Proof.
  intros Hlen Ha Hb. eexists. split; [apply cosineSimilarity_quotient; assumption|].
  pose proof (dotProduct_squared a b Hlen) as Hcs.
  pose proof (sumSquares_nonneg a) as HA. pose proof (sumSquares_nonneg b) as HB.
  assert (Hma : (magnitude a * magnitude a = sumSquares a)%R)
    by (unfold magnitude; fold (sumSquares a); apply sqrt_sqrt; exact HA).
  assert (Hmb : (magnitude b * magnitude b = sumSquares b)%R)
    by (unfold magnitude; fold (sumSquares b); apply sqrt_sqrt; exact HB).
  assert (Hpa : (0 < magnitude a)%R).
  { pose proof (sqrt_pos (sumSquares a)) as H. unfold magnitude in *.
    fold (sumSquares a) in *. lra. }
  assert (Hpb : (0 < magnitude b)%R).
  { pose proof (sqrt_pos (sumSquares b)) as H. unfold magnitude in *.
    fold (sumSquares b) in *. lra. }
  set (d := dotProduct a b) in *. set (P := (magnitude a * magnitude b)%R).
  assert (HP : (0 < P)%R) by (apply Rmult_lt_0_compat; assumption).
  assert (Hsq : (d * d <= P * P)%R).
  { replace (P * P)%R with ((magnitude a * magnitude a) * (magnitude b * magnitude b))%R
      by (unfold P; ring).
    rewrite Hma, Hmb. exact Hcs. }
  assert (Hd : (- P <= d <= P)%R) by (split; nra).
  assert (Hs : (d = d / P * P)%R) by (field; lra).
  split; nra.
Qed.

Section StoreFacts.

Variable cfg : Config.
Variable userId projectId : string.

Local Abbreviation chunkKey := (getChunkKey cfg userId projectId).
Local Abbreviation indexKey := (getProjectIndexKey cfg userId projectId).

(** *** clearProject *)

Lemma delete_chunks_gone chunkIds : forall r chunkId,
  chunkId ∈ chunkIds \/ hGetAll (chunkKey chunkId) r = None ->
  hGetAll (chunkKey chunkId)
    (fold_left (fun r' c => del (chunkKey c) r') chunkIds r) = None.
Proof.
  induction chunkIds as [| c chunkIds IH]; intros r chunkId H; cbn.
  - destruct H as [H | H]; [inversion H | exact H].
  - apply IH. destruct H as [H | H].
    + apply elem_of_cons in H as [-> | H]; [right | left; exact H].
      unfold hGetAll, del; cbn. apply lookup_delete_eq.
    + right. apply hGetAll_del_None. exact H.
Qed.

Lemma clearProject_index_empty r : sMembers indexKey (clearProject cfg userId projectId r) = [].
Proof.
  unfold clearProject.
  destruct (length (sMembers indexKey r) =? 0)%nat eqn:Hlen.
  - apply Nat.eqb_eq in Hlen. apply length_zero_iff_nil. exact Hlen.
  - apply sMembers_del.
Qed.

(** C9. For every store state: after [clearProject] no hash is left under
    the key of any chunk id that was registered for the project, the
    project's index has no members, clearing again returns without error
    and changes nothing, and [getStats] reports zero chunks, zero size and
    no chunk types. *)
Theorem clearProject_then_getStats :
  forall r : Redis,
    let r' := clearProject cfg userId projectId r in
    (forall chunkId, chunkId ∈ sMembers indexKey r -> hGetAll (chunkKey chunkId) r' = None)
    /\ sMembers indexKey r' = []
    /\ clearProject cfg userId projectId r' = r'
    /\ getStats cfg userId projectId r'
       = {| totalChunks := 0; totalSize := 0; chunkTypes := ∅ |}.
Proof.
  intros r r'. pose proof (clearProject_index_empty r) as Hempty. fold r' in Hempty.
  split.
  { intros chunkId Hin. subst r'. unfold clearProject.
    destruct (length (sMembers indexKey r) =? 0)%nat eqn:Hlen.
    - apply Nat.eqb_eq, length_zero_iff_nil in Hlen. rewrite Hlen in Hin. inversion Hin.
    - apply hGetAll_del_None. apply delete_chunks_gone. left. exact Hin. }
  split; [exact Hempty|]. split.
  - unfold clearProject at 1. rewrite Hempty. reflexivity.
  - unfold getStats. rewrite Hempty. reflexivity.
Qed.

(** *** storeChunk and storeChunks *)

(** The last chunk of a batch that has id [j] and carries an embedding. *)
Fixpoint lastStored (j : string) (chunks : list CodeChunk) : option CodeChunk :=
  match chunks with
  | [] => None
  | chunk :: rest =>
      match lastStored j rest with
      | Some c => Some c
      | None =>
          if String.eqb (id chunk) j && bool_decide (is_Some (embedding chunk))
          then Some chunk else None
      end
  end.

Lemma lastStored_Some j chunks c :
  lastStored j chunks = Some c -> c ∈ chunks /\ id c = j /\ is_Some (embedding c).
Proof.
  induction chunks as [| x rest IH]; cbn; [discriminate|].
  destruct (lastStored j rest) as [c' |].
  - intros H. inversion H; subst c'. destruct (IH eq_refl) as (H1 & H2 & H3).
    split; [apply elem_of_cons; right; exact H1 | split; assumption].
  - destruct (String.eqb (id x) j) eqn:Hid; cbn; [|discriminate].
    destruct (bool_decide (is_Some (embedding x))) eqn:He; [|discriminate].
    intros H. inversion H; subst c. apply String.eqb_eq in Hid.
    apply bool_decide_eq_true in He.
    split; [apply elem_of_cons; left; reflexivity | split; assumption].
Qed.

Lemma lastStored_NoDup chunks : forall c,
  NoDup (id <$> chunks) -> c ∈ chunks -> is_Some (embedding c) ->
  lastStored (id c) chunks = Some c.
Proof.
  induction chunks as [| x rest IH]; intros c Hnd Hin He; [inversion Hin|].
  cbn in Hnd. apply NoDup_cons in Hnd as [Hx Hnd]. cbn.
  apply elem_of_cons in Hin as [-> | Hin].
  - destruct (lastStored (id x) rest) as [c' |] eqn:Hl.
    + apply lastStored_Some in Hl as (Hc' & Hid & _).
      exfalso. apply Hx. rewrite <- Hid. apply list_elem_of_fmap. exists c'. auto.
    + rewrite String.eqb_refl. cbn. rewrite bool_decide_eq_true_2 by exact He. reflexivity.
  - rewrite (IH c Hnd Hin He). reflexivity.
Qed.

Lemma queueChunk_index chunk now r j :
  j ∈ sMembers indexKey (queueChunk cfg userId projectId chunk now r)
  <-> j ∈ sMembers indexKey r \/ (j = id chunk /\ is_Some (embedding chunk)).
Proof.
  rewrite !sMembers_elem. unfold queueChunk.
  destruct (embedding chunk) as [e |]; cbn.
  - rewrite lookup_insert_eq. cbn. rewrite elem_of_union, elem_of_singleton.
    split; intros [H | H]; auto. destruct H as [H _]. auto.
  - split; [auto|]. intros [H | [_ [x H]]]; [exact H | discriminate].
Qed.

Lemma storeChunksFrom_index clock chunks : forall i r j,
  j ∈ sMembers indexKey (storeChunksFrom cfg userId projectId clock i chunks r)
  <-> j ∈ sMembers indexKey r
      \/ exists c, c ∈ chunks /\ id c = j /\ is_Some (embedding c).
Proof.
  induction chunks as [| x rest IH]; intros i r j; cbn.
  - split; [auto|]. intros [H | (c & Hc & _)]; [exact H | inversion Hc].
  - rewrite IH, queueChunk_index. split.
    + intros [[H | [-> He]] | (c & Hc & Hid & He)]; auto.
      * right. exists x. split; [apply elem_of_cons; auto | auto].
      * right. exists c. split; [apply elem_of_cons; auto | auto].
    + intros [H | (c & Hc & Hid & He)]; auto.
      apply elem_of_cons in Hc as [-> | Hc]; [left; right; auto|].
      right. exists c. auto.
Qed.

Lemma queueChunk_hash chunk now r j :
  hGetAll (chunkKey j) (queueChunk cfg userId projectId chunk now r)
  = match embedding chunk with
    | Some e => if String.eqb (id chunk) j then Some (chunkHash chunk e now)
                else hGetAll (chunkKey j) r
    | None => hGetAll (chunkKey j) r
    end.
Proof.
  unfold queueChunk. destruct (embedding chunk) as [e |]; [|reflexivity].
  unfold hGetAll, sAdd, hSet; cbn.
  destruct (String.eqb (id chunk) j) eqn:Hid.
  - apply String.eqb_eq in Hid. subst j. apply lookup_insert_eq.
  - apply String.eqb_neq in Hid. apply lookup_insert_ne.
    intros Hk. apply Hid. apply (getChunkKey_inj _ _ _ _ _ Hk).
Qed.

(** What [storeChunks] leaves under the key of chunk id [j]. *)
Lemma storeChunksFrom_hash clock chunks : forall i r j,
  match lastStored j chunks with
  | Some c =>
      exists e now,
        embedding c = Some e
        /\ hGetAll (chunkKey j) (storeChunksFrom cfg userId projectId clock i chunks r)
           = Some (chunkHash c e now)
  | None =>
      hGetAll (chunkKey j) (storeChunksFrom cfg userId projectId clock i chunks r)
      = hGetAll (chunkKey j) r
  end.
Proof.
  induction chunks as [| x rest IH]; intros i r j; cbn; [reflexivity|].
  specialize (IH (S i) (queueChunk cfg userId projectId x (clock i) r) j).
  destruct (lastStored j rest) as [c |]; [exact IH|].
  rewrite IH, queueChunk_hash.
  destruct (embedding x) as [e |] eqn:He.
  - destruct (String.eqb (id x) j) eqn:Hid; cbn.
    + exists e, (clock i). auto.
    + reflexivity.
  - rewrite andb_false_r. reflexivity.
Qed.

(** A batch in the words of the specification: every chunk passed has its
    id registered, and its content and vector stored under its key. *)
Definition batch_stored_spec (chunks : list CodeChunk) (r' : Redis) : Prop :=
  forall c, c ∈ chunks ->
    id c ∈ sMembers indexKey r'
    /\ exists h, hGetAll (chunkKey (id c)) r' = Some h
                 /\ h_content h = content c
                 /\ Some (h_embedding h) = embedding c.

(** C7 (as amended). [storeChunk] fails for a chunk without an embedding
    and stores a chunk that has one (content and vector under its key, id
    registered); [storeChunks] never fails: every chunk of the batch
    that carries an embedding has its id registered in the project's index
    set, and under its key the store holds the content and vector of the
    last chunk of the batch with that id and an embedding, which is the
    chunk itself when the ids of the batch are distinct; an id is
    registered only if it was registered before or belongs to a chunk of
    the batch with an embedding (chunks without one are skipped). *)
Theorem storeChunks_stores_embedded :
  forall (chunks : list CodeChunk) (clock : nat -> Z) (now : Z) (r : Redis),
    let r' := storeChunks cfg userId projectId chunks clock r in
    (forall c, embedding c = None ->
       storeChunk cfg userId projectId c now r
       = Throw "Code chunk must have an embedding to store")
    /\ (forall c e, embedding c = Some e ->
          exists r1,
            storeChunk cfg userId projectId c now r = Ok r1
            /\ id c ∈ sMembers indexKey r1
            /\ hGetAll (chunkKey (id c)) r1 = Some (chunkHash c e now))
    /\ (forall c, c ∈ chunks -> is_Some (embedding c) ->
          id c ∈ sMembers indexKey r'
          /\ exists c' e' t,
               lastStored (id c) chunks = Some c'
               /\ id c' = id c
               /\ embedding c' = Some e'
               /\ hGetAll (chunkKey (id c)) r' = Some (chunkHash c' e' t)
               /\ (NoDup (id <$> chunks) -> c' = c))
    /\ (forall j, j ∈ sMembers indexKey r' ->
          j ∈ sMembers indexKey r
          \/ exists c, c ∈ chunks /\ id c = j /\ is_Some (embedding c)).
Proof.
  intros chunks clock now r r'. split; [|split; [|split]].
  - intros c He. unfold storeChunk. rewrite He. reflexivity.
  - intros c e He. unfold storeChunk. rewrite He. eexists. split; [reflexivity|].
    pose proof (queueChunk_index c now r (id c)) as Hi.
    pose proof (queueChunk_hash c now r (id c)) as Hh.
    unfold queueChunk in Hi, Hh. rewrite He in Hi, Hh.
    rewrite String.eqb_refl in Hh. split; [|exact Hh].
    apply Hi. right. split; [reflexivity | eexists; reflexivity].
  - intros c Hin He. split.
    + subst r'. unfold storeChunks. apply storeChunksFrom_index. right. exists c. auto.
    + pose proof (storeChunksFrom_hash clock chunks 0 r (id c)) as H.
      destruct (lastStored (id c) chunks) as [c' |] eqn:Hl.
      * destruct H as (e' & t & He' & Hh).
        destruct (lastStored_Some _ _ _ Hl) as (_ & Hid & _).
        exists c', e', t. repeat split; try assumption.
        intros Hnd. rewrite (lastStored_NoDup chunks c Hnd Hin He) in Hl.
        inversion Hl. reflexivity.
      * exfalso. clear H. induction chunks as [| x rest IH]; [inversion Hin|].
        cbn in Hl. destruct (lastStored (id c) rest) eqn:Hr; [discriminate|].
        apply elem_of_cons in Hin as [-> | Hin]; [|apply IH; auto].
        rewrite String.eqb_refl, bool_decide_eq_true_2 in Hl by exact He. discriminate.
  - intros j Hj. subst r'. unfold storeChunks in Hj.
    apply storeChunksFrom_index in Hj. exact Hj.
Qed.

(** *** Ranking *)

(** The score is a real number. *)
Definition scored (x : SearchResult) : Prop :=
  exists s, similarity x = Num s.

(** [x] is ranked before [y]: both scores are real numbers and the score
    of [y] does not exceed that of [x]. *)
Definition ranks_before (x y : SearchResult) : Prop :=
  exists a b, similarity x = Num a /\ similarity y = Num b /\ (b <= a)%R.

Lemma insert_perm x l : Permutation (insert x l) (x :: l).
Proof.
  induction l as [| y l IH]; cbn; [reflexivity|].
  destruct (positive (compareFn x y)); [|reflexivity].
  rewrite IH. apply perm_swap.
Qed.

Lemma sort_perm l : Permutation (sort l) l.
Proof.
  induction l as [| x l IH]; cbn; [reflexivity|].
  rewrite insert_perm, IH. reflexivity.
Qed.

Lemma length_sort l : length (sort l) = length l.
Proof. apply Permutation_length, sort_perm. Qed.

Lemma positive_compareFn x y a b :
  similarity x = Num a -> similarity y = Num b ->
  positive (compareFn x y) = true <-> (a < b)%R.
Proof.
  intros Hx Hy. unfold compareFn, positive. rewrite Hx, Hy. cbn.
  destruct (Rlt_dec 0 (b - a)); split; intros H; try reflexivity; try discriminate; lra.
Qed.

Lemma insert_HdRel w x l :
  ranks_before w x -> HdRel ranks_before w l -> HdRel ranks_before w (insert x l).
Proof.
  intros Hwx Hwl. destruct l as [| y l]; cbn; [constructor; exact Hwx|].
  destruct (positive (compareFn x y)); constructor; [|exact Hwx].
  inversion Hwl; assumption.
Qed.

Lemma insert_sorted x l :
  scored x -> Forall scored l ->
  Sorted ranks_before l -> Sorted ranks_before (insert x l).
Proof.
  intros [a Ha] Hl Hs. induction l as [| y l IH]; cbn.
  - constructor; constructor.
  - apply Forall_cons in Hl as [[b Hb] Hl]. inversion Hs as [| ? ? Hs' Hhd]; subst.
    destruct (positive (compareFn x y)) eqn:Hp.
    + apply (positive_compareFn x y a b Ha Hb) in Hp.
      constructor; [apply IH; assumption|].
      apply insert_HdRel; [|exact Hhd]. exists b, a. repeat split; try assumption. lra.
    + constructor; [exact Hs|]. constructor. exists a, b. repeat split; try assumption.
      destruct (Rlt_dec a b) as [Hlt | Hge]; [|lra].
      apply (positive_compareFn x y a b Ha Hb) in Hlt. congruence.
Qed.

Lemma sort_sorted l : Forall scored l -> Sorted ranks_before (sort l).
Proof.
  induction 1 as [| x l Hx Hl IH]; cbn; [constructor|].
  apply insert_sorted; [exact Hx | | exact IH].
  eapply Permutation_Forall; [symmetry; apply sort_perm | exact Hl].
Qed.

Lemma Sorted_firstn {A} (R : A -> A -> Prop) l : forall n,
  Sorted R l -> Sorted R (firstn n l).
Proof.
  induction l as [| x l IH]; intros n Hs; [rewrite firstn_nil; constructor|].
  destruct n as [| n]; cbn; [constructor|].
  inversion Hs as [| ? ? Hs' Hhd]; subst. constructor; [apply IH; exact Hs'|].
  destruct l as [| y l]; [rewrite firstn_nil; constructor|].
  destruct n; cbn; constructor. inversion Hhd; assumption.
Qed.

Lemma slice0_nonneg {A} (l : list A) (end_ : Z) :
  0 <= end_ -> slice0 l end_ = firstn (Z.to_nat end_) l.
Proof.
  intros H. unfold slice0. destruct (end_ <? 0) eqn:Hneg; [apply Z.ltb_lt in Hneg; lia|].
  destruct (Z.le_ge_cases end_ (Z.of_nat (length l))) as [Hle | Hge].
  - rewrite Z.min_l by exact Hle. reflexivity.
  - rewrite Z.min_r by exact Hge. rewrite Nat2Z.id.
    rewrite firstn_all. symmetry. apply firstn_all2. lia.
Qed.

(** *** Scoring *)

(** The element pushed for a stored hash. *)
Definition scoreOf (queryEmbedding : list R) (data : ChunkHash) : SearchResult :=
  {| s_id := h_id data;
     s_content := h_content data;
     s_type := h_type data;
     s_filePath := h_filePath data;
     s_name := if String.eqb (h_name data) "" then None else Some (h_name data);
     s_embedding := h_embedding data;
     similarity := js_div (dotProduct queryEmbedding (h_embedding data))
                     (magnitude queryEmbedding * magnitude (h_embedding data)) |}.

(** The hashes found under the keys of the registered chunk ids. *)
Definition storedHashes (chunkIds : list string) (r : Redis) : list ChunkHash :=
  omap (fun chunkId => hGetAll (chunkKey chunkId) r) chunkIds.

Lemma scoreChunks_ok queryEmbedding chunkIds r :
  Forall (fun data => length (h_embedding data) = length queryEmbedding)
    (storedHashes chunkIds r) ->
  scoreChunks cfg userId projectId queryEmbedding chunkIds r
  = Ok (scoreOf queryEmbedding <$> storedHashes chunkIds r).
Proof.
  induction chunkIds as [| c chunkIds IH]; cbn; [reflexivity|].
  unfold storedHashes in *. cbn.
  destruct (hGetAll (chunkKey c) r) as [data |]; cbn; [|exact IH].
  intros H. apply Forall_cons in H as [Hd H].
  unfold cosineSimilarity. rewrite Hd, Nat.eqb_refl. cbn.
  rewrite (IH H). reflexivity.
Qed.

Lemma js_div_Num x y : y <> 0%R -> js_div x y = Num (x / y).
Proof. intros H. unfold js_div. destruct (Req_dec_T y 0); [contradiction|reflexivity]. Qed.

Lemma scoreOf_scored queryEmbedding data :
  magnitude queryEmbedding <> 0%R -> magnitude (h_embedding data) <> 0%R ->
  scored (scoreOf queryEmbedding data).
Proof.
  intros Hq Hd. eexists. cbn. apply js_div_Num.
  apply Rmult_integral_contrapositive. split; assumption.
Qed.

(** The result of [searchSimilar] when every stored embedding has the
    dimension of the query. *)
Lemma searchSimilar_ok (r : Redis) (queryEmbedding : list R) (limit : Z) :
  let stored := storedHashes (sMembers indexKey r) r in
  Forall (fun data => length (h_embedding data) = length queryEmbedding) stored ->
  searchSimilar cfg userId projectId queryEmbedding limit r
  = Ok (slice0 (sort (scoreOf queryEmbedding <$> stored))
          (Z.min limit (cfg_maxResults cfg))).
Proof.
  intros stored Hdim. unfold searchSimilar.
  destruct (length (sMembers indexKey r) =? 0)%nat eqn:Hlen.
  - apply Nat.eqb_eq, length_zero_iff_nil in Hlen.
    subst stored. rewrite Hlen. cbn. unfold slice0. rewrite firstn_nil. reflexivity.
  - rewrite (scoreChunks_ok _ _ _ Hdim). reflexivity.
Qed.

Lemma length_slice0_sort (l : list SearchResult) (m : Z) :
  0 <= m -> length (slice0 (sort l) m) = Nat.min (Z.to_nat m) (length l).
Proof.
  intros H. rewrite slice0_nonneg by exact H.
  rewrite length_firstn, length_sort. reflexivity.
Qed.

(** C2 (as amended). For every owner, project and store state, every query
    vector that has the dimension of every stored embedding, none of these
    vectors having zero magnitude, and every limit k with
    min(k, maxResults) >= 0: [searchSimilar] returns the first
    min(k, maxResults) entries of a ranking of all the project's stored
    chunks (each with its cosine score) by non-increasing similarity; so it
    returns min(k, maxResults, n) results, n the number of stored chunks,
    which is exactly min(k, maxResults) when n is at least that, and the
    result list is sorted descending by similarity. *)
Theorem searchSimilar_ranked :
  forall (r : Redis) (queryEmbedding : list R) (limit : Z),
    let stored := storedHashes (sMembers indexKey r) r in
    let m := Z.min limit (cfg_maxResults cfg) in
    Forall (fun data => length (h_embedding data) = length queryEmbedding
                        /\ magnitude (h_embedding data) <> 0%R) stored ->
    magnitude queryEmbedding <> 0%R ->
    0 <= m ->
    exists results ranking,
      searchSimilar cfg userId projectId queryEmbedding limit r = Ok results
      /\ Permutation ranking (scoreOf queryEmbedding <$> stored)
      /\ Sorted ranks_before ranking
      /\ results = firstn (Z.to_nat m) ranking
      /\ length results = Nat.min (Z.to_nat m) (length stored)
      /\ ((Z.to_nat m <= length stored)%nat -> length results = Z.to_nat m)
      /\ Sorted ranks_before results.
Proof.
  intros r queryEmbedding limit stored m Hstored Hq Hm.
  assert (Hdim : Forall (fun data => length (h_embedding data) = length queryEmbedding) stored).
  { eapply Forall_impl; [exact Hstored|]. intros data [H _]. exact H. }
  assert (Hscored : Forall scored (scoreOf queryEmbedding <$> stored)).
  { apply Forall_fmap. eapply Forall_impl; [exact Hstored|].
    intros data [_ H]. apply scoreOf_scored; assumption. }
  exists (slice0 (sort (scoreOf queryEmbedding <$> stored)) m),
         (sort (scoreOf queryEmbedding <$> stored)).
  split; [apply searchSimilar_ok; exact Hdim|].
  split; [apply sort_perm|].
  split; [apply sort_sorted; exact Hscored|].
  split; [apply slice0_nonneg; exact Hm|].
  assert (Hlen : length (slice0 (sort (scoreOf queryEmbedding <$> stored)) m)
                 = Nat.min (Z.to_nat m) (length stored)).
  { rewrite length_slice0_sort by exact Hm. rewrite length_fmap. reflexivity. }
  split; [exact Hlen|]. split; [intros Hn; rewrite Hlen; lia|].
  rewrite slice0_nonneg by exact Hm. apply Sorted_firstn, sort_sorted, Hscored.
Qed.

(** Every hash found after a batch was stored in an empty keyspace is the
    hash of a chunk of the batch. *)
Lemma storedHashes_storeChunks chunks clock chunkIds data :
  let r' := storeChunks cfg userId projectId chunks clock {| hashes := ∅; sets := ∅ |} in
  data ∈ storedHashes chunkIds r' ->
  exists c e now, c ∈ chunks /\ embedding c = Some e /\ data = chunkHash c e now.
Proof.
  intros r' Hin. unfold storedHashes in Hin.
  apply list_elem_of_omap in Hin as (j & _ & Hj).
  pose proof (storeChunksFrom_hash clock chunks 0 {| hashes := ∅; sets := ∅ |} j) as H.
  fold (storeChunks cfg userId projectId chunks clock {| hashes := ∅; sets := ∅ |}) in H.
  fold r' in H.
  destruct (lastStored j chunks) as [c |] eqn:Hl.
  - destruct H as (e & now & He & Hh). rewrite Hh in Hj. inversion Hj; subst data.
    apply lastStored_Some in Hl as (Hc & _). exists c, e, now. auto.
  - rewrite H in Hj. unfold hGetAll in Hj. cbn in Hj. rewrite lookup_empty in Hj.
    discriminate.
Qed.

End StoreFacts.

(** ** The store as the worker builds it *)

Definition defaults : Config :=
  constructor {| redisUrl := "redis://localhost:6379"; keyPrefix := None; maxResults := None |}.

Definition emptyRedis : Redis := {| hashes := ∅; sets := ∅ |}.

Lemma storeChunks_stores_embedded_witness :
  let c1 := {| id := "a"; content := "function a() {}"; type := "function";
               filePath := "a.ts"; name := Some "a"; embedding := Some [1%R; 0%R] |} in
  let c2 := {| id := "b"; content := "class B {}"; type := "class";
               filePath := "b.ts"; name := None; embedding := None |} in
  let r' := storeChunks defaults "user1" "project1" [c1; c2] (fun i => Z.of_nat i) emptyRedis in
  c1 ∈ [c1; c2] /\ is_Some (embedding c1)
  /\ id c1 ∈ sMembers (getProjectIndexKey defaults "user1" "project1") r'
  /\ hGetAll (getChunkKey defaults "user1" "project1" "a") r'
     = Some (chunkHash c1 [1%R; 0%R] 0).
Proof.
  cbv zeta.
  set (c1 := {| id := "a"; content := "function a() {}"; type := "function";
                filePath := "a.ts"; name := Some "a"; embedding := Some [1%R; 0%R] |}).
  set (c2 := {| id := "b"; content := "class B {}"; type := "class";
                filePath := "b.ts"; name := None; embedding := None |}).
  assert (Hin : c1 ∈ [c1; c2]) by (apply elem_of_cons; left; reflexivity).
  assert (He : is_Some (embedding c1)) by (eexists; reflexivity).
  split; [exact Hin|]. split; [exact He|].
  destruct (storeChunks_stores_embedded defaults "user1" "project1"
              [c1; c2] (fun i => Z.of_nat i) 0 emptyRedis) as (_ & _ & H & _).
  destruct (H c1 Hin He) as (Hidx & _).
  split; [exact Hidx|]. reflexivity.
Defined.

(** C7 (as stated) fails for batches: a chunk without an embedding makes
    [storeChunks] neither fail nor store it; the store is left as it was. *)
Lemma storeChunks_skip_counterexample :
  let c := {| id := "b"; content := "class B {}"; type := "class";
              filePath := "b.ts"; name := None; embedding := None |} in
  storeChunks defaults "user1" "project1" [c] (fun i => Z.of_nat i) emptyRedis = emptyRedis
  /\ ~ batch_stored_spec defaults "user1" "project1" [c]
        (storeChunks defaults "user1" "project1" [c] (fun i => Z.of_nat i) emptyRedis).
Proof.
  cbv zeta. split; [reflexivity|].
  intros H. edestruct H as [Hidx _]; [apply elem_of_cons; left; reflexivity|].
  cbn in Hidx. unfold sMembers in Hidx. cbn in Hidx.
  rewrite lookup_empty in Hidx. cbn in Hidx. rewrite elements_empty in Hidx.
  inversion Hidx.
Qed.

(** The three chunks of the specification's search scenario. *)
Definition scenarioChunks : list CodeChunk :=
  [ {| id := "x"; content := "function x() {}"; type := "function";
       filePath := "x.ts"; name := Some "x"; embedding := Some [1; 0]%R |};
    {| id := "y"; content := "function y() {}"; type := "function";
       filePath := "y.ts"; name := Some "y"; embedding := Some [0; 1]%R |};
    {| id := "xy"; content := "class XY {}"; type := "class";
       filePath := "xy.ts"; name := Some "XY"; embedding := Some [7 / 10; 7 / 10]%R |} ].

Definition scenarioStore : Redis :=
  storeChunks defaults "user1" "project1" scenarioChunks (fun i => Z.of_nat i) emptyRedis.

Lemma searchSimilar_ranked_witness :
  let stored := storedHashes defaults "user1" "project1"
                  (sMembers (getProjectIndexKey defaults "user1" "project1") scenarioStore)
                  scenarioStore in
  Forall (fun data => length (h_embedding data) = length [1; 0]%R
                      /\ magnitude (h_embedding data) <> 0%R) stored
  /\ magnitude [1; 0]%R <> 0%R
  /\ 0 <= Z.min 2 (cfg_maxResults defaults)
  /\ exists results,
       searchSimilar defaults "user1" "project1" [1; 0]%R 2 scenarioStore = Ok results
       /\ length results = 2%nat
       /\ Sorted ranks_before results.
Proof.
  cbv zeta.
  assert (Hs : Forall (fun data => length (h_embedding data) = length [1; 0]%R
                                   /\ magnitude (h_embedding data) <> 0%R)
                 (storedHashes defaults "user1" "project1"
                    (sMembers (getProjectIndexKey defaults "user1" "project1") scenarioStore)
                    scenarioStore)).
  { apply Forall_forall. intros data Hin.
    apply storedHashes_storeChunks in Hin as (c & e & now & Hc & He & ->).
    cbn [h_embedding chunkHash].
    unfold scenarioChunks in Hc.
    repeat (apply elem_of_cons in Hc as [-> | Hc]);
      [| | | inversion Hc]; cbn in He; inversion He; subst e;
      (split; [reflexivity | apply magnitude_nonzero]).
    - apply Exists_cons_hd. lra.
    - apply Exists_cons_tl, Exists_cons_hd. lra.
    - apply Exists_cons_hd. lra. }
  assert (Hq : magnitude [1; 0]%R <> 0%R)
    by (apply magnitude_nonzero, Exists_cons_hd; lra).
  assert (Hm : 0 <= Z.min 2 (cfg_maxResults defaults)) by (vm_compute; discriminate).
  split; [exact Hs|]. split; [exact Hq|]. split; [exact Hm|].
  destruct (searchSimilar_ranked defaults "user1" "project1" scenarioStore [1; 0]%R 2 Hs Hq Hm)
    as (results & ranking & Hres & _ & _ & _ & _ & Hlen & Hsorted).
  exists results. split; [exact Hres|]. split; [|exact Hsorted].
  apply Hlen. vm_compute. lia.
Defined.

(** Twenty-one chunks with the embedding [1], ids "a" to "u". *)
Definition unitChunk (i : nat) : CodeChunk :=
  {| id := String (Ascii.ascii_of_nat (97 + i)) ""; content := "function f() {}";
     type := "function"; filePath := "f.ts"; name := None; embedding := Some [1%R] |}.

Definition store21 : Redis :=
  storeChunks defaults "user1" "project1" (unitChunk <$> seq 0 21)
    (fun i => Z.of_nat i) emptyRedis.

(** C2 (as stated) fails on the number of results: with the default
    configuration the index holds 21 chunks with embeddings, 21 are asked
    for, and 20 are returned. *)
Lemma searchSimilar_cap_counterexample :
  let stored := storedHashes defaults "user1" "project1"
                  (sMembers (getProjectIndexKey defaults "user1" "project1") store21)
                  store21 in
  length stored = 21%nat
  /\ exists results,
       searchSimilar defaults "user1" "project1" [1%R] 21 store21 = Ok results
       /\ length results = 20%nat
       /\ length results <> Z.to_nat 21.
Proof.
  cbv zeta. split; [vm_compute; reflexivity|].
  eexists. split.
  - apply searchSimilar_ok. apply Forall_forall. intros data Hin.
    apply storedHashes_storeChunks in Hin as (c & e & now & Hc & He & ->).
    apply list_elem_of_fmap in Hc as (i & -> & _). cbn in He. inversion He. reflexivity.
  - assert (Hlen : length (slice0
                     (sort (scoreOf [1%R] <$>
                        storedHashes defaults "user1" "project1"
                          (sMembers (getProjectIndexKey defaults "user1" "project1") store21)
                          store21))
                     (Z.min 21 (cfg_maxResults defaults))) = 20%nat).
    { rewrite length_slice0_sort by (vm_compute; discriminate).
      rewrite length_fmap. vm_compute. reflexivity. }
    split; [exact Hlen|]. rewrite Hlen. vm_compute. lia.
Qed.

(** A score lies in [-1,1], in the words of the specification. *)
Definition in_unit_interval (v : JsNumber) : Prop :=
  match v with
  | Num s => (-1 <= s <= 1)%R
  | _ => False
  end.

Definition zeroChunk : CodeChunk :=
  {| id := "z"; content := "// empty"; type := "file"; filePath := "z.ts";
     name := None; embedding := Some [0; 0]%R |}.

Definition zeroStore : Redis :=
  storeChunks defaults "user1" "project1" [zeroChunk] (fun i => Z.of_nat i) emptyRedis.

(** C8. With a stored vector of zero magnitude the quotient is 0/0: the
    similarity of [1,0] and [0,0] is NaN, and a search over a project
    holding that one chunk returns it annotated with NaN, which is not a
    score in [-1,1]. *)
Theorem similarity_zero_magnitude_NaN :
  cosineSimilarity [1; 0]%R [0; 0]%R = Ok NaN
  /\ exists x,
       searchSimilar defaults "user1" "project1" [1; 0]%R 10 zeroStore = Ok [x]
       /\ s_id x = "z"
       /\ similarity x = NaN
       /\ ~ in_unit_interval (similarity x).
Proof.
  assert (Hzero : magnitude [0; 0]%R = 0%R).
  { unfold magnitude. fold (sumSquares [0; 0]%R).
    rewrite !sumSquares_cons. unfold sumSquares; cbn.
    replace (0 * 0 + (0 * 0 + 0))%R with 0%R by lra. apply sqrt_0. }
  assert (Hcos : cosineSimilarity [1; 0]%R [0; 0]%R = Ok NaN)
    by (apply cosineSimilarity_zero_magnitude; [reflexivity | right; exact Hzero]).
  split; [exact Hcos|].
  assert (Hjs : js_div (dotProduct [1; 0]%R [0; 0]%R)
                  (magnitude [1; 0]%R * magnitude [0; 0]%R) = NaN).
  { unfold cosineSimilarity in Hcos. cbn [length Nat.eqb negb] in Hcos.
    inversion Hcos as [H]. reflexivity. }
  eexists. split; [|split; [|split]].
  - rewrite searchSimilar_ok.
    + assert (Hst : storedHashes defaults "user1" "project1"
                      (sMembers (getProjectIndexKey defaults "user1" "project1") zeroStore)
                      zeroStore
                    = [chunkHash zeroChunk [0; 0]%R 0]) by reflexivity.
      rewrite Hst. cbn [fmap list_fmap sort fold_right insert].
      rewrite slice0_nonneg by (vm_compute; discriminate).
      reflexivity.
    + apply Forall_forall. intros data Hin.
      apply storedHashes_storeChunks in Hin as (c & e & now & Hc & He & ->).
      apply list_elem_of_singleton in Hc. subst c. cbn in He. inversion He. reflexivity.
  - reflexivity.
  - exact Hjs.
  - cbn [similarity scoreOf chunkHash h_embedding]. rewrite Hjs. cbn. tauto.
Qed.

(* --------------------------------------------------------------------- *)
(** ** Further operations of the store *)
(* --------------------------------------------------------------------- *)

(** [getChunk]: [null] when the hash has no (or an empty) [id]. *)
Definition getChunk (cfg : Config) (userId projectId chunkId : string) (r : Redis)
  : option CodeChunk :=
  match hGetAll (getChunkKey cfg userId projectId chunkId) r with
  | None => None
  | Some data =>
      if String.eqb (h_id data) "" then None
      else Some {| id := h_id data;
                   content := h_content data;
                   type := h_type data;
                   filePath := h_filePath data;
                   name := if String.eqb (h_name data) "" then None
                           else Some (h_name data);
                   embedding := Some (h_embedding data) |}
  end.

(** [chunk.name || ''] written, [data.name || undefined] read back. *)
Definition normalName (n : option string) : option string :=
  match n with
  | Some s => if String.eqb s "" then None else Some s
  | None => None
  end.

Lemma dotProduct_comm a : forall b, length a = length b -> dotProduct a b = dotProduct b a.
Proof.
  induction a as [| x a IH]; intros [| y b] Hlen; try discriminate; [reflexivity|].
  cbn in Hlen. injection Hlen as Hlen. rewrite !dotProduct_cons, (IH b Hlen). lra.
Qed.

(** X13. The score does not depend on the order of its two arguments. *)
Theorem cosineSimilarity_symmetric :
  forall a b, cosineSimilarity a b = cosineSimilarity b a.
Proof.
  intros a b. unfold cosineSimilarity.
  destruct (length a =? length b)%nat eqn:Hab.
  - apply Nat.eqb_eq in Hab. rewrite <- Hab, Nat.eqb_refl. cbn.
    rewrite (dotProduct_comm a b Hab), (Rmult_comm (magnitude a)). reflexivity.
  - rewrite Nat.eqb_sym, Hab. reflexivity.
Qed.

Section StoreMore.

Variable cfg : Config.
Variable userId projectId : string.

Local Abbreviation chunkKey := (getChunkKey cfg userId projectId).
Local Abbreviation indexKey := (getProjectIndexKey cfg userId projectId).

(** X16. Round trip: a chunk stored with [storeChunk] under a non-empty id
    is read back by [getChunk] with the same id, content, type, path and
    vector; an empty name comes back as undefined. *)
Theorem getChunk_storeChunk :
  forall (c : CodeChunk) (e : list R) (now : Z) (r : Redis),
    embedding c = Some e ->
    id c <> "" ->
    exists r1,
      storeChunk cfg userId projectId c now r = Ok r1
      /\ getChunk cfg userId projectId (id c) r1
         = Some {| id := id c; content := content c; type := type c;
                   filePath := filePath c; name := normalName (name c);
                   embedding := Some e |}.
Proof.
  intros c e now r He Hid. unfold storeChunk. rewrite He. eexists. split; [reflexivity|].
  pose proof (queueChunk_hash cfg userId projectId c now r (id c)) as Hh.
  unfold queueChunk in Hh. rewrite He, String.eqb_refl in Hh.
  unfold getChunk. rewrite Hh. cbn.
  apply String.eqb_neq in Hid. rewrite Hid.
  destruct (name c) as [n |]; cbn; [|reflexivity].
  destruct (String.eqb n ""); reflexivity.
Qed.

Lemma delete_chunks_keeps chunkIds : forall (r : Redis) (key : string),
  (forall chunkId, chunkId ∈ chunkIds -> key <> chunkKey chunkId) ->
  let r' := fold_left (fun r' c => del (chunkKey c) r') chunkIds r in
  hashes r' !! key = hashes r !! key /\ sets r' !! key = sets r !! key.
Proof.
  induction chunkIds as [| c chunkIds IH]; intros r key Hne; cbn; [auto|].
  destruct (IH (del (chunkKey c) r) key) as [H1 H2].
  { intros x Hx. apply Hne. apply elem_of_cons. auto. }
  cbn in H1, H2. rewrite H1, H2. unfold del; cbn.
  assert (chunkKey c <> key) by (intros E; apply (Hne c); [apply elem_of_cons; auto | auto]).
  rewrite !lookup_delete_ne by assumption. auto.
Qed.

(** X17. [clearProject] deletes nothing but the project's index key and the
    keys of the chunk ids registered in it: every other key keeps its hash
    and its set. *)
Theorem clearProject_keeps_other_keys :
  forall (r : Redis) (key : string),
    key <> indexKey ->
    (forall chunkId, chunkId ∈ sMembers indexKey r -> key <> chunkKey chunkId) ->
    hashes (clearProject cfg userId projectId r) !! key = hashes r !! key
    /\ sets (clearProject cfg userId projectId r) !! key = sets r !! key.
Proof.
  intros r key Hidx Hne. unfold clearProject.
  destruct (length (sMembers indexKey r) =? 0)%nat; [auto|].
  destruct (delete_chunks_keeps (sMembers indexKey r) r key Hne) as [H1 H2].
  cbn in H1, H2. unfold del at 1 3; cbn.
  rewrite !lookup_delete_ne by (intros E; apply Hidx; auto). auto.
Qed.

(** X18. After [clearProject], a search of the project returns the empty
    list for every query vector and every limit; it does not throw. *)
Theorem searchSimilar_after_clearProject :
  forall (r : Redis) (queryEmbedding : list R) (limit : Z),
    searchSimilar cfg userId projectId queryEmbedding limit
      (clearProject cfg userId projectId r) = Ok [].
Proof.
  intros r q limit. unfold searchSimilar.
  rewrite (clearProject_index_empty cfg userId projectId r). reflexivity.
Qed.

Lemma scoreChunks_mismatch queryEmbedding chunkIds r :
  Exists (fun data => length (h_embedding data) <> length queryEmbedding)
    (storedHashes cfg userId projectId chunkIds r) ->
  scoreChunks cfg userId projectId queryEmbedding chunkIds r
  = Throw "Embeddings must have the same dimension".
Proof.
  induction chunkIds as [| c chunkIds IH]; unfold storedHashes; cbn.
  - intros H. inversion H.
  - destruct (hGetAll (chunkKey c) r) as [data |]; cbn; [|exact IH].
    intros H. unfold cosineSimilarity.
    destruct (length queryEmbedding =? length (h_embedding data))%nat eqn:Hlen; cbn;
      [|reflexivity].
    apply Nat.eqb_eq in Hlen. apply Exists_cons in H as [H | H]; [congruence|].
    rewrite (IH H). reflexivity.
Qed.

(** X19. If the embedding stored for some registered chunk has another
    dimension than the query, the whole search throws 'Embeddings must have
    the same dimension', whatever the limit and the other chunks. *)
Theorem searchSimilar_dimension_mismatch :
  forall (r : Redis) (queryEmbedding : list R) (limit : Z),
    Exists (fun data => length (h_embedding data) <> length queryEmbedding)
      (storedHashes cfg userId projectId (sMembers indexKey r) r) ->
    searchSimilar cfg userId projectId queryEmbedding limit r
    = Throw "Embeddings must have the same dimension".
Proof.
  intros r q limit H. unfold searchSimilar.
  destruct (sMembers indexKey r) as [| c ids] eqn:Hm.
  - inversion H.
  - cbn [length Nat.eqb]. rewrite (scoreChunks_mismatch q (c :: ids) r H). reflexivity.
Qed.

Lemma ranks_before_trans x y z : ranks_before x y -> ranks_before y z -> ranks_before x z.
Proof.
  intros (a & b & Ha & Hb & Hab) (b' & c & Hb' & Hc & Hbc).
  rewrite Hb in Hb'. inversion Hb'; subst b'. exists a, c. repeat split; auto. lra.
Qed.

Lemma Sorted_split (l : list SearchResult) (n : nat) :
  Sorted ranks_before l ->
  forall x y, x ∈ firstn n l -> y ∈ skipn n l -> ranks_before x y.
Proof.
  intros Hs. apply Sorted_StronglySorted in Hs;
    [|intros x y z; apply ranks_before_trans].
  revert n. induction Hs as [| a l Hs IH Hall]; intros n x y Hx Hy.
  - rewrite firstn_nil in Hx. inversion Hx.
  - destruct n as [| n]; cbn in Hx, Hy; [inversion Hx|].
    apply elem_of_cons in Hx as [-> | Hx]; [|apply (IH n); assumption].
    rewrite List.Forall_forall in Hall. apply Hall.
    apply list_elem_of_In. apply (subseteq_drop n l y Hy).
Qed.

(** X20. Top-k: under the conditions of the ranking (matching dimensions,
    non-zero magnitudes, non-negative cut) the returned chunks and the
    chunks left out together are exactly the project's stored chunks, and
    no chunk left out scores higher than a returned one. *)
Theorem searchSimilar_top_k :
  forall (r : Redis) (queryEmbedding : list R) (limit : Z),
    let stored := storedHashes cfg userId projectId (sMembers indexKey r) r in
    Forall (fun data => length (h_embedding data) = length queryEmbedding
                        /\ magnitude (h_embedding data) <> 0%R) stored ->
    magnitude queryEmbedding <> 0%R ->
    0 <= Z.min limit (cfg_maxResults cfg) ->
    exists results rest,
      searchSimilar cfg userId projectId queryEmbedding limit r = Ok results
      /\ Permutation (results ++ rest) (scoreOf queryEmbedding <$> stored)
      /\ forall x y, x ∈ results -> y ∈ rest -> ranks_before x y.
Proof.
  intros r q limit stored Hstored Hq Hm.
  assert (Hdim : Forall (fun data => length (h_embedding data) = length q) stored).
  { eapply Forall_impl; [exact Hstored|]. intros data [H _]. exact H. }
  assert (Hscored : Forall scored (scoreOf q <$> stored)).
  { apply Forall_fmap. eapply Forall_impl; [exact Hstored|].
    intros data [_ H]. apply scoreOf_scored; assumption. }
  set (n := Z.to_nat (Z.min limit (cfg_maxResults cfg))).
  exists (firstn n (sort (scoreOf q <$> stored))), (skipn n (sort (scoreOf q <$> stored))).
  split.
  - rewrite (searchSimilar_ok cfg userId projectId r q limit Hdim).
    rewrite slice0_nonneg by exact Hm. reflexivity.
  - split; [rewrite firstn_skipn; apply sort_perm|].
    apply Sorted_split. apply sort_sorted. exact Hscored.
Qed.

(** X21. A negative limit does not give an empty result: [slice(0, -j)]
    drops the j lowest-ranked entries and returns all the others, so a
    project of n stored chunks yields max(n - j, 0) results. *)
Theorem searchSimilar_negative_limit :
  forall (r : Redis) (queryEmbedding : list R) (limit : Z),
    let stored := storedHashes cfg userId projectId (sMembers indexKey r) r in
    Forall (fun data => length (h_embedding data) = length queryEmbedding) stored ->
    Z.min limit (cfg_maxResults cfg) < 0 ->
    exists results,
      searchSimilar cfg userId projectId queryEmbedding limit r = Ok results
      /\ results = firstn (length stored - Z.to_nat (- Z.min limit (cfg_maxResults cfg)))
                     (sort (scoreOf queryEmbedding <$> stored))
      /\ length results
         = (length stored - Z.to_nat (- Z.min limit (cfg_maxResults cfg)))%nat.
Proof.
  intros r q limit stored Hdim Hneg. eexists. split; [apply searchSimilar_ok; exact Hdim|].
  fold stored. set (m := Z.min limit (cfg_maxResults cfg)) in *.
  assert (Hs : slice0 (sort (scoreOf q <$> stored)) m
               = firstn (length stored - Z.to_nat (- m)) (sort (scoreOf q <$> stored))).
  { unfold slice0. apply Z.ltb_lt in Hneg as Hb. rewrite Hb. f_equal.
    rewrite length_sort, length_fmap. lia. }
  split; [exact Hs|]. rewrite Hs, length_firstn, length_sort, length_fmap. lia.
Qed.

Lemma NoDup_embedded_ids (chunks : list CodeChunk) :
  NoDup (id <$> chunks) ->
  NoDup (id <$> filter (fun c => is_Some (embedding c)) chunks).
Proof.
  induction chunks as [| c chunks IH]; [constructor|].
  rewrite fmap_cons. intros Hnd. apply NoDup_cons in Hnd as [Hc Hnd].
  rewrite filter_cons. destruct (decide (is_Some (embedding c))); [|apply IH; exact Hnd].
  rewrite fmap_cons. apply NoDup_cons. split; [|apply IH; exact Hnd].
  intros Hin. apply Hc. apply list_elem_of_fmap in Hin as (c' & -> & Hc').
  apply list_elem_of_filter in Hc' as [_ Hc']. apply list_elem_of_fmap. eauto.
Qed.

(** X22. Re-indexing: after [clearProject] followed by [storeChunks], the ids
    registered for the project are exactly the ids of the chunks of the
    batch that carry an embedding (no id of the earlier index survives);
    with distinct ids in the batch, [getStats] counts exactly those
    chunks. *)
Theorem reindex_registers_batch :
  forall (r : Redis) (chunks : list CodeChunk) (clock : nat -> Z),
    let r' := storeChunks cfg userId projectId chunks clock
                (clearProject cfg userId projectId r) in
    (forall j, j ∈ sMembers indexKey r'
               <-> exists c, c ∈ chunks /\ id c = j /\ is_Some (embedding c))
    /\ (NoDup (id <$> chunks) ->
        totalChunks (getStats cfg userId projectId r')
        = length (filter (fun c => is_Some (embedding c)) chunks)).
Proof.
  intros r chunks clock r'.
  assert (Hmem : forall j, j ∈ sMembers indexKey r'
                   <-> exists c, c ∈ chunks /\ id c = j /\ is_Some (embedding c)).
  { intros j. subst r'. unfold storeChunks. rewrite storeChunksFrom_index.
    rewrite (clearProject_index_empty cfg userId projectId r). split.
    - intros [H | H]; [inversion H | exact H].
    - intros H. right. exact H. }
  split; [exact Hmem|]. intros Hnd. unfold getStats. cbn [totalChunks].
  rewrite <- (length_fmap id (filter (fun c => is_Some (embedding c)) chunks)).
  apply Permutation_length. apply NoDup_Permutation.
  - apply NoDup_elements.
  - apply NoDup_embedded_ids. exact Hnd.
  - intros j. rewrite Hmem. split.
    + intros (c & Hc & <- & He). apply list_elem_of_fmap. exists c. split; [reflexivity|].
      apply list_elem_of_filter. auto.
    + intros Hj. apply list_elem_of_fmap in Hj as (c & -> & Hc).
      apply list_elem_of_filter in Hc as [He Hc]. exists c. auto.
Qed.

(** X23. Storing a chunk under an id that is already registered replaces the
    hash under its key and leaves the members of the index as they were. *)
Theorem storeChunk_overwrites :
  forall (c1 c2 : CodeChunk) (e1 e2 : list R) (now1 now2 : Z) (r : Redis),
    embedding c1 = Some e1 ->
    embedding c2 = Some e2 ->
    id c2 = id c1 ->
    exists r1 r2,
      storeChunk cfg userId projectId c1 now1 r = Ok r1
      /\ storeChunk cfg userId projectId c2 now2 r1 = Ok r2
      /\ sMembers indexKey r2 = sMembers indexKey r1
      /\ hGetAll (chunkKey (id c1)) r2 = Some (chunkHash c2 e2 now2).
Proof.
  intros c1 c2 e1 e2 now1 now2 r H1 H2 Hid. unfold storeChunk. rewrite H1, H2.
  eexists. eexists. split; [reflexivity|]. split; [reflexivity|]. split.
  - unfold sMembers, sAdd, hSet; cbn. rewrite !lookup_insert_eq; cbn.
    rewrite Hid. f_equal. rewrite (assoc_L (∪)), (idemp_L (∪)). reflexivity.
  - rewrite Hid. unfold hGetAll, sAdd, hSet; cbn. apply lookup_insert_eq.
Qed.

End StoreMore.

(** The hashes of the search scenario: three vectors of dimension 2 and
    non-zero magnitude. *)
Lemma scenarioStore_stored :
  Forall (fun data => length (h_embedding data) = 2%nat
                      /\ magnitude (h_embedding data) <> 0%R)
    (storedHashes defaults "user1" "project1"
       (sMembers (getProjectIndexKey defaults "user1" "project1") scenarioStore)
       scenarioStore).
Proof.
  apply Forall_forall. intros data Hin.
  apply storedHashes_storeChunks in Hin as (c & e & now & Hc & He & ->).
  cbn [h_embedding chunkHash]. unfold scenarioChunks in Hc.
  repeat (apply elem_of_cons in Hc as [-> | Hc]);
    [| | | inversion Hc]; cbn in He; inversion He; subst e;
    (split; [reflexivity | apply magnitude_nonzero]).
  - apply Exists_cons_hd. lra.
  - apply Exists_cons_tl, Exists_cons_hd. lra.
  - apply Exists_cons_hd. lra.
Qed.

Lemma getChunk_storeChunk_witness :
  let c := {| id := "x"; content := "function x() {}"; type := "function";
              filePath := "x.ts"; name := Some ""; embedding := Some [1; 0]%R |} in
  embedding c = Some [1; 0]%R /\ id c <> ""
  /\ exists r1,
       storeChunk defaults "user1" "project1" c 7 emptyRedis = Ok r1
       /\ getChunk defaults "user1" "project1" "x" r1
          = Some {| id := "x"; content := "function x() {}"; type := "function";
                    filePath := "x.ts"; name := None; embedding := Some [1; 0]%R |}.
Proof.
  cbv zeta. split; [reflexivity|]. split; [discriminate|].
  exact (getChunk_storeChunk defaults "user1" "project1"
           {| id := "x"; content := "function x() {}"; type := "function";
              filePath := "x.ts"; name := Some ""; embedding := Some [1; 0]%R |}
           [1; 0]%R 7 emptyRedis eq_refl ltac:(discriminate)).
Defined.

Lemma clearProject_keeps_other_keys_witness :
  let key := "session:42" in
  key <> getProjectIndexKey defaults "user1" "project1"
  /\ (forall chunkId,
        chunkId ∈ sMembers (getProjectIndexKey defaults "user1" "project1") scenarioStore ->
        key <> getChunkKey defaults "user1" "project1" chunkId)
  /\ hashes (clearProject defaults "user1" "project1" scenarioStore) !! key
     = hashes scenarioStore !! key.
Proof.
  cbv zeta.
  assert (H1 : "session:42" <> getProjectIndexKey defaults "user1" "project1")
    by (cbn; discriminate).
  assert (H2 : forall chunkId,
             chunkId ∈ sMembers (getProjectIndexKey defaults "user1" "project1") scenarioStore ->
             "session:42" <> getChunkKey defaults "user1" "project1" chunkId)
    by (intros chunkId _; cbn; discriminate).
  split; [exact H1|]. split; [exact H2|].
  exact (proj1 (clearProject_keeps_other_keys defaults "user1" "project1"
                  scenarioStore "session:42" H1 H2)).
Defined.

Lemma searchSimilar_dimension_mismatch_witness :
  Exists (fun data => length (h_embedding data) <> length [1%R])
    (storedHashes defaults "user1" "project1"
       (sMembers (getProjectIndexKey defaults "user1" "project1") scenarioStore)
       scenarioStore)
  /\ searchSimilar defaults "user1" "project1" [1%R] 10 scenarioStore
     = Throw "Embeddings must have the same dimension".
Proof.
  assert (H : Exists (fun data => length (h_embedding data) <> length [1%R])
                (storedHashes defaults "user1" "project1"
                   (sMembers (getProjectIndexKey defaults "user1" "project1") scenarioStore)
                   scenarioStore)).
  { pose proof scenarioStore_stored as Hall.
    destruct (storedHashes defaults "user1" "project1"
                (sMembers (getProjectIndexKey defaults "user1" "project1") scenarioStore)
                scenarioStore) as [| data rest] eqn:Hst.
    - apply (f_equal length) in Hst. vm_compute in Hst. discriminate.
    - apply Forall_cons in Hall as [[Hlen _] _]. apply Exists_cons_hd.
      rewrite Hlen. cbn. discriminate. }
  split; [exact H|].
  exact (searchSimilar_dimension_mismatch defaults "user1" "project1"
           scenarioStore [1%R] 10 H).
Defined.

Lemma searchSimilar_top_k_witness :
  magnitude [1; 0]%R <> 0%R
  /\ 0 <= Z.min 2 (cfg_maxResults defaults)
  /\ exists results rest,
       searchSimilar defaults "user1" "project1" [1; 0]%R 2 scenarioStore = Ok results
       /\ Permutation (results ++ rest)
            (scoreOf [1; 0]%R <$>
               storedHashes defaults "user1" "project1"
                 (sMembers (getProjectIndexKey defaults "user1" "project1") scenarioStore)
                 scenarioStore)
       /\ forall x y, x ∈ results -> y ∈ rest -> ranks_before x y.
Proof.
  assert (Hq : magnitude [1; 0]%R <> 0%R)
    by (apply magnitude_nonzero, Exists_cons_hd; lra).
  assert (Hm : 0 <= Z.min 2 (cfg_maxResults defaults)) by (vm_compute; discriminate).
  split; [exact Hq|]. split; [exact Hm|].
  exact (searchSimilar_top_k defaults "user1" "project1" scenarioStore [1; 0]%R 2
           scenarioStore_stored Hq Hm).
Defined.

Lemma searchSimilar_negative_limit_witness :
  Z.min (-1) (cfg_maxResults defaults) < 0
  /\ exists results,
       searchSimilar defaults "user1" "project1" [1; 0]%R (-1) scenarioStore = Ok results
       /\ length results = 2%nat.
Proof.
  assert (Hm : Z.min (-1) (cfg_maxResults defaults) < 0) by (vm_compute; reflexivity).
  assert (Hdim : Forall (fun data => length (h_embedding data) = length [1; 0]%R)
                   (storedHashes defaults "user1" "project1"
                      (sMembers (getProjectIndexKey defaults "user1" "project1") scenarioStore)
                      scenarioStore)).
  { eapply Forall_impl; [exact scenarioStore_stored|]. intros data [H _]. exact H. }
  split; [exact Hm|].
  destruct (searchSimilar_negative_limit defaults "user1" "project1" scenarioStore
              [1; 0]%R (-1) Hdim Hm) as (results & Hres & _ & Hlen).
  exists results. split; [exact Hres|]. rewrite Hlen. vm_compute. reflexivity.
Defined.

Lemma storeChunk_overwrites_witness :
  let c1 := {| id := "x"; content := "old"; type := "function";
               filePath := "x.ts"; name := None; embedding := Some [1; 0]%R |} in
  let c2 := {| id := "x"; content := "new"; type := "function";
               filePath := "x.ts"; name := None; embedding := Some [0; 1]%R |} in
  embedding c1 = Some [1; 0]%R /\ embedding c2 = Some [0; 1]%R /\ id c2 = id c1
  /\ exists r1 r2,
       storeChunk defaults "user1" "project1" c1 1 emptyRedis = Ok r1
       /\ storeChunk defaults "user1" "project1" c2 2 r1 = Ok r2
       /\ sMembers (getProjectIndexKey defaults "user1" "project1") r2
          = sMembers (getProjectIndexKey defaults "user1" "project1") r1
       /\ hGetAll (getChunkKey defaults "user1" "project1" "x") r2
          = Some (chunkHash c2 [0; 1]%R 2).
Proof.
  cbv zeta. split; [reflexivity|]. split; [reflexivity|]. split; [reflexivity|].
  exact (storeChunk_overwrites defaults "user1" "project1"
           {| id := "x"; content := "old"; type := "function";
              filePath := "x.ts"; name := None; embedding := Some [1; 0]%R |}
           {| id := "x"; content := "new"; type := "function";
              filePath := "x.ts"; name := None; embedding := Some [0; 1]%R |}
           [1; 0]%R [0; 1]%R 1 2 emptyRedis eq_refl eq_refl eq_refl).
Defined.

End VectorStore.


(* ===================================================================== *)
(** * Indexing: the worker's index handler over the store *)
(* ===================================================================== *)

Module Indexing.

Import VectorStore.

(** [ProgressInfo] (engine/src/types.ts). *)
Record ProgressInfo := {
  current : nat;
  total : nat;
  message : string;
  percentage : Z }.

(** An index job as [processJob] sees it end: the progress results
    published, the keyspace left behind, and the statistics of the
    'complete' result or the error thrown. *)
Record IndexRun := {
  progress : list ProgressInfo;
  store : Redis;
  outcome : result Stats }.

Section HandleIndex.

(** The store's configuration and the job's user and project. *)
Variable cfg : Config.
Variable userId projectId : string.

(** The collaborators: the AST parser on the job's project path, the
    chunker, the embedding generator at its [k]-th call, the rounding of
    [Math.round((processedCount / total) * 100)], and [Date.now()] at the
    [j]-th chunk of the [k]-th batch. *)
Variable parseCodebase : string -> result (list CodeChunk).
Variable chunkCodeChunks : list CodeChunk -> list CodeChunk.
Variable generateEmbeddingsForChunks : nat -> list CodeChunk -> result (list (list R)).
Variable roundPercent : nat -> nat -> Z.
Variable clock : nat -> nat -> Z.

Definition batchSize : nat := 20.

(** [batch[j].embedding = embeddings[j]] for every [j]; a missing entry
    leaves the chunk without embedding. *)
Fixpoint attach (batch : list CodeChunk) (embeddings : list (list R)) : list CodeChunk :=
  match batch with
  | [] => []
  | chunk :: rest =>
      {| id := id chunk; content := content chunk; type := type chunk;
         filePath := filePath chunk; name := name chunk;
         embedding := head embeddings |}
      :: attach rest (tail embeddings)
  end.

Definition progressAt (processedCount n : nat) : ProgressInfo :=
  {| current := processedCount;
     total := n;
     message := "Generating embeddings";
     percentage := roundPercent processedCount n |}.

(** The [for (let i = 0; i < chunkedChunks.length; i += batchSize)] loop;
    [k] counts the batches, [fuel] bounds the iterations. The third
    component is the error of the embedding call that threw, if any. *)
Fixpoint embedBatches (fuel : nat) (chunkedChunks : list CodeChunk)
  (i k processedCount : nat) (sent : list ProgressInfo) (r : Redis)
  : list ProgressInfo * Redis * option string :=
  match fuel with
  | O => (sent, r, None)
  | S fuel' =>
      if (i <? length chunkedChunks)%nat then
        let batch := firstn batchSize (skipn i chunkedChunks) in
        let sent' := sent ++ [progressAt processedCount (length chunkedChunks)] in
        match generateEmbeddingsForChunks k batch with
        | Throw m => (sent', r, Some m)
        | Ok embeddings =>
            embedBatches fuel' chunkedChunks (i + batchSize) (S k)
              (processedCount + length batch) sent'
              (storeChunks cfg userId projectId (attach batch embeddings) (clock k) r)
        end
      else (sent, r, None)
  end.

(** [handleIndex]: parse, chunk, clear the project, embed and store batch
    by batch, then read the statistics for the 'complete' result. *)
Definition handleIndex (projectPath : string) (r : Redis) : IndexRun :=
  match parseCodebase projectPath with
  | Throw m => {| progress := []; store := r; outcome := Throw m |}
  | Ok chunks =>
      let chunkedChunks := chunkCodeChunks chunks in
      let r0 := clearProject cfg userId projectId r in
      match embedBatches (length chunkedChunks) chunkedChunks 0 0 0 [] r0 with
      | (sent, r1, Some m) => {| progress := sent; store := r1; outcome := Throw m |}
      | (sent, r1, None) =>
          {| progress := sent; store := r1;
             outcome := Ok (getStats cfg userId projectId r1) |}
      end
  end.

End HandleIndex.

Section HandleIndexFacts.

Variable cfg : Config.
Variable userId projectId : string.
Variable parseCodebase : string -> result (list CodeChunk).
Variable chunkCodeChunks : list CodeChunk -> list CodeChunk.
Variable generateEmbeddingsForChunks : nat -> list CodeChunk -> result (list (list R)).
Variable roundPercent : nat -> nat -> Z.
Variable clock : nat -> nat -> Z.

Local Abbreviation indexKey := (getProjectIndexKey cfg userId projectId).
Local Abbreviation embedBatches :=
  (embedBatches cfg userId projectId generateEmbeddingsForChunks roundPercent clock).
Local Abbreviation handleIndex :=
  (handleIndex cfg userId projectId parseCodebase chunkCodeChunks
     generateEmbeddingsForChunks roundPercent clock).

(** The embedding generator answers a batch with one vector per chunk. *)
Definition full_batches : Prop :=
  forall k batch embeddings,
    generateEmbeddingsForChunks k batch = Ok embeddings ->
    length embeddings = length batch.

Lemma attach_members batch : forall embeddings j,
  length embeddings = length batch ->
  (exists c', c' ∈ attach batch embeddings /\ id c' = j /\ is_Some (embedding c'))
  <-> exists c, c ∈ batch /\ id c = j.
Proof.
  induction batch as [| c batch IH]; intros [| e es] j Hlen; try discriminate; cbn.
  - split; intros (x & Hx & _); inversion Hx.
  - cbn in Hlen. injection Hlen as Hlen. specialize (IH es j Hlen). split.
    + intros (c' & Hc' & Hid & He). apply elem_of_cons in Hc' as [-> | Hc'].
      * exists c. split; [apply elem_of_cons; auto | exact Hid].
      * destruct (proj1 IH) as (x & Hx & Hxj); [eauto|].
        exists x. split; [apply elem_of_cons; auto | exact Hxj].
    + intros (x & Hx & Hxj). apply elem_of_cons in Hx as [-> | Hx].
      * eexists. split; [apply elem_of_cons; left; reflexivity|].
        split; [exact Hxj | eexists; reflexivity].
      * destruct (proj2 IH) as (c' & Hc' & Hid & He); [eauto|].
        exists c'. split; [apply elem_of_cons; auto | auto].
Qed.

Lemma store_batch_index batch embeddings clk r j :
  length embeddings = length batch ->
  j ∈ sMembers indexKey (storeChunks cfg userId projectId (attach batch embeddings) clk r)
  <-> j ∈ sMembers indexKey r \/ exists c, c ∈ batch /\ id c = j.
Proof.
  intros Hlen. unfold storeChunks. rewrite storeChunksFrom_index.
  rewrite (attach_members batch embeddings j Hlen). reflexivity.
Qed.

(** The progress result published before batch number [q]. *)
Definition progressOf (n q : nat) : ProgressInfo :=
  progressAt roundPercent (batchSize * q) n.

(** The loop, by the number [k'] of batches stored when it ends. *)
Lemma embedBatches_spec (chunks : list CodeChunk) (Hfull : full_batches) :
  forall fuel i k processedCount sent r sent' r' err,
    i = (batchSize * k)%nat ->
    (length chunks <= i + batchSize * fuel)%nat ->
    processedCount = Nat.min i (length chunks) ->
    embedBatches fuel chunks i k processedCount sent r = (sent', r', err) ->
    exists k',
      (k <= k')%nat
      /\ (forall j, j ∈ sMembers indexKey r'
             <-> j ∈ sMembers indexKey r
                 \/ exists c, c ∈ take (batchSize * k' - i) (drop i chunks) /\ id c = j)
      /\ match err with
         | None =>
             (length chunks <= batchSize * k')%nat
             /\ (k' = k \/ batchSize * k' < length chunks + batchSize)%nat
             /\ sent' = sent ++ (progressOf (length chunks) <$> seq k (k' - k))
         | Some m =>
             (batchSize * k' < length chunks)%nat
             /\ generateEmbeddingsForChunks k' (take batchSize (drop (batchSize * k') chunks))
                = Throw m
             /\ sent' = sent ++ (progressOf (length chunks) <$> seq k (S k' - k))
         end.
Proof.
  change batchSize with 20%nat.
  assert (Hstop : forall i k sent r,
             i = (20 * k)%nat -> (length chunks <= i)%nat ->
             exists k',
               (k <= k')%nat
               /\ (forall j, j ∈ sMembers indexKey r
                      <-> j ∈ sMembers indexKey r
                          \/ exists c, c ∈ take (20 * k' - i) (drop i chunks)
                                       /\ id c = j)
               /\ (length chunks <= 20 * k')%nat
               /\ (k' = k \/ 20 * k' < length chunks + 20)%nat
               /\ sent = sent ++ (progressOf (length chunks) <$> seq k (k' - k))).
  { intros i k sent r Hi Hn. exists k. split; [lia|]. split.
    - intros j. replace (20 * k - i)%nat with 0%nat by lia. rewrite take_0.
      split; [auto|]. intros [H | (c & Hc & _)]; [exact H | inversion Hc].
    - split; [lia|]. split; [auto|]. rewrite Nat.sub_diag. cbn. rewrite app_nil_r.
      reflexivity. }
  induction fuel as [| fuel IH]; intros i k processedCount sent r sent' r' err Hi Hfuel Hp Hrun.
  - cbn in Hrun. inversion Hrun; subst. apply Hstop; [reflexivity | lia].
  - cbn [Indexing.embedBatches] in Hrun. change Indexing.batchSize with 20%nat in Hrun.
    destruct (i <? length chunks)%nat eqn:Hlt.
    2:{ inversion Hrun; subst. apply Nat.ltb_ge in Hlt. apply Hstop; [reflexivity | lia]. }
    apply Nat.ltb_lt in Hlt.
    assert (Hpi : processedCount = i) by lia.
    destruct (generateEmbeddingsForChunks k (take 20 (drop i chunks)))
      as [embeddings | m] eqn:Hgen.
    + apply Hfull in Hgen as Hlen.
      apply IH in Hrun as (k' & Hk' & Hmem & Herr);
        [| lia | lia | rewrite length_take, length_drop; lia].
      exists k'. split; [lia|]. split.
      * intros j. rewrite Hmem, (store_batch_index _ _ _ _ _ Hlen).
        replace (20 * k' - i)%nat
          with (20 + (20 * k' - (i + 20)))%nat by lia.
        rewrite <- take_take_drop, drop_drop. split.
        -- intros [[H | (c & Hc & Hj)] | (c & Hc & Hj)]; auto;
             right; exists c; (split; [apply elem_of_app; auto | exact Hj]).
        -- intros [H | (c & Hc & Hj)]; [auto|].
           apply elem_of_app in Hc as [Hc | Hc]; [left; right | right]; eauto.
      * assert (Hseq : forall len, (len = S (len - 1))%nat -> (1 <= len)%nat ->
                  (sent ++ [progressAt roundPercent processedCount (length chunks)])
                  ++ (progressOf (length chunks) <$> seq (S k) (len - 1))
                  = sent ++ (progressOf (length chunks) <$> seq k len)).
        { intros len Hl _. rewrite Hl at 2. cbn [seq fmap list_fmap].
          rewrite <- app_assoc. unfold progressOf at 2. change batchSize with 20%nat.
          rewrite Hpi, Hi. reflexivity. }
        destruct err as [m |].
        -- destruct Herr as (H1 & H2 & H3). split; [exact H1|]. split; [exact H2|].
           rewrite H3. replace (S k' - S k)%nat with (S k' - k - 1)%nat by lia.
           apply Hseq; lia.
        -- destruct Herr as (H1 & H2 & H3). split; [exact H1|].
           split; [right; destruct H2 as [H2 | H2]; [subst k'; lia | exact H2]|].
           rewrite H3. replace (k' - S k)%nat with (k' - k - 1)%nat by lia.
           apply Hseq; lia.
    + inversion Hrun; subst sent' r' err. exists k. split; [lia|]. split.
      * intros j. replace (20 * k - i)%nat with 0%nat by lia. rewrite take_0.
        split; [auto|]. intros [H | (c & Hc & _)]; [exact H | inversion Hc].
      * split; [lia|]. rewrite <- Hi. split; [exact Hgen|].
        replace (S k - k)%nat with 1%nat by lia. cbn [seq fmap list_fmap].
        unfold progressOf. change batchSize with 20%nat. rewrite Hpi, Hi. reflexivity.
Qed.

(** X24. Progress of an index job: when the project parses into n chunks
    (after chunking) and no embedding call fails, exactly ceil(n/20)
    progress results are published, the q-th reporting current = 20*q of
    total = n; every one of them has current < total, so no progress result
    ever reports the job as finished. *)
Theorem handleIndex_progress :
  forall (projectPath : string) (r : Redis) (chunks : list CodeChunk),
    parseCodebase projectPath = Ok chunks ->
    full_batches ->
    (forall k batch, exists embeddings,
        generateEmbeddingsForChunks k batch = Ok embeddings) ->
    let n := length (chunkCodeChunks chunks) in
    let run := handleIndex projectPath r in
    progress run = (progressOf n <$> seq 0 ((n + 19) / 20))
    /\ Forall (fun p => (current p < total p)%nat /\ total p = n) (progress run)
    /\ exists stats, outcome run = Ok stats.
Proof.
  intros projectPath r chunks Hparse Hfull Hgen n run.
  subst run. unfold Indexing.handleIndex. rewrite Hparse. cbv zeta.
  destruct (embedBatches (length (chunkCodeChunks chunks)) (chunkCodeChunks chunks)
              0 0 0 [] (clearProject cfg userId projectId r))
    as [[sent r1] err] eqn:Hrun.
  apply (embedBatches_spec (chunkCodeChunks chunks) Hfull) in Hrun
    as (k' & _ & _ & Herr);
    [| reflexivity | change batchSize with 20%nat; lia | reflexivity].
  fold n in Herr. change batchSize with 20%nat in Herr.
  destruct err as [m |].
  { destruct Herr as (_ & Hthrow & _). destruct (Hgen k' (take 20 (drop (20 * k') (chunkCodeChunks chunks))))
      as [es Hes]. congruence. }
  destruct Herr as (Hge & Hmin & Hsent). cbn [progress outcome].
  assert (Hk : k' = ((n + 19) / 20)%nat).
  { destruct Hmin as [-> | Hmin].
    - assert (n = 0%nat) by lia. subst n. rewrite H. reflexivity.
    - apply (Nat.div_unique (n + 19) 20 k' (n + 19 - 20 * k')); lia. }
  rewrite Nat.sub_0_r in Hsent. cbn [app] in Hsent. rewrite Hsent, Hk.
  split; [reflexivity|]. split; [|eauto].
  apply Forall_fmap, Forall_forall. intros q Hq. apply elem_of_seq in Hq.
  cbn. change batchSize with 20%nat. split; [|reflexivity].
  assert (20 * ((n + 19) / 20) <= n + 19)%nat by (apply Nat.Div0.mul_div_le). lia.
Qed.

(** X25. Result of an index job: when no embedding call fails, the ids
    registered for the project afterwards are exactly the ids of the job's
    chunks, whatever was indexed before; with distinct chunk ids the
    'complete' result reports totalChunks = n. *)
Theorem handleIndex_registers_all :
  forall (projectPath : string) (r : Redis) (chunks : list CodeChunk),
    parseCodebase projectPath = Ok chunks ->
    full_batches ->
    (forall k batch, exists embeddings,
        generateEmbeddingsForChunks k batch = Ok embeddings) ->
    let chunked := chunkCodeChunks chunks in
    let run := handleIndex projectPath r in
    (forall j, j ∈ sMembers indexKey (store run) <-> exists c, c ∈ chunked /\ id c = j)
    /\ (NoDup (id <$> chunked) ->
        exists stats, outcome run = Ok stats /\ totalChunks stats = length chunked).
Proof.
  intros projectPath r chunks Hparse Hfull Hgen chunked run.
  subst run. unfold Indexing.handleIndex. rewrite Hparse. cbv zeta. fold chunked.
  destruct (embedBatches (length chunked) chunked 0 0 0 []
              (clearProject cfg userId projectId r))
    as [[sent r1] err] eqn:Hrun.
  apply (embedBatches_spec chunked Hfull) in Hrun as (k' & _ & Hmem & Herr);
    [| reflexivity | change batchSize with 20%nat; lia | reflexivity].
  change batchSize with 20%nat in Herr, Hmem.
  destruct err as [m |].
  { destruct Herr as (_ & Hthrow & _).
    destruct (Hgen k' (take 20 (drop (20 * k') chunked))) as [es Hes]. congruence. }
  destruct Herr as (Hge & _ & _). cbn [store outcome].
  assert (Hall : forall j, j ∈ sMembers indexKey r1 <-> exists c, c ∈ chunked /\ id c = j).
  { intros j. rewrite Hmem, (clearProject_index_empty cfg userId projectId r).
    rewrite Nat.sub_0_r, drop_0, take_ge by lia. split.
    - intros [H | H]; [inversion H | exact H].
    - intros H. right. exact H. }
  split; [exact Hall|]. intros Hnd. eexists. split; [reflexivity|].
  unfold getStats. cbn [totalChunks]. rewrite <- (length_fmap id chunked).
  apply Permutation_length, NoDup_Permutation; [apply NoDup_elements | exact Hnd |].
  intros j. rewrite Hall. split.
  - intros (c & Hc & <-). apply list_elem_of_fmap. eauto.
  - intros Hj. apply list_elem_of_fmap in Hj as (c & -> & Hc). eauto.
Qed.

(** X26. Failure of an index job. If the parser throws, nothing has been
    touched: no result is published and the project's index is as before.
    If an embedding call throws, the earlier index is gone and the project
    holds exactly the chunks of the batches stored before the failing one:
    with k batches stored, k+1 progress results have been published and the
    registered ids are those of the first 20*k chunks. *)
Theorem handleIndex_failure :
  full_batches ->
  forall (projectPath : string) (r : Redis) (m : string),
    (parseCodebase projectPath = Throw m ->
     handleIndex projectPath r = {| progress := []; store := r; outcome := Throw m |})
    /\ (forall chunks,
          parseCodebase projectPath = Ok chunks ->
          outcome (handleIndex projectPath r) = Throw m ->
          let chunked := chunkCodeChunks chunks in
          let run := handleIndex projectPath r in
          exists k,
            (20 * k < length chunked)%nat
            /\ generateEmbeddingsForChunks k (take 20 (drop (20 * k) chunked)) = Throw m
            /\ length (progress run) = S k
            /\ forall j, j ∈ sMembers indexKey (store run)
                         <-> exists c, c ∈ take (20 * k) chunked /\ id c = j).
Proof.
  intros Hfull projectPath r m. split.
  - intros Hparse. unfold Indexing.handleIndex. rewrite Hparse. reflexivity.
  - intros chunks Hparse Hout chunked run. subst run. revert Hout.
    unfold Indexing.handleIndex. rewrite Hparse. cbv zeta. fold chunked.
    destruct (embedBatches (length chunked) chunked 0 0 0 []
                (clearProject cfg userId projectId r))
      as [[sent r1] err] eqn:Hrun.
    apply (embedBatches_spec chunked Hfull) in Hrun as (k' & _ & Hmem & Herr);
      [| reflexivity | change batchSize with 20%nat; lia | reflexivity].
    change batchSize with 20%nat in Herr, Hmem.
    destruct err as [m' |]; cbn [outcome progress store]; [|discriminate].
    intros Hout. inversion Hout; subst m'. destruct Herr as (Hlt & Hthrow & Hsent).
    exists k'. split; [exact Hlt|]. split; [exact Hthrow|]. split.
    + rewrite Hsent. cbn [app]. rewrite length_fmap, length_seq. lia.
    + intros j. rewrite Hmem, (clearProject_index_empty cfg userId projectId r).
      rewrite Nat.sub_0_r, drop_0. split.
      * intros [H | H]; [inversion H | exact H].
      * intros H. right. exact H.
Qed.

End HandleIndexFacts.

(** ** An index job of 25 chunks *)

Definition sampleChunks : list CodeChunk := unitChunk <$> seq 0 25.

(** An embedding generator that answers every batch, and one that fails
    from its second call on. *)
Definition embedAll (k : nat) (batch : list CodeChunk) : result (list (list R)) :=
  Ok ((fun _ => [1%R]) <$> batch).

Definition embedFirstOnly (k : nat) (batch : list CodeChunk) : result (list (list R)) :=
  if (k <? 1)%nat then Ok ((fun _ => [1%R]) <$> batch)
  else Throw "Batch embedding generation failed: Error: 429".

Lemma embedAll_full : full_batches embedAll.
Proof. intros k batch es H. inversion H. apply length_fmap. Qed.

Lemma embedFirstOnly_full : full_batches embedFirstOnly.
Proof.
  intros k batch es H. unfold embedFirstOnly in H.
  destruct (k <? 1)%nat; inversion H. apply length_fmap.
Qed.

Lemma handleIndex_progress_witness :
  let run := handleIndex defaults "user1" "project1" (fun _ => Ok sampleChunks)
               (fun chunks => chunks) embedAll (fun _ _ => 0) (fun _ _ => 0)
               "/repo" scenarioStore in
  full_batches embedAll
  /\ (forall k batch, exists embeddings, embedAll k batch = Ok embeddings)
  /\ (current <$> progress run) = [0; 20]%nat
  /\ (total <$> progress run) = [25; 25]%nat.
Proof.
  cbv zeta.
  assert (Hgen : forall k batch, exists embeddings, embedAll k batch = Ok embeddings)
    by (intros k batch; eexists; reflexivity).
  split; [exact embedAll_full|]. split; [exact Hgen|].
  destruct (handleIndex_progress defaults "user1" "project1" (fun _ => Ok sampleChunks)
              (fun chunks => chunks) embedAll (fun _ _ => 0) (fun _ _ => 0)
              "/repo" scenarioStore sampleChunks eq_refl embedAll_full Hgen)
    as (Hp & _ & _).
  rewrite Hp. split; reflexivity.
Defined.

Lemma handleIndex_registers_all_witness :
  let run := handleIndex defaults "user1" "project1" (fun _ => Ok sampleChunks)
               (fun chunks => chunks) embedAll (fun _ _ => 0) (fun _ _ => 0)
               "/repo" scenarioStore in
  full_batches embedAll
  /\ (forall k batch, exists embeddings, embedAll k batch = Ok embeddings)
  /\ NoDup (id <$> sampleChunks)
  /\ exists stats, outcome run = Ok stats /\ totalChunks stats = 25%nat.
Proof.
  cbv zeta.
  assert (Hgen : forall k batch, exists embeddings, embedAll k batch = Ok embeddings)
    by (intros k batch; eexists; reflexivity).
  assert (Hnd : NoDup (id <$> sampleChunks)) by (apply (bool_decide_unpack (NoDup (id <$> sampleChunks))); vm_compute; exact I).
  split; [exact embedAll_full|]. split; [exact Hgen|]. split; [exact Hnd|].
  destruct (handleIndex_registers_all defaults "user1" "project1" (fun _ => Ok sampleChunks)
              (fun chunks => chunks) embedAll (fun _ _ => 0) (fun _ _ => 0)
              "/repo" scenarioStore sampleChunks eq_refl embedAll_full Hgen)
    as (_ & Hstats).
  exact (Hstats Hnd).
Defined.

Lemma handleIndex_failure_witness :
  let run := handleIndex defaults "user1" "project1" (fun _ => Ok sampleChunks)
               (fun chunks => chunks) embedFirstOnly (fun _ _ => 0) (fun _ _ => 0)
               "/repo" scenarioStore in
  full_batches embedFirstOnly
  /\ outcome run = Throw "Batch embedding generation failed: Error: 429"
  /\ exists k,
       (20 * k < length sampleChunks)%nat
       /\ length (progress run) = S k
       /\ forall j, j ∈ sMembers (getProjectIndexKey defaults "user1" "project1") (store run)
                    <-> exists c, c ∈ take (20 * k) sampleChunks /\ id c = j.
Proof.
  cbv zeta.
  assert (Hout : outcome (handleIndex defaults "user1" "project1" (fun _ => Ok sampleChunks)
                            (fun chunks => chunks) embedFirstOnly (fun _ _ => 0)
                            (fun _ _ => 0) "/repo" scenarioStore)
                 = Throw "Batch embedding generation failed: Error: 429")
    by reflexivity.
  split; [exact embedFirstOnly_full|]. split; [exact Hout|].
  destruct (handleIndex_failure defaults "user1" "project1" (fun _ => Ok sampleChunks)
              (fun chunks => chunks) embedFirstOnly (fun _ _ => 0) (fun _ _ => 0)
              embedFirstOnly_full "/repo" scenarioStore
              "Batch embedding generation failed: Error: 429") as [_ H].
  destruct (H sampleChunks eq_refl Hout) as (k & H1 & _ & H3 & H4).
  exists k. split; [exact H1|]. split; [exact H3 | exact H4].
Defined.

End Indexing.

(* ===================================================================== *)
(** * Chunker: splitting large chunks before they are embedded *)
(* ===================================================================== *)

Module Chunker.

Import VectorStore.

(** [ChunkerConfig]; a setting that is not given is [None]. Line and
    character counts are integers. *)
Record ChunkerConfig := {
  maxLinesPerChunk : option Z;
  maxCharsPerChunk : option Z;
  preserveBoundaries : option bool;
  overlapLines : option Z }.

(** The constructor: the defaults, overwritten by the settings given. *)
Definition constructor (config : ChunkerConfig) : ChunkerConfig :=
  {| maxLinesPerChunk := Some (default 100 (maxLinesPerChunk config));
     maxCharsPerChunk := Some (default 5000 (maxCharsPerChunk config));
     preserveBoundaries := Some (default true (preserveBoundaries config));
     overlapLines := Some (default 5 (overlapLines config)) |}.

(** [setting || fallback] on a number: 0 and a missing setting give the
    fallback. *)
Definition orNumber (setting : option Z) (fallback : Z) : Z :=
  match setting with
  | Some v => if v =? 0 then fallback else v
  | None => fallback
  end.

Definition maxLines (config : ChunkerConfig) : Z := orNumber (maxLinesPerChunk config) 100.
Definition maxChars (config : ChunkerConfig) : Z := orNumber (maxCharsPerChunk config) 5000.
Definition overlap (config : ChunkerConfig) : Z := orNumber (overlapLines config) 5.
Definition preserve (config : ChunkerConfig) : bool := default false (preserveBoundaries config).

Definition LF : Ascii.ascii := Ascii.ascii_of_nat 10.

(** [content.split('\n')] *)
Fixpoint split (s : string) : list string :=
  match s with
  | EmptyString => [EmptyString]
  | String c rest =>
      if Ascii.eqb c LF then EmptyString :: split rest
      else match split rest with
           | first :: others => String c first :: others
           | [] => [String c EmptyString]
           end
  end.

(** [lines.join('\n')] *)
Fixpoint join (lines : list string) : string :=
  match lines with
  | [] => EmptyString
  | line :: rest =>
      match rest with
      | [] => line
      | _ :: _ => line +:+ String LF (join rest)
      end
  end.

(** The relative indices of [Array.prototype.slice]: a negative index
    counts from the end, and both are clamped to the array. *)
Definition relativeIndex (len : nat) (k : Z) : nat :=
  if k <? 0 then Z.to_nat (Z.max (Z.of_nat len + k) 0)
  else Z.to_nat (Z.min k (Z.of_nat len)).

(** [array.slice(start)] *)
Definition sliceFrom {A} (start : Z) (l : list A) : list A :=
  drop (relativeIndex (length l) start) l.

(** [array.slice(start, end)] *)
Definition slice {A} (start stop : Z) (l : list A) : list A :=
  take (relativeIndex (length l) stop - relativeIndex (length l) start)
       (drop (relativeIndex (length l) start) l).

(** A count in a template string. *)
Definition decimal (n : nat) : string := NilEmpty.string_of_uint (Nat.to_uint n).

(** [`${chunk.id}:chunk:${chunks.length}`] *)
Definition pieceId (id : string) (k : nat) : string := id +:+ ":chunk:" +:+ decimal k.

(** The object pushed for the [k]-th piece of [chunk]; it has the five
    properties below and no embedding. *)
Definition piece (chunk : CodeChunk) (k : nat) (lines : list string) : CodeChunk :=
  {| id := pieceId (id chunk) k;
     content := join lines;
     type := type chunk;
     filePath := filePath chunk;
     name := match name chunk with
             | Some n => if String.eqb n "" then None
                         else Some (n +:+ "_chunk_" +:+ decimal k)
             | None => None
             end;
     embedding := None |}.

Section CodeChunker.

(** [this.config], and two functions of the text that are left open: which
    lines [isBoundaryLine] accepts (it trims the line and tests how it
    starts), and [content.length], the number of UTF-16 code units. *)
Variable config : ChunkerConfig.
Variable isBoundaryLine : string -> bool.
Variable utf16Length : string -> nat.

Definition isChunkSmallEnough (chunk : CodeChunk) : bool :=
  let lines := split (content chunk) in
  let chars := utf16Length (content chunk) in
  (Z.of_nat (length lines) <=? maxLines config) && (Z.of_nat chars <=? maxChars config).

(** One turn of the loop of [chunkByBoundaries], on [chunks],
    [currentChunk] and [currentLineCount]. *)
Definition boundaryStep (chunk : CodeChunk) (st : list CodeChunk * list string * Z)
  (line : string) : list CodeChunk * list string * Z :=
  let '(chunks, currentChunk, currentLineCount) := st in
  let currentChunk := currentChunk ++ [line] in
  let currentLineCount := currentLineCount + 1 in
  let isBoundary := isBoundaryLine line in
  let isSizeLimit := maxLines config <=? currentLineCount in
  if (isBoundary || isSizeLimit) && (0 <? length currentChunk)%nat then
    (chunks ++ [piece chunk (length chunks) currentChunk],
     sliceFrom (- overlap config) currentChunk,
     overlap config)
  else (chunks, currentChunk, currentLineCount).

Definition chunkByBoundaries (chunk : CodeChunk) (lines : list string) : list CodeChunk :=
  let '(chunks, currentChunk, _) := fold_left (boundaryStep chunk) lines ([], [], 0) in
  if (0 <? length currentChunk)%nat
  then chunks ++ [piece chunk (length chunks) currentChunk]
  else chunks.

(** The loop of [chunkByLines] from index [i]; [fuel] bounds the number of
    turns, and [None] says that they did not suffice. *)
Fixpoint linesLoop (fuel : nat) (chunk : CodeChunk) (lines : list string) (i : Z)
  (chunks : list CodeChunk) : option (list CodeChunk) :=
  if i <? Z.of_nat (length lines) then
    match fuel with
    | O => None
    | S fuel' =>
        let endIndex := Z.min (i + maxLines config) (Z.of_nat (length lines)) in
        let chunkLines := slice i endIndex lines in
        linesLoop fuel' chunk lines (i + (maxLines config - overlap config))
          (chunks ++ [piece chunk (length chunks) chunkLines])
    end
  else Some chunks.

Definition chunkByLines (fuel : nat) (chunk : CodeChunk) (lines : list string)
  : option (list CodeChunk) :=
  linesLoop fuel chunk lines 0 [].

Definition chunkCodeChunk (fuel : nat) (chunk : CodeChunk) : option (list CodeChunk) :=
  if isChunkSmallEnough chunk then Some [chunk]
  else
    let lines := split (content chunk) in
    if preserve config then Some (chunkByBoundaries chunk lines)
    else chunkByLines fuel chunk lines.

(** [chunkCodeChunks]: the pieces of every chunk, pushed in order. *)
Definition chunkCodeChunks (fuel : nat) (chunks : list CodeChunk) : option (list CodeChunk) :=
  fold_left
    (fun result chunk =>
       result ≫= fun pushed =>
       chunkCodeChunk fuel chunk ≫= fun chunked => Some (pushed ++ chunked))
    chunks (Some []).

End CodeChunker.

(** ** Lines *)

Fixpoint hasLF (s : string) : bool :=
  match s with
  | EmptyString => false
  | String c rest => Ascii.eqb c LF || hasLF rest
  end.

Lemma split_cons s : exists first others, split s = first :: others.
Proof.
  induction s as [| c s IH]; cbn [split]; [eauto|].
  destruct (Ascii.eqb c LF); [eauto|].
  destruct IH as (f & o & ->). eauto.
Qed.

Lemma split_no_LF s : Forall (fun line => hasLF line = false) (split s).
Proof.
  induction s as [| c s IH]; cbn [split]; [repeat constructor|].
  destruct (Ascii.eqb c LF) eqn:Hc; [constructor; [reflexivity | exact IH]|].
  destruct (split s) as [| f o]; [repeat constructor; cbn [hasLF]; rewrite Hc; reflexivity|].
  apply Forall_cons in IH as [Hf Ho].
  constructor; [cbn [hasLF]; rewrite Hc; exact Hf | exact Ho].
Qed.

Lemma split_single line : hasLF line = false -> split line = [line].
Proof.
  induction line as [| c l IH]; cbn [split hasLF]; [reflexivity|].
  intros H. apply orb_false_iff in H as [Hc Hl]. rewrite Hc, (IH Hl). reflexivity.
Qed.

Lemma split_line line s :
  hasLF line = false -> split (line +:+ String LF s) = line :: split s.
Proof.
  induction line as [| c l IH]; [reflexivity|].
  change (String c l +:+ String LF s) with (String c (l +:+ String LF s)).
  cbn [split hasLF].
  intros H. apply orb_false_iff in H as [Hc Hl]. rewrite Hc, (IH Hl). reflexivity.
Qed.

Lemma split_join lines :
  lines <> [] -> Forall (fun line => hasLF line = false) lines -> split (join lines) = lines.
Proof.
  induction lines as [| l ls IH]; [congruence|]. intros _ H.
  apply Forall_cons in H as [Hl Hls].
  destruct ls as [| l2 ls]; [apply split_single; exact Hl|].
  change (join (l :: l2 :: ls)) with (l +:+ String LF (join (l2 :: ls))).
  rewrite (split_line _ _ Hl), IH; [reflexivity | congruence | exact Hls].
Qed.

(** ** Piece identifiers *)

Lemma list_ascii_of_string_app a b :
  list_ascii_of_string (a +:+ b) = list_ascii_of_string a ++ list_ascii_of_string b.
Proof.
  induction a as [| c a IH]; [reflexivity|].
  change (String c a +:+ b) with (String c (a +:+ b)).
  cbn [list_ascii_of_string]. rewrite IH. reflexivity.
Qed.

Lemma list_ascii_of_string_inj a b :
  list_ascii_of_string a = list_ascii_of_string b -> a = b.
Proof.
  intros H. rewrite <- (string_of_list_ascii_of_string a), H.
  apply string_of_list_ascii_of_string.
Qed.

Definition colon : Ascii.ascii := Ascii.ascii_of_nat 58.

Definition colons (l : list Ascii.ascii) : nat := count_occ Ascii.ascii_dec l colon.

Lemma decimal_colons k : colons (list_ascii_of_string (decimal k)) = 0%nat.
Proof.
  unfold decimal. generalize (Nat.to_uint k). intros d.
  induction d; cbn; try reflexivity; exact IHd.
Qed.

Lemma decimal_inj k k' : decimal k = decimal k' -> k = k'.
Proof.
  unfold decimal. intros H.
  assert (Hd : Some (Nat.to_uint k) = Some (Nat.to_uint k'))
    by (rewrite <- !NilEmpty.usu, H; reflexivity).
  injection Hd as Hd.
  rewrite <- (DecimalNat.Unsigned.of_to k), Hd. apply DecimalNat.Unsigned.of_to.
Qed.

Lemma pieceId_inj a k b k' : pieceId a k = pieceId b k' -> a = b /\ k = k'.
Proof.
  assert (Hgen : forall la lb dk dk' : list Ascii.ascii,
             colons dk = 0%nat -> colons dk' = 0%nat ->
             forall t, la = lb ++ t ->
             list_ascii_of_string ":chunk:" ++ dk' = t ++ list_ascii_of_string ":chunk:" ++ dk ->
             t = []).
  { intros la lb dk dk' Hk Hk' t _ Ht.
    destruct t as [| c t]; [reflexivity|].
    assert (Hc : c = colon) by (injection Ht as Hc _; rewrite <- Hc; reflexivity).
    apply (f_equal colons) in Ht. unfold colons in *.
    rewrite !count_occ_app, Hk, Hk' in Ht. subst c.
    rewrite (count_occ_cons_eq Ascii.ascii_dec t eq_refl) in Ht. lia. }
  unfold pieceId. intros H. apply (f_equal list_ascii_of_string) in H.
  rewrite !list_ascii_of_string_app in H.
  destruct (app_eq_app _ _ _ _ H) as [t [[Ha Hr] | [Hb Hr]]].
  - assert (t = []) as -> by
        (eapply (Hgen _ _ _ _ (decimal_colons k) (decimal_colons k')); eassumption).
    rewrite app_nil_r in Ha. cbn [app] in Hr.
    split; [apply list_ascii_of_string_inj; exact Ha|].
    apply decimal_inj, list_ascii_of_string_inj.
    apply (app_inv_head (list_ascii_of_string ":chunk:")). symmetry. exact Hr.
  - assert (t = []) as -> by
        (eapply (Hgen _ _ _ _ (decimal_colons k') (decimal_colons k)); eassumption).
    rewrite app_nil_r in Hb. cbn [app] in Hr.
    split; [apply list_ascii_of_string_inj; symmetry; exact Hb|].
    apply decimal_inj, list_ascii_of_string_inj.
    apply (app_inv_head (list_ascii_of_string ":chunk:")). exact Hr.
Qed.

(** ** The pieces of a chunk *)

(** The pieces made of consecutive groups of lines. *)
Definition pieces (chunk : CodeChunk) (groups : list (list string)) : list CodeChunk :=
  imap (piece chunk) groups.

Lemma sliceFrom_subseteq {A} (k : Z) (l : list A) x : x ∈ sliceFrom k l -> x ∈ l.
Proof. apply subseteq_drop. Qed.

Lemma sliceFrom_length {A} (o : Z) (l : list A) :
  0 < o -> Z.of_nat (length (sliceFrom (- o) l)) <= o.
Proof.
  intros Ho. unfold sliceFrom, relativeIndex.
  destruct (Z.ltb_spec (- o) 0); [|lia]. rewrite length_drop. lia.
Qed.

Lemma pieces_snoc chunk groups g :
  pieces chunk groups ++ [piece chunk (length (pieces chunk groups)) g]
  = pieces chunk (groups ++ [g]).
Proof.
  unfold pieces. rewrite imap_app, length_imap. cbn. rewrite Nat.add_0_r. reflexivity.
Qed.

Lemma pieces_ids chunk groups :
  id <$> pieces chunk groups = pieceId (id chunk) <$> seq 0 (length groups).
Proof. unfold pieces. rewrite fmap_imap. apply (imap_seq_0 groups (pieceId (id chunk))). Qed.

Lemma pieces_lines chunk groups p :
  Forall (fun g => g <> [] /\ Forall (fun line => hasLF line = false) g) groups ->
  p ∈ pieces chunk groups ->
  exists g, g ∈ groups /\ split (content p) = g.
Proof.
  intros Hg Hp. apply elem_of_lookup_imap_1 in Hp as (k & g & -> & Hk).
  assert (Hin : g ∈ groups) by (apply list_elem_of_lookup; eauto). clear Hk. rename Hin into Hk. exists g. split; [exact Hk|].
  rewrite Forall_forall in Hg. destruct (Hg g Hk) as [Hne Hlf].
  apply split_join; assumption.
Qed.

(** ** Runs of lines *)

(** The run of the lines at positions [fst w], ..., [snd w - 1]. *)
Definition window (lines : list string) (w : nat * nat) : list string :=
  take (snd w - fst w) (drop (fst w) lines).

(** Runs that follow one another without a gap: each run starts at or
    after the start of the one before and at or before its end, and ends
    at or after it. *)
Fixpoint chained (windows : list (nat * nat)) : Prop :=
  match windows with
  | w :: rest =>
      match rest with
      | w' :: _ => (fst w <= fst w' <= snd w /\ snd w <= snd w')%nat /\ chained rest
      | [] => True
      end
  | [] => True
  end.

Lemma chained_snoc windows w' :
  chained windows ->
  (forall w, last windows = Some w -> (fst w <= fst w' <= snd w /\ snd w <= snd w')%nat) ->
  chained (windows ++ [w']).
Proof.
  induction windows as [| w windows IH]; intros Hc Hlast; [exact I|].
  destruct windows as [| w2 windows].
  - cbn. split; [apply Hlast; reflexivity | exact I].
  - destruct Hc as [Hw Hc]. change (chained (w :: w2 :: (windows ++ [w']))).
    cbn [chained]. split; [exact Hw|].
    apply IH; [exact Hc|]. intros w0 H0. apply Hlast. rewrite last_cons_cons. exact H0.
Qed.

Lemma window_app done rest w :
  (snd w <= length done)%nat -> window (done ++ rest) w = window done w.
Proof.
  intros He. unfold window.
  destruct (le_lt_dec (fst w) (length done)) as [Hs | Hs].
  - rewrite drop_app_le by exact Hs. apply take_app_le. rewrite length_drop. lia.
  - replace (snd w - fst w)%nat with 0%nat by lia. reflexivity.
Qed.

Lemma window_length lines w :
  (snd w <= length lines)%nat -> length (window lines w) = (snd w - fst w)%nat.
Proof. intros He. unfold window. rewrite length_take, length_drop. lia. Qed.

Lemma relativeIndex_le len k : (relativeIndex len k <= len)%nat.
Proof. unfold relativeIndex. destruct (Z.ltb_spec k 0); lia. Qed.

(** The pieces made of non-empty groups of lines without line feed have
    those groups as their lines. *)
Lemma pieces_split chunk groups :
  Forall (fun g => g <> [] /\ Forall (fun line => hasLF line = false) g) groups ->
  (fun p => split (content p)) <$> pieces chunk groups = groups.
Proof.
  intros Hg. unfold pieces. rewrite fmap_imap. apply list_eq. intros i.
  rewrite list_lookup_imap. destruct (groups !! i) as [g |] eqn:Hi; [|reflexivity].
  cbn. f_equal. rewrite Forall_lookup in Hg. destruct (Hg i g Hi) as [Hne Hlf].
  apply split_join; assumption.
Qed.

Section CodeChunkerFacts.

Variable config : ChunkerConfig.
Variable isBoundaryLine : string -> bool.
Variable utf16Length : string -> nat.

Local Abbreviation boundaryStep := (boundaryStep config isBoundaryLine).
Local Abbreviation chunkByBoundaries := (chunkByBoundaries config isBoundaryLine).
Local Abbreviation linesLoop := (linesLoop config).
Local Abbreviation isChunkSmallEnough := (isChunkSmallEnough config utf16Length).
Local Abbreviation chunkCodeChunk := (chunkCodeChunk config isBoundaryLine utf16Length).
Local Abbreviation chunkCodeChunks := (chunkCodeChunks config isBoundaryLine utf16Length).

(** What the loop of [chunkByBoundaries] keeps true, [done] being the
    lines taken so far. *)
Definition boundaryInv (chunk : CodeChunk) (done : list string)
  (st : list CodeChunk * list string * Z) : Prop :=
  let '(chunks, currentChunk, currentLineCount) := st in
  exists groups,
    chunks = pieces chunk groups
    /\ Forall (fun g => g <> [] /\ forall line, line ∈ g -> line ∈ done) groups
    /\ (forall line, line ∈ currentChunk -> line ∈ done)
    /\ (forall line, line ∈ done ->
          line ∈ currentChunk \/ exists g, g ∈ groups /\ line ∈ g)
    /\ (0 < overlap config < maxLines config ->
          Z.of_nat (length currentChunk) <= currentLineCount
          /\ currentLineCount < maxLines config
          /\ Forall (fun g => Z.of_nat (length g) <= maxLines config) groups).

Lemma boundaryStep_inv chunk done st line :
  boundaryInv chunk done st -> boundaryInv chunk (done ++ [line]) (boundaryStep chunk st line).
Proof.
  destruct st as [[chunks cur] count]. intros (groups & Hc & Hg & Hcur & Hcov & Hb).
  unfold Chunker.boundaryStep.
  assert (Hlen : (0 <? length (cur ++ [line]))%nat = true)
    by (apply Nat.ltb_lt; rewrite length_app; cbn; lia).
  rewrite Hlen, andb_true_r.
  assert (Hmono : Forall (fun g => g <> [] /\ forall l, l ∈ g -> l ∈ done ++ [line]) groups).
  { eapply Forall_impl; [exact Hg|]. intros g [Hne Hin]. split; [exact Hne|].
    intros l Hl. apply elem_of_app. left. auto. }
  destruct (isBoundaryLine line || (maxLines config <=? count + 1)) eqn:E.
  - exists (groups ++ [cur ++ [line]]).
    refine (conj _ (conj _ (conj _ (conj _ _)))).
    + subst chunks. apply pieces_snoc.
    + apply Forall_app. split; [exact Hmono|].
      constructor; [|constructor]. split; [destruct cur; discriminate|].
      intros l Hl. apply elem_of_app in Hl as [Hl | Hl]; apply elem_of_app; auto.
    + intros l Hl. apply sliceFrom_subseteq in Hl.
      apply elem_of_app in Hl as [Hl | Hl]; apply elem_of_app; auto.
    + assert (Hlast : cur ++ [line] ∈ groups ++ [cur ++ [line]])
        by (apply elem_of_app; right; apply list_elem_of_singleton; reflexivity).
      intros l Hl. right. apply elem_of_app in Hl as [Hl | Hl].
      * destruct (Hcov l Hl) as [Hin | (g & Hgin & Hlg)].
        -- exists (cur ++ [line]). split; [exact Hlast | apply elem_of_app; left; exact Hin].
        -- exists g. split; [apply elem_of_app; left; exact Hgin | exact Hlg].
      * exists (cur ++ [line]). split; [exact Hlast | apply elem_of_app; right; exact Hl].
    + intros H. destruct (Hb H) as (H1 & H2 & H3).
      split; [apply sliceFrom_length; lia|]. split; [lia|].
      apply Forall_app. split; [exact H3|].
      constructor; [|constructor]. rewrite length_app. cbn. lia.
  - apply orb_false_iff in E as [_ E]. apply Z.leb_gt in E.
    exists groups.
    refine (conj _ (conj _ (conj _ (conj _ _)))).
    + exact Hc.
    + exact Hmono.
    + intros l Hl. apply elem_of_app in Hl as [Hl | Hl]; apply elem_of_app; auto.
    + intros l Hl. apply elem_of_app in Hl as [Hl | Hl].
      * destruct (Hcov l Hl) as [Hin | Hex]; [left; apply elem_of_app; auto | right; exact Hex].
      * left. apply elem_of_app. right. exact Hl.
    + intros H. destruct (Hb H) as (H1 & H2 & H3).
      split; [rewrite length_app; cbn; lia|]. split; [lia | exact H3].
Qed.

Lemma boundaryFold_inv chunk lines : forall done st,
  boundaryInv chunk done st ->
  boundaryInv chunk (done ++ lines) (fold_left (boundaryStep chunk) lines st).
Proof.
  induction lines as [| line lines IH]; intros done st H.
  - rewrite app_nil_r. exact H.
  - cbn [fold_left]. replace (done ++ line :: lines) with ((done ++ [line]) ++ lines)
      by (rewrite <- app_assoc; reflexivity).
    apply IH, boundaryStep_inv, H.
Qed.

(** [chunkByBoundaries] cuts the lines into non-empty groups that
    together hold every line, and nothing else. *)
Lemma chunkByBoundaries_groups chunk lines :
  exists groups,
    chunkByBoundaries chunk lines = pieces chunk groups
    /\ Forall (fun g => g <> []) groups
    /\ (forall line, line ∈ lines <-> exists g, g ∈ groups /\ line ∈ g)
    /\ (0 < overlap config < maxLines config ->
          Forall (fun g => Z.of_nat (length g) <= maxLines config) groups).
Proof.
  assert (H0 : boundaryInv chunk [] ([], [], 0)).
  { exists []. refine (conj _ (conj _ (conj _ (conj _ _)))).
    - reflexivity.
    - constructor.
    - intros l Hl. inversion Hl.
    - intros l Hl. inversion Hl.
    - intros H. split; [cbn; lia|]. split; [lia | constructor]. }
  pose proof (boundaryFold_inv chunk lines [] _ H0) as H. rewrite app_nil_l in H.
  unfold Chunker.chunkByBoundaries.
  destruct (fold_left (boundaryStep chunk) lines ([], [], 0)) as [[chunks cur] count].
  destruct H as (groups & Hc & Hg & Hcur & Hcov & Hb).
  rewrite Forall_forall in Hg.
  destruct (0 <? length cur)%nat eqn:E.
  - apply Nat.ltb_lt in E. exists (groups ++ [cur]).
    refine (conj _ (conj _ (conj _ _))).
    + subst chunks. apply pieces_snoc.
    + apply Forall_app. split; [apply Forall_forall; intros g Hgin; apply (Hg g Hgin)|].
      constructor; [|constructor]. destruct cur; [cbn in E; lia | discriminate].
    + intros line. split.
      * intros Hl. destruct (Hcov line Hl) as [Hin | (g & Hgin & Hlg)].
        -- exists cur. split; [|exact Hin].
           apply elem_of_app; right; apply list_elem_of_singleton; reflexivity.
        -- exists g. split; [apply elem_of_app; left; exact Hgin | exact Hlg].
      * intros (g & Hgin & Hlg). apply elem_of_app in Hgin as [Hgin | Hgin].
        -- apply (proj2 (Hg g Hgin)), Hlg.
        -- apply list_elem_of_singleton in Hgin. subst g. apply Hcur, Hlg.
    + intros H. destruct (Hb H) as (H1 & H2 & H3). apply Forall_app. split; [exact H3|].
      constructor; [lia | constructor].
  - apply Nat.ltb_ge in E. assert (cur = []) as -> by (destruct cur; [reflexivity | cbn in E; lia]).
    exists groups.
    refine (conj _ (conj _ (conj _ _))).
    + exact Hc.
    + apply Forall_forall. intros g Hgin. apply (Hg g Hgin).
    + intros line. split.
      * intros Hl. destruct (Hcov line Hl) as [Hin | Hex]; [inversion Hin | exact Hex].
      * intros (g & Hgin & Hlg). apply (proj2 (Hg g Hgin)), Hlg.
    + intros H. apply (Hb H).
Qed.

(** Groups of lines of a text have no line feed inside a line. *)
Lemma groups_no_LF s groups :
  Forall (fun g => g <> []) groups ->
  (forall line, (exists g, g ∈ groups /\ line ∈ g) -> line ∈ split s) ->
  Forall (fun g => g <> [] /\ Forall (fun line => hasLF line = false) g) groups.
Proof.
  intros Hne Hin. rewrite Forall_forall in Hne. apply Forall_forall. intros g Hg.
  split; [apply Hne, Hg|]. apply Forall_forall. intros line Hl.
  pose proof (split_no_LF s) as Hs. rewrite Forall_forall in Hs. apply Hs, Hin. eauto.
Qed.

(** The loop of [chunkByLines] when the window advances. *)
Lemma linesLoop_returns chunk lines :
  0 < maxLines config ->
  overlap config < maxLines config ->
  Forall (fun line => hasLF line = false) lines ->
  forall fuel i chunks,
    0 <= i ->
    Z.of_nat (length lines) - i <= Z.of_nat fuel ->
    Forall (fun p => Z.of_nat (length (split (content p))) <= maxLines config) chunks ->
    exists out,
      linesLoop fuel chunk lines i chunks = Some out
      /\ Forall (fun p => Z.of_nat (length (split (content p))) <= maxLines config) out.
Proof.
  intros Hmax Hov Hlf. induction fuel as [| fuel IH]; intros i chunks Hi Hfuel Hchunks.
  - cbn. destruct (Z.ltb_spec i (Z.of_nat (length lines))); [lia|]. eauto.
  - cbn [Chunker.linesLoop]. destruct (Z.ltb_spec i (Z.of_nat (length lines))) as [Hlt |]; [|eauto].
    apply IH; [lia | lia |]. apply Forall_app. split; [exact Hchunks|].
    constructor; [|constructor]. cbn [content piece].
    set (stop := Z.min (i + maxLines config) (Z.of_nat (length lines))).
    assert (Hfrom : relativeIndex (length lines) i = Z.to_nat i).
    { unfold relativeIndex. destruct (Z.ltb_spec i 0); lia. }
    assert (Hto : relativeIndex (length lines) stop = Z.to_nat stop).
    { unfold relativeIndex. destruct (Z.ltb_spec stop 0); lia. }
    assert (Hlen : length (slice i stop lines) = (Z.to_nat stop - Z.to_nat i)%nat).
    { unfold slice. rewrite Hfrom, Hto, length_take, length_drop. lia. }
    rewrite split_join.
    + rewrite Hlen. lia.
    + intros Hnil. rewrite Hnil in Hlen. cbn in Hlen. lia.
    + unfold slice. apply Forall_take, Forall_drop, Hlf.
Qed.

(** The loop of [chunkByLines] when the window does not advance. *)
Lemma linesLoop_stuck chunk lines :
  maxLines config <= overlap config ->
  (0 < length lines)%nat ->
  forall fuel i chunks, i <= 0 -> linesLoop fuel chunk lines i chunks = None.
Proof.
  intros Hstep Hlen. induction fuel as [| fuel IH]; intros i chunks Hi.
  - cbn. destruct (Z.ltb_spec i (Z.of_nat (length lines))); [reflexivity | lia].
  - cbn [Chunker.linesLoop].
    destruct (Z.ltb_spec i (Z.of_nat (length lines))); [apply IH; lia | lia].
Qed.

(** X27. With an overlap below the line limit (as in the defaults, 5 and
    100), chunking returns, and every chunk it returns has at most
    [maxLinesPerChunk] lines, whether it cuts at boundaries or by line
    count. Nothing is said of the character limit, which is only used to
    decide whether a chunk is cut at all. *)
Theorem chunkCodeChunk_line_limit :
  forall (fuel : nat) (chunk : CodeChunk),
    0 < overlap config < maxLines config ->
    (length (split (content chunk)) <= fuel)%nat ->
    exists out,
      chunkCodeChunk fuel chunk = Some out
      /\ Forall (fun p => Z.of_nat (length (split (content p))) <= maxLines config) out.
Proof.
  intros fuel chunk Hov Hfuel. unfold Chunker.chunkCodeChunk.
  destruct (isChunkSmallEnough chunk) eqn:Hsmall.
  - exists [chunk]. split; [reflexivity|]. constructor; [|constructor].
    unfold Chunker.isChunkSmallEnough in Hsmall.
    apply andb_true_iff in Hsmall as [Hl _]. apply Z.leb_le in Hl. exact Hl.
  - cbv zeta. destruct (preserve config).
    + destruct (chunkByBoundaries_groups chunk (split (content chunk)))
        as (groups & Hout & Hne & Hcov & Hb).
      exists (pieces chunk groups). split; [rewrite Hout; reflexivity|].
      pose proof (groups_no_LF (content chunk) groups Hne (fun l => proj2 (Hcov l))) as Hlf.
      specialize (Hb Hov). rewrite Forall_forall in Hb.
      apply Forall_forall. intros p Hp.
      destruct (pieces_lines chunk groups p Hlf Hp) as (g & Hg & ->). apply Hb, Hg.
    + unfold chunkByLines. apply linesLoop_returns;
        [lia | lia | apply split_no_LF | lia | lia | constructor].
Qed.

(** What the loop of [chunkByBoundaries] keeps true of line positions,
    [done] being the lines taken so far: the chunks pushed are runs of
    [done], [currentChunk] is the rest of [done] from position [s] on, and
    every position before [s] lies in a run. *)
Definition boundaryRuns (chunk : CodeChunk) (done : list string)
  (st : list CodeChunk * list string * Z) : Prop :=
  let '(chunks, currentChunk, _) := st in
  exists windows s,
    chunks = pieces chunk (window done <$> windows)
    /\ currentChunk = drop s done
    /\ (s <= length done)%nat
    /\ Forall (fun w => (fst w < snd w <= length done)%nat) windows
    /\ chained windows
    /\ (forall w, last windows = Some w ->
          (fst w <= s <= snd w /\ snd w <= length done)%nat)
    /\ (forall j, (j < s)%nat -> exists w, w ∈ windows /\ (fst w <= j < snd w)%nat).

Lemma boundaryStep_runs chunk done st line :
  boundaryRuns chunk done st ->
  boundaryRuns chunk (done ++ [line]) (boundaryStep chunk st line).
Proof.
  destruct st as [[chunks cur] count].
  intros (windows & s & Hc & Hcur & Hs & Hw & Hch & Hlast & Hcov).
  unfold Chunker.boundaryStep.
  assert (Hlen : (0 <? length (cur ++ [line]))%nat = true)
    by (apply Nat.ltb_lt; rewrite length_app; cbn; lia).
  rewrite Hlen, andb_true_r.
  assert (Hpush : cur ++ [line] = drop s (done ++ [line]))
    by (rewrite Hcur, drop_app_le by exact Hs; reflexivity).
  assert (Hlen' : length (done ++ [line]) = S (length done))
    by (rewrite length_app; cbn; lia).
  assert (Hw' : Forall (fun w => (fst w < snd w <= length (done ++ [line]))%nat) windows).
  { eapply Forall_impl; [exact Hw|]. intros w H. cbn beta in *. lia. }
  assert (Hsame : window (done ++ [line]) <$> windows = window done <$> windows).
  { apply Forall_fmap_ext. eapply Forall_impl; [exact Hw|].
    intros w H. apply window_app. cbn beta in H. lia. }
  destruct (isBoundaryLine line || (maxLines config <=? count + 1)).
  - set (r := relativeIndex (length (cur ++ [line])) (- overlap config)).
    assert (Hr : (r <= length (cur ++ [line]))%nat) by apply relativeIndex_le.
    assert (Hcl : length (cur ++ [line]) = (S (length done) - s)%nat)
      by (rewrite Hpush, length_drop, Hlen'; reflexivity).
    exists (windows ++ [(s, S (length done))]), (s + r)%nat.
    refine (conj _ (conj _ (conj _ (conj _ (conj _ (conj _ _)))))).
    + rewrite fmap_app, Hsame. cbn [fmap list_fmap].
      assert (Hnew : window (done ++ [line]) (s, S (length done)) = cur ++ [line]).
      { unfold window. cbn [fst snd]. rewrite <- Hpush. apply take_ge. lia. }
      rewrite Hnew, Hc. apply pieces_snoc.
    + unfold sliceFrom. fold r. rewrite Hpush. apply drop_drop.
    + lia.
    + apply Forall_app. split; [exact Hw'|]. constructor; [|constructor]. cbn [fst snd]. lia.
    + apply chained_snoc; [exact Hch|]. intros w H. cbn [fst snd].
      specialize (Hlast w H). lia.
    + intros w H. rewrite last_snoc in H. injection H as <-. cbn [fst snd]. lia.
    + intros j Hj. destruct (le_lt_dec s j) as [Hge | Hlt].
      * exists (s, S (length done)). split; [|cbn [fst snd]; lia].
        apply elem_of_app. right. apply list_elem_of_singleton. reflexivity.
      * destruct (Hcov j Hlt) as (w & Hin & Hj'). exists w.
        split; [apply elem_of_app; left; exact Hin | exact Hj'].
  - exists windows, s.
    refine (conj _ (conj _ (conj _ (conj _ (conj _ (conj _ _)))))).
    + rewrite Hsame. exact Hc.
    + exact Hpush.
    + lia.
    + exact Hw'.
    + exact Hch.
    + intros w H. specialize (Hlast w H). lia.
    + exact Hcov.
Qed.

Lemma boundaryFold_runs chunk lines : forall done st,
  boundaryRuns chunk done st ->
  boundaryRuns chunk (done ++ lines) (fold_left (boundaryStep chunk) lines st).
Proof.
  induction lines as [| line lines IH]; intros done st H.
  - rewrite app_nil_r. exact H.
  - cbn [fold_left]. replace (done ++ line :: lines) with ((done ++ [line]) ++ lines)
      by (rewrite <- app_assoc; reflexivity).
    apply IH, boundaryStep_runs, H.
Qed.

(** [chunkByBoundaries] cuts the lines into chained runs that cover every
    position. *)
Lemma chunkByBoundaries_runs chunk lines :
  exists windows,
    chunkByBoundaries chunk lines = pieces chunk (window lines <$> windows)
    /\ Forall (fun w => (fst w < snd w <= length lines)%nat) windows
    /\ chained windows
    /\ (forall j, (j < length lines)%nat ->
          exists w, w ∈ windows /\ (fst w <= j < snd w)%nat).
Proof.
  assert (H0 : boundaryRuns chunk [] ([], [], 0)).
  { exists [], 0%nat. refine (conj _ (conj _ (conj _ (conj _ (conj _ (conj _ _)))))).
    - reflexivity.
    - reflexivity.
    - cbn. lia.
    - constructor.
    - exact I.
    - intros w H. discriminate H.
    - intros j Hj. lia. }
  pose proof (boundaryFold_runs chunk lines [] _ H0) as H. rewrite app_nil_l in H.
  unfold Chunker.chunkByBoundaries.
  destruct (fold_left (boundaryStep chunk) lines ([], [], 0)) as [[chunks cur] count].
  destruct H as (windows & s & Hc & Hcur & Hs & Hw & Hch & Hlast & Hcov).
  assert (Hcl : length cur = (length lines - s)%nat) by (rewrite Hcur; apply length_drop).
  destruct (0 <? length cur)%nat eqn:E.
  - apply Nat.ltb_lt in E. exists (windows ++ [(s, length lines)]).
    refine (conj _ (conj _ (conj _ _))).
    + rewrite fmap_app. cbn [fmap list_fmap].
      assert (Hnew : window lines (s, length lines) = cur).
      { unfold window. cbn [fst snd]. rewrite <- Hcur. apply take_ge. lia. }
      rewrite Hnew, Hc. apply pieces_snoc.
    + apply Forall_app. split; [exact Hw|]. constructor; [|constructor]. cbn [fst snd]. lia.
    + apply chained_snoc; [exact Hch|]. intros w H. cbn [fst snd].
      specialize (Hlast w H). lia.
    + intros j Hj. destruct (le_lt_dec s j) as [Hge | Hlt].
      * exists (s, length lines). split; [|cbn [fst snd]; lia].
        apply elem_of_app. right. apply list_elem_of_singleton. reflexivity.
      * destruct (Hcov j Hlt) as (w & Hin & Hj'). exists w.
        split; [apply elem_of_app; left; exact Hin | exact Hj'].
  - apply Nat.ltb_ge in E. exists windows.
    refine (conj _ (conj _ (conj _ _))).
    + exact Hc.
    + exact Hw.
    + exact Hch.
    + intros j Hj. apply Hcov. lia.
Qed.

(** Runs of the lines of a text, as groups of lines. *)
Lemma windows_no_LF s windows :
  Forall (fun w => (fst w < snd w <= length (split s))%nat) windows ->
  Forall (fun g => g <> [] /\ Forall (fun line => hasLF line = false) g)
    (window (split s) <$> windows).
Proof.
  intros Hw. apply Forall_fmap. eapply Forall_impl; [exact Hw|].
  intros w H. cbn beta in *. split.
  - intros Hnil. apply (f_equal length) in Hnil.
    rewrite window_length in Hnil by lia. cbn in Hnil. lia.
  - unfold window. apply Forall_take, Forall_drop, split_no_LF.
Qed.

(** X28. Cutting at boundaries loses no line and invents none, whatever
    the limits, the overlap and the lines taken as boundaries are: the
    chunks returned are, in order, runs of consecutive lines of the chunk
    given; every run is non-empty; each run starts at or after the start
    of the one before and at or before its end, so that no line is skipped
    between two runs; and every line position of the chunk given lies in
    some run. *)
Theorem chunkCodeChunk_keeps_every_line :
  forall (fuel : nat) (chunk : CodeChunk),
    preserve config = true ->
    let lines := split (content chunk) in
    exists out windows,
      chunkCodeChunk fuel chunk = Some out
      /\ (fun p => split (content p)) <$> out = window lines <$> windows
      /\ Forall (fun w => (fst w < snd w <= length lines)%nat) windows
      /\ chained windows
      /\ forall j, (j < length lines)%nat ->
           exists w, w ∈ windows /\ (fst w <= j < snd w)%nat.
Proof.
  intros fuel chunk Hp lines. unfold Chunker.chunkCodeChunk.
  destruct (isChunkSmallEnough chunk).
  - assert (Hpos : (0 < length lines)%nat)
      by (subst lines; destruct (split_cons (content chunk)) as (f & o & ->); cbn; lia).
    exists [chunk], [(0%nat, length lines)].
    refine (conj eq_refl (conj _ (conj _ (conj I _)))).
    + cbn [fmap list_fmap]. unfold window. cbn [fst snd].
      rewrite drop_0, take_ge by lia. reflexivity.
    + constructor; [|constructor]. cbn [fst snd]. lia.
    + intros j Hj. exists (0%nat, length lines).
      split; [apply list_elem_of_singleton; reflexivity | cbn [fst snd]; lia].
  - cbv zeta. rewrite Hp.
    destruct (chunkByBoundaries_runs chunk (split (content chunk)))
      as (windows & Hout & Hw & Hch & Hcov).
    exists (pieces chunk (window lines <$> windows)), windows.
    split; [rewrite Hout; reflexivity|].
    split; [apply pieces_split, windows_no_LF; exact Hw|].
    split; [exact Hw|]. split; [exact Hch | exact Hcov].
Qed.

(** X29. Cutting by line count with a line limit that does not exceed the
    overlap never returns: the window does not advance, so no number of
    turns of the loop is enough. *)
Theorem chunkCodeChunk_by_lines_never_returns :
  forall (chunk : CodeChunk),
    preserve config = false ->
    isChunkSmallEnough chunk = false ->
    maxLines config <= overlap config ->
    forall fuel, chunkCodeChunk fuel chunk = None.
Proof.
  intros chunk Hp Hsmall Hstep fuel. unfold Chunker.chunkCodeChunk.
  rewrite Hsmall, Hp. cbv zeta. unfold chunkByLines.
  apply linesLoop_stuck; [exact Hstep | | lia].
  destruct (split_cons (content chunk)) as (f & o & ->). cbn. lia.
Qed.

(** The chunks that [chunkCodeChunk] returns for one chunk when it cuts at
    boundaries. *)
Definition cut (chunk : CodeChunk) : list CodeChunk :=
  if isChunkSmallEnough chunk then [chunk]
  else chunkByBoundaries chunk (split (content chunk)).

Lemma chunkCodeChunk_cut fuel chunk :
  preserve config = true -> chunkCodeChunk fuel chunk = Some (cut chunk).
Proof.
  intros Hp. unfold Chunker.chunkCodeChunk, cut. rewrite Hp.
  destruct (isChunkSmallEnough chunk); reflexivity.
Qed.

Lemma chunkCodeChunks_cut fuel chunks :
  preserve config = true ->
  chunkCodeChunks fuel chunks = Some (concat (cut <$> chunks)).
Proof.
  intros Hp. unfold Chunker.chunkCodeChunks.
  change (Some (concat (cut <$> chunks))) with (Some ([] ++ concat (cut <$> chunks))).
  generalize (@nil CodeChunk). induction chunks as [| c chunks IH]; intros acc.
  - cbn. rewrite app_nil_r. reflexivity.
  - cbn [fold_left fmap list_fmap concat].
    rewrite (chunkCodeChunk_cut fuel c Hp). cbn [mbind option_bind].
    rewrite IH, <- app_assoc. reflexivity.
Qed.

Lemma cut_ids chunk x :
  x ∈ id <$> cut chunk -> x = id chunk \/ exists k, x = pieceId (id chunk) k.
Proof.
  unfold cut. destruct (isChunkSmallEnough chunk).
  - cbn. intros H. apply list_elem_of_singleton in H. left. exact H.
  - destruct (chunkByBoundaries_groups chunk (split (content chunk))) as (groups & -> & _).
    rewrite pieces_ids. intros H. apply list_elem_of_fmap in H as (k & -> & _). eauto.
Qed.

Lemma cut_NoDup chunk : NoDup (id <$> cut chunk).
Proof.
  unfold cut. destruct (isChunkSmallEnough chunk).
  - cbn. apply NoDup_singleton.
  - destruct (chunkByBoundaries_groups chunk (split (content chunk))) as (groups & -> & _).
    rewrite pieces_ids. apply NoDup_fmap_2; [|apply NoDup_seq].
    intros k k' H. apply (pieceId_inj _ _ _ _ H).
Qed.

(** X30. Cutting at boundaries keeps identifiers distinct: if the chunks
    given have distinct identifiers and none of them is itself the
    identifier of a piece of one of them, then no two chunks returned share
    an identifier. *)
Theorem chunkCodeChunks_distinct_ids :
  forall (fuel : nat) (chunks : list CodeChunk),
    preserve config = true ->
    NoDup (id <$> chunks) ->
    (forall a b k, a ∈ chunks -> b ∈ chunks -> id a <> pieceId (id b) k) ->
    exists out,
      chunkCodeChunks fuel chunks = Some out /\ NoDup (id <$> out).
Proof.
  intros fuel chunks Hp Hnd Hfresh. exists (concat (cut <$> chunks)).
  split; [apply chunkCodeChunks_cut, Hp|].
  induction chunks as [| c chunks IH]; [constructor|].
  cbn [fmap list_fmap concat]. rewrite fmap_app. apply NoDup_app.
  cbn [fmap list_fmap] in Hnd. apply NoDup_cons in Hnd as [Hc Hnd].
  split; [apply cut_NoDup|]. split.
  - intros x Hx Hx'.
    apply list_elem_of_fmap in Hx' as (p & -> & Hpin).
    apply list_elem_of_In, in_concat in Hpin as (l & Hl & Hpl).
    apply list_elem_of_In in Hl, Hpl.
    apply list_elem_of_fmap in Hl as (b & -> & Hb).
    assert (Hxb : id p ∈ id <$> cut b) by (apply list_elem_of_fmap; eauto).
    assert (Hcin : c ∈ c :: chunks) by (left).
    assert (Hbin : b ∈ c :: chunks) by (right; exact Hb).
    assert (Hne : id c <> id b).
    { intros E. apply Hc. rewrite E. apply list_elem_of_fmap. eauto. }
    destruct (cut_ids c _ Hx) as [E1 | [k E1]], (cut_ids b _ Hxb) as [E2 | [k' E2]].
    + congruence.
    + apply (Hfresh c b k' Hcin Hbin). congruence.
    + apply (Hfresh b c k Hbin Hcin). congruence.
    + apply Hne. rewrite E1 in E2. apply (pieceId_inj _ _ _ _ E2).
  - apply IH; [exact Hnd|]. intros a b k Ha Hb. apply Hfresh; right; assumption.
Qed.

End CodeChunkerFacts.

(** ** A chunk of six lines, cut with a limit of three lines *)

Definition nl : string := String LF EmptyString.

Definition sampleChunk : CodeChunk :=
  {| id := "src/a.ts:a"; 
     content := "function a() {" +:+ nl +:+ "  x" +:+ nl +:+ "}" +:+ nl
                +:+ "function b() {" +:+ nl +:+ "  y" +:+ nl +:+ "}";
     type := "function"; filePath := "src/a.ts"; name := Some "a"; embedding := None |}.

Definition smallChunk : CodeChunk :=
  {| id := "src/b.ts:c"; content := "const c = 1";
     type := "variable"; filePath := "src/b.ts"; name := None; embedding := None |}.

Definition startsFunction (line : string) : bool := String.prefix "function " line.

Definition threeLines (preserveBoundaries : bool) (overlapLines : Z) : ChunkerConfig :=
  constructor {| maxLinesPerChunk := Some 3; maxCharsPerChunk := None;
                 preserveBoundaries := Some preserveBoundaries;
                 overlapLines := Some overlapLines |}.

Lemma sample_fresh :
  forall a b k, a ∈ [sampleChunk; smallChunk] -> b ∈ [sampleChunk; smallChunk] ->
    id a <> pieceId (id b) k.
Proof.
  intros a b k Ha Hb E.
  apply elem_of_cons in Ha as [-> | Ha]; [|apply list_elem_of_singleton in Ha as ->];
    (apply elem_of_cons in Hb as [-> | Hb]; [|apply list_elem_of_singleton in Hb as ->]);
    unfold pieceId in E; cbn in E; discriminate E.
Qed.

Lemma chunkCodeChunk_line_limit_witness :
  0 < overlap (threeLines true 1) < maxLines (threeLines true 1)
  /\ (length (split (content sampleChunk)) <= 6)%nat
  /\ exists out,
       chunkCodeChunk (threeLines true 1) startsFunction String.length 6 sampleChunk = Some out
       /\ Forall (fun p => Z.of_nat (length (split (content p))) <= 3) out.
Proof.
  assert (H1 : 0 < overlap (threeLines true 1) < maxLines (threeLines true 1))
    by (cbn; lia).
  assert (H2 : (length (split (content sampleChunk)) <= 6)%nat) by (vm_compute; lia).
  split; [exact H1|]. split; [exact H2|].
  exact (chunkCodeChunk_line_limit (threeLines true 1) startsFunction String.length
           6 sampleChunk H1 H2).
Defined.

Lemma chunkCodeChunk_keeps_every_line_witness :
  preserve (threeLines true 1) = true
  /\ exists out windows,
       chunkCodeChunk (threeLines true 1) startsFunction String.length 0 sampleChunk = Some out
       /\ (fun p => split (content p)) <$> out
          = window (split (content sampleChunk)) <$> windows
       /\ Forall (fun w => (fst w < snd w <= length (split (content sampleChunk)))%nat) windows
       /\ chained windows
       /\ forall j, (j < length (split (content sampleChunk)))%nat ->
            exists w, w ∈ windows /\ (fst w <= j < snd w)%nat.
Proof.
  split; [reflexivity|].
  exact (chunkCodeChunk_keeps_every_line (threeLines true 1) startsFunction String.length
           0 sampleChunk eq_refl).
Defined.

Lemma chunkCodeChunk_by_lines_never_returns_witness :
  preserve (threeLines false 3) = false
  /\ isChunkSmallEnough (threeLines false 3) String.length sampleChunk = false
  /\ maxLines (threeLines false 3) <= overlap (threeLines false 3)
  /\ chunkCodeChunk (threeLines false 3) startsFunction String.length 1000 sampleChunk = None.
Proof.
  assert (H3 : maxLines (threeLines false 3) <= overlap (threeLines false 3)) by (cbn; lia).
  split; [reflexivity|]. split; [reflexivity|]. split; [exact H3|].
  exact (chunkCodeChunk_by_lines_never_returns (threeLines false 3) startsFunction
           String.length sampleChunk eq_refl eq_refl H3 1000%nat).
Defined.

Lemma chunkCodeChunks_distinct_ids_witness :
  preserve (threeLines true 1) = true
  /\ NoDup (id <$> [sampleChunk; smallChunk])
  /\ (forall a b k, a ∈ [sampleChunk; smallChunk] -> b ∈ [sampleChunk; smallChunk] ->
        id a <> pieceId (id b) k)
  /\ exists out,
       chunkCodeChunks (threeLines true 1) startsFunction String.length 0
         [sampleChunk; smallChunk] = Some out
       /\ NoDup (id <$> out).
Proof.
  assert (Hnd : NoDup (id <$> [sampleChunk; smallChunk]))
    by (apply (bool_decide_unpack (NoDup (id <$> [sampleChunk; smallChunk])));
        vm_compute; exact I).
  split; [reflexivity|]. split; [exact Hnd|]. split; [exact sample_fresh|].
  exact (chunkCodeChunks_distinct_ids (threeLines true 1) startsFunction String.length
           0 [sampleChunk; smallChunk] eq_refl Hnd sample_fresh).
Defined.

End Chunker.
